(** * FusedAdam: the dispatch layer of the fused Adam optimizer

    A shallow embedding of
    [transformer_engine/pytorch/optimizers/fused_adam.py]: the optimizer
    object, the parameter objects it refers to, and [FusedAdam.step] with
    its classification loop, step-counter handling and kernel dispatch.

    Tensor payloads are lists of real numbers: the update mathematics is
    the real-number contract of the fused kernels, and the rounding to a
    storage precision is left to an abstract backend. *)

From Stdlib Require Import Reals Lra ZArith List String.
From stdpp Require Import gmap list.

Local Open Scope Z_scope.

(* ================================================================== *)
(** ** Data model *)
(* ================================================================== *)

(** [torch.dtype] of a parameter. [float64] and [uint8] stand for the
    storage types the optimizer rejects. *)
Inductive torch_dtype :=
| float32 | float16 | bfloat16 | float64 | uint8.

Definition dtype_eqb (a b : torch_dtype) : bool :=
  match a, b with
  | float32, float32 | float16, float16 | bfloat16, bfloat16
  | float64, float64 | uint8, uint8 => true
  | _, _ => false
  end.

(** [tex.DType], the kernel-side storage type tag. *)
Inductive TE_DType := kFloat32 | kFloat8E4M3 | kFloat8E5M2.

(** A gradient tensor: [.data] and [.data.is_sparse]. *)
Record Grad := {
  g_data : list R;
  is_sparse : bool
}.

(** One of the two tables of [_fp8_meta], selected by the key that
    [FP8GlobalStateManager.get_meta_tensor_key] returns. *)
Record Fp8MetaTensors := {
  scale : list R;
  amax_history : list (list R)
}.

Record Fp8Meta := {
  scaling_fwd : Fp8MetaTensors;
  scaling_bwd : Fp8MetaTensors
}.

(** A parameter object. For a [Float8Tensor], [data] is the payload
    [p._data.data] and [dtype] its nominal type. *)
Record Param := {
  dtype : torch_dtype;
  is_Float8Tensor : bool;
  shape : list nat;
  data : list R;
  grad : option Grad;
  device : nat;
  _fp8_meta : option Fp8Meta;
  _fp8_meta_forward : bool;
  _fp8_meta_index : nat;
  _scale_inv : R;
  _fp8_dtype : TE_DType
}.

(** An entry of the [master_weights] list. *)
Record Master := {
  mw_shape : list nat;
  mw_data : list R;
  mw_grad : option Grad
}.

(** [self.state[p]]: the dictionary with keys [exp_avg], [exp_avg_sq]
    and, optionally, [master_param]. A master parameter is a reference
    into the [master_weights] list, kept as its index. The empty
    dictionary is the absence of an entry. *)
Record PState := {
  exp_avg : list R;
  exp_avg_sq : list R;
  master_param : option nat
}.

(** [group["step"]]: a Python integer, or a one-element [torch.int]
    tensor on the device. *)
Inductive StepVal :=
| PyInt (n : Z)
| IntTensor (n : Z).

Definition step_value (s : StepVal) : Z :=
  match s with PyInt n => n | IntTensor n => n end.

(** Two's-complement wrap-around of a [torch.int] (32-bit) element. *)
Definition wrap32 (z : Z) : Z := (z + 2 ^ 31) mod 2 ^ 32 - 2 ^ 31.

(** A parameter group: a dictionary with these keys. [params] holds the
    identities of the member parameter objects. *)
Module group.

Record t := {
  params : list nat;
  lr : R;
  bias_correction : bool;
  betas : R * R;
  eps : R;
  weight_decay : R;
  step : option StepVal
}.

Definition set_step (v : StepVal) (g : t) : t :=
  {| params := params g; lr := lr g; bias_correction := bias_correction g;
     betas := betas g; eps := eps g; weight_decay := weight_decay g;
     step := Some v |}.

End group.

(** References to the tensors that the batch lists hold. *)
Inductive TRef :=
| ParamData (id : nat)
| ParamGrad (id : nat)
| MasterData (idx : nat)
| MasterGrad (idx : nat)
| ExpAvg (id : nat)
| ExpAvgSq (id : nat)
| Fp8Scale (id : nat)
| Fp8Amax (id : nat)
| Fp8ScaleInv (id : nat).

(** The four fused-kernel entry points of [transformer_engine_torch]. *)
Inductive AdamFunc :=
| multi_tensor_adam
| multi_tensor_adam_fp8
| multi_tensor_adam_capturable
| multi_tensor_adam_capturable_master.

(** The trailing positional arguments of a kernel call. *)
Inductive PyArg :=
| ArgScalar (r : R)
| ArgDType (d : TE_DType).

(** One invocation of [multi_tensor_applier], as recorded in the trace.
    [k_group] is the position of the group being processed. *)
Record KernelCall := {
  k_group : nat;
  k_func : AdamFunc;
  k_noop : Z;
  k_lists : list (list TRef);
  k_lr : R;
  k_beta1 : R;
  k_beta2 : R;
  k_eps : R;
  k_step : StepVal;
  k_mode : Z;
  k_bias : Z;
  k_wd : R;
  k_extra : list PyArg
}.

(** The optimizer object together with the objects it refers to:
    [heap] maps the identity of a parameter to the parameter object and
    [trace] lists the kernel invocations made so far, oldest first. *)
Record FusedAdam := {
  param_groups : list group.t;
  state : gmap nat PState;
  capturable : bool;
  master_weights : option (list Master);
  adam_w_mode : Z;
  _dummy_overflow_buf : Z;
  heap : nat -> Param;
  trace : list KernelCall
}.

(** The loss scaler, through the two queries the optimizer makes. *)
Record GradScaler := {
  _check_inf_per_device : nat -> Z;
  _get_scale_async : R
}.

(** The exceptions [step] can raise. *)
Inductive Exn :=
| RuntimeError (msg : string)
| AssertionError (msg : string)
| IndexError
| AttributeError.

(** ** Field updates *)

Definition set_param_groups (gs : list group.t) (w : FusedAdam) : FusedAdam :=
  {| param_groups := gs; state := state w; capturable := capturable w;
     master_weights := master_weights w; adam_w_mode := adam_w_mode w;
     _dummy_overflow_buf := _dummy_overflow_buf w; heap := heap w;
     trace := trace w |}.

Definition set_state (s : gmap nat PState) (w : FusedAdam) : FusedAdam :=
  {| param_groups := param_groups w; state := s; capturable := capturable w;
     master_weights := master_weights w; adam_w_mode := adam_w_mode w;
     _dummy_overflow_buf := _dummy_overflow_buf w; heap := heap w;
     trace := trace w |}.

Definition set_master_weights (m : option (list Master)) (w : FusedAdam) : FusedAdam :=
  {| param_groups := param_groups w; state := state w; capturable := capturable w;
     master_weights := m; adam_w_mode := adam_w_mode w;
     _dummy_overflow_buf := _dummy_overflow_buf w; heap := heap w;
     trace := trace w |}.

Definition set_overflow_buf (b : Z) (w : FusedAdam) : FusedAdam :=
  {| param_groups := param_groups w; state := state w; capturable := capturable w;
     master_weights := master_weights w; adam_w_mode := adam_w_mode w;
     _dummy_overflow_buf := b; heap := heap w;
     trace := trace w |}.

Definition set_heap (h : nat -> Param) (w : FusedAdam) : FusedAdam :=
  {| param_groups := param_groups w; state := state w; capturable := capturable w;
     master_weights := master_weights w; adam_w_mode := adam_w_mode w;
     _dummy_overflow_buf := _dummy_overflow_buf w; heap := h;
     trace := trace w |}.

Definition set_trace (t : list KernelCall) (w : FusedAdam) : FusedAdam :=
  {| param_groups := param_groups w; state := state w; capturable := capturable w;
     master_weights := master_weights w; adam_w_mode := adam_w_mode w;
     _dummy_overflow_buf := _dummy_overflow_buf w; heap := heap w;
     trace := t |}.

(** ** The state-and-exception monad of a method call

    A call either returns a value or raises; in both cases the object
    store is left as the call mutated it (there is no rollback). *)

Inductive Res (A : Type) :=
| Ok (a : A) (w : FusedAdam)
| Raise (e : Exn) (w : FusedAdam).
Arguments Ok {A} a w.
Arguments Raise {A} e w.

Definition M (A : Type) : Type := FusedAdam -> Res A.

Definition ret {A} (a : A) : M A := fun w => Ok a w.

Definition bind {A B} (c : M A) (k : A -> M B) : M B :=
  fun w => match c w with
           | Ok a w' => k a w'
           | Raise e w' => Raise e w'
           end.

Definition raise {A} (e : Exn) : M A := fun w => Raise e w.

Definition get : M FusedAdam := fun w => Ok w w.

Definition modify (f : FusedAdam -> FusedAdam) : M unit := fun w => Ok tt (f w).

Notation "'let!' x ':=' c1 'in' c2" := (bind c1 (fun x => c2))
  (at level 10, x pattern, c1 at level 100, c2 at level 200).
Notation "'do!' c1 'in' c2" := (bind c1 (fun _ => c2))
  (at level 10, c1 at level 100, c2 at level 200).

(** The object store a call leaves behind, whatever its outcome. *)
Definition res_world {A} (r : Res A) : FusedAdam :=
  match r with Ok _ w => w | Raise _ w => w end.

(** A [for] loop threading its local variables. *)
Fixpoint for_each {A S} (body : A -> S -> M S) (l : list A) (s : S) : M S :=
  match l with
  | [] => ret s
  | x :: r => let! s' := body x s in for_each body r s'
  end.

(* ================================================================== *)
(** ** Reading and writing through tensor references *)
(* ================================================================== *)

Definition truthy (mw : option (list Master)) : bool :=
  match mw with
  | Some (_ :: _) => true
  | _ => false
  end.

(** [self.master_weights[idx]]. *)
Definition master_at (w : FusedAdam) (idx : nat) : option Master :=
  match master_weights w with
  | Some l => l !! idx
  | None => None
  end.

(** [FP8GlobalStateManager.get_meta_tensor_key(forward=...)] followed by
    the lookup of that key in [_fp8_meta]. *)
Definition meta_table (forward : bool) (m : Fp8Meta) : Fp8MetaTensors :=
  if forward then scaling_fwd m else scaling_bwd m.

Definition set_meta_table (forward : bool) (t : Fp8MetaTensors) (m : Fp8Meta) : Fp8Meta :=
  if forward
  then {| scaling_fwd := t; scaling_bwd := scaling_bwd m |}
  else {| scaling_fwd := scaling_fwd m; scaling_bwd := t |}.

Definition set_data (d : list R) (p : Param) : Param :=
  {| dtype := dtype p; is_Float8Tensor := is_Float8Tensor p; shape := shape p;
     data := d; grad := grad p; device := device p; _fp8_meta := _fp8_meta p;
     _fp8_meta_forward := _fp8_meta_forward p;
     _fp8_meta_index := _fp8_meta_index p; _scale_inv := _scale_inv p;
     _fp8_dtype := _fp8_dtype p |}.

Definition set_fp8_meta (m : option Fp8Meta) (p : Param) : Param :=
  {| dtype := dtype p; is_Float8Tensor := is_Float8Tensor p; shape := shape p;
     data := data p; grad := grad p; device := device p; _fp8_meta := m;
     _fp8_meta_forward := _fp8_meta_forward p;
     _fp8_meta_index := _fp8_meta_index p; _scale_inv := _scale_inv p;
     _fp8_dtype := _fp8_dtype p |}.

Definition set_scale_inv (r : R) (p : Param) : Param :=
  {| dtype := dtype p; is_Float8Tensor := is_Float8Tensor p; shape := shape p;
     data := data p; grad := grad p; device := device p; _fp8_meta := _fp8_meta p;
     _fp8_meta_forward := _fp8_meta_forward p;
     _fp8_meta_index := _fp8_meta_index p; _scale_inv := r;
     _fp8_dtype := _fp8_dtype p |}.

Definition set_mw_data (d : list R) (m : Master) : Master :=
  {| mw_shape := mw_shape m; mw_data := d; mw_grad := mw_grad m |}.

Definition set_exp_avg (d : list R) (s : PState) : PState :=
  {| exp_avg := d; exp_avg_sq := exp_avg_sq s; master_param := master_param s |}.

Definition set_exp_avg_sq (d : list R) (s : PState) : PState :=
  {| exp_avg := exp_avg s; exp_avg_sq := d; master_param := master_param s |}.

Definition set_master_param (i : nat) (s : PState) : PState :=
  {| exp_avg := exp_avg s; exp_avg_sq := exp_avg_sq s; master_param := Some i |}.

Definition upd_heap (id : nat) (f : Param -> Param) (w : FusedAdam) : FusedAdam :=
  set_heap (fun j => if Nat.eqb j id then f (heap w j) else heap w j) w.

Definition opt_data (g : option Grad) : list R :=
  match g with Some x => g_data x | None => [] end.

Definition opt_list (o : option R) : list R :=
  match o with Some x => [x] | None => [] end.

(** The current contents of the tensor a reference designates. *)
Definition read (w : FusedAdam) (r : TRef) : list R :=
  match r with
  | ParamData id => data (heap w id)
  | ParamGrad id => opt_data (grad (heap w id))
  | MasterData idx => from_option mw_data [] (master_at w idx)
  | MasterGrad idx => from_option (fun m => opt_data (mw_grad m)) [] (master_at w idx)
  | ExpAvg id => from_option exp_avg [] (state w !! id)
  | ExpAvgSq id => from_option exp_avg_sq [] (state w !! id)
  | Fp8Scale id =>
      let p := heap w id in
      from_option (fun m => opt_list (scale (meta_table (_fp8_meta_forward p) m)
                                        !! _fp8_meta_index p)) [] (_fp8_meta p)
  | Fp8Amax id =>
      let p := heap w id in
      from_option (fun m =>
        opt_list (from_option (fun row : list R => row !! _fp8_meta_index p) None
                    (amax_history (meta_table (_fp8_meta_forward p) m) !! 0%nat)))
        [] (_fp8_meta p)
  | Fp8ScaleInv id => [_scale_inv (heap w id)]
  end.

Definition write_scale (x : R) (p : Param) : Param :=
  match _fp8_meta p with
  | None => p
  | Some m =>
      let t := meta_table (_fp8_meta_forward p) m in
      set_fp8_meta
        (Some (set_meta_table (_fp8_meta_forward p)
                 {| scale := <[_fp8_meta_index p := x]> (scale t);
                    amax_history := amax_history t |} m)) p
  end.

Definition write_amax (x : R) (p : Param) : Param :=
  match _fp8_meta p with
  | None => p
  | Some m =>
      let t := meta_table (_fp8_meta_forward p) m in
      set_fp8_meta
        (Some (set_meta_table (_fp8_meta_forward p)
                 {| scale := scale t;
                    amax_history :=
                      match amax_history t with
                      | [] => []
                      | row :: rest => <[_fp8_meta_index p := x]> row :: rest
                      end |} m)) p
  end.

(** In-place assignment of new contents to the tensor a reference
    designates. Gradients are inputs of the kernels and never written. *)
Definition write (r : TRef) (d : list R) (w : FusedAdam) : FusedAdam :=
  match r with
  | ParamData id => upd_heap id (set_data d) w
  | ParamGrad _ | MasterGrad _ => w
  | MasterData idx =>
      match master_weights w with
      | Some l => set_master_weights (Some (alter (set_mw_data d) idx l)) w
      | None => w
      end
  | ExpAvg id => set_state (alter (set_exp_avg d) id (state w)) w
  | ExpAvgSq id => set_state (alter (set_exp_avg_sq d) id (state w)) w
  | Fp8Scale id =>
      match d with x :: _ => upd_heap id (write_scale x) w | [] => w end
  | Fp8Amax id =>
      match d with x :: _ => upd_heap id (write_amax x) w | [] => w end
  | Fp8ScaleInv id =>
      match d with x :: _ => upd_heap id (set_scale_inv x) w | [] => w end
  end.

(* ================================================================== *)
(** ** The fused kernels *)
(* ================================================================== *)

(** What the embedding leaves abstract of the device code: the rounding
    of a real value to a storage type, and the quantization policy of the
    8-bit bucket, which maps the storage type tag, the current scale,
    amax and inverse scale and the updated master values to the new
    payload, scale, amax and inverse scale. *)
Record Backend := {
  cast_to : torch_dtype -> R -> R;
  fp8_requantize : list PyArg -> R -> R -> R -> list R -> list R * R * R * R
}.

Definition is_capturable_kernel (f : AdamFunc) : bool :=
  match f with
  | multi_tensor_adam_capturable | multi_tensor_adam_capturable_master => true
  | multi_tensor_adam | multi_tensor_adam_fp8 => false
  end.

(** The inverse scale a capturable kernel receives as its first trailing
    argument. *)
Definition inv_scale_of (extra : list PyArg) : R :=
  match extra with
  | ArgScalar r :: _ => r
  | _ => 1%R
  end.

(** Modelled from the spec: the per-element update of section 4.4 (steps
    2 to 8), which the fused kernels of [transformer_engine_torch]
    realise; their device code is not part of the Python source. The
    result is the triple of the new parameter, first moment and second
    moment. *)
Definition adam_math (c : KernelCall) (g p m v : R) : R * R * R :=
  let beta1 := k_beta1 c in
  let beta2 := k_beta2 c in
  let t := step_value (k_step c) in
  let g1 := if is_capturable_kernel (k_func c)
            then (g * inv_scale_of (k_extra c))%R else g in
  let g2 := if k_mode c =? 0 then (g1 + k_wd c * p)%R else g1 in
  let m' := (beta1 * m + (1 - beta1) * g2)%R in
  let v' := (beta2 * v + (1 - beta2) * (g2 * g2))%R in
  let b1 := if k_bias c =? 0 then 1%R else (1 - powerRZ beta1 t)%R in
  let b2 := if k_bias c =? 0 then 1%R else (1 - powerRZ beta2 t)%R in
  let step_size := (k_lr c / b1)%R in
  let denom := (sqrt (v' / b2) + k_eps c)%R in
  let p' := if k_mode c =? 0
            then (p - step_size * (m' / denom))%R
            else (p - k_lr c * k_wd c * p - step_size * (m' / denom))%R in
  (p', m', v').

(** The elements of one tensor, updated in lock step. *)
Fixpoint adam_elems (c : KernelCall) (g p m v : list R) : list (R * R * R) :=
  match g, p, m, v with
  | g0 :: g', p0 :: p', m0 :: m', v0 :: v' =>
      adam_math c g0 p0 m0 v0 :: adam_elems c g' p' m' v'
  | _, _, _, _ => []
  end.

Definition column (lists : list (list TRef)) (k j : nat) : option TRef :=
  match lists !! k with
  | Some l => l !! j
  | None => None
  end.

Definition ref_dtype (w : FusedAdam) (r : TRef) : torch_dtype :=
  match r with
  | ParamData id => dtype (heap w id)
  | _ => float32
  end.

Definition head_or (d : R) (l : list R) : R :=
  match l with x :: _ => x | [] => d end.

(** Modelled from the spec: step 9 of section 4.4 for the [j]-th tensor
    of a batch. The moments and the parameter are committed; when the
    batch has a master list the master copy is the one updated and the
    working parameter is recomputed from it, by a cast or, in the 8-bit
    bucket, by the quantization policy, which also renews the scale
    metadata. *)
Definition update_tensor (B : Backend) (c : KernelCall) (w : FusedAdam) (j : nat)
  : FusedAdam :=
  let col := column (k_lists c) in
  match col 0%nat j, col 1%nat j, col 2%nat j, col 3%nat j with
  | Some gr, Some pr, Some mr, Some vr =>
      let target := default pr (col 4%nat j) in
      let res := adam_elems c (read w gr) (read w target) (read w mr) (read w vr) in
      let p' := map (fun x => fst (fst x)) res in
      let m' := map (fun x => snd (fst x)) res in
      let v' := map snd res in
      let w1 := write vr v' (write mr m' (write target p' w)) in
      match col 4%nat j with
      | None => w1
      | Some _ =>
          match k_func c, col 5%nat j, col 6%nat j, col 7%nat j with
          | multi_tensor_adam_fp8, Some sr, Some ar, Some ir =>
              let '(q, s', a', i') :=
                fp8_requantize B (k_extra c) (head_or 1%R (read w1 sr))
                  (head_or 0%R (read w1 ar)) (head_or 1%R (read w1 ir)) p' in
              write ir [i'] (write ar [a'] (write sr [s'] (write pr q w1)))
          | _, _, _, _ =>
              write pr (map (cast_to B (ref_dtype w1 pr)) p') w1
          end
      end
  | _, _, _, _ => w
  end.

(** Modelled from the spec: the effect of one kernel launch on the
    object store (sections 4.4 and 6). A capturable kernel that finds 1
    in the overflow buffer modifies nothing. *)
Definition run_kernel (B : Backend) (c : KernelCall) (w : FusedAdam) : FusedAdam :=
  if is_capturable_kernel (k_func c) && (k_noop c =? 1) then w
  else fold_left (update_tensor B c)
         (seq 0 (length (default [] (k_lists c !! 0%nat)))) w.

(** [multi_tensor_applier(adam_func, noop_flag, tensor_lists, *args)]:
    the launch is recorded and the kernel runs. *)
Definition multi_tensor_applier (B : Backend) (c : KernelCall) : M unit :=
  do! modify (fun w => set_trace (trace w ++ [c]) w) in
  modify (run_kernel B c).

(* ================================================================== *)
(** ** [FusedAdam.step]: state initialisation and classification *)
(* ================================================================== *)

(** The local variables of one iteration of the loop over groups: the
    lists for the multi-tensor launch, the 8-bit metadata lists,
    [out_dtype] and the two low-precision flags. *)
Record Buckets := {
  p_main_of_fp8_model : list TRef;
  p_main_of_f16_model : list TRef;
  g_of_fp8_model : list TRef;
  g_of_f16_model : list TRef;
  g_of_f32_model : list TRef;
  m_of_fp8_model : list TRef;
  m_of_f16_model : list TRef;
  m_of_f32_model : list TRef;
  v_of_fp8_model : list TRef;
  v_of_f16_model : list TRef;
  v_of_f32_model : list TRef;
  p_fp8_model : list TRef;
  p_f16_model : list TRef;
  p_f32_model : list TRef;
  scales : list TRef;
  amaxes : list TRef;
  scale_invs : list TRef;
  out_dtype : TE_DType;
  has_fp16 : bool;
  has_bf16 : bool
}.

Definition empty_buckets : Buckets :=
  {| p_main_of_fp8_model := []; p_main_of_f16_model := [];
     g_of_fp8_model := []; g_of_f16_model := []; g_of_f32_model := [];
     m_of_fp8_model := []; m_of_f16_model := []; m_of_f32_model := [];
     v_of_fp8_model := []; v_of_f16_model := []; v_of_f32_model := [];
     p_fp8_model := []; p_f16_model := []; p_f32_model := [];
     scales := []; amaxes := []; scale_invs := [];
     out_dtype := kFloat32; has_fp16 := false; has_bf16 := false |}.

(** The appends of the [Float8Tensor] branch; [pm] is the master
    reference, empty without master weights. *)
Definition append_fp8 (od : TE_DType) (p : TRef) (meta : TRef * TRef * TRef)
    (pm : list TRef) (g m v : TRef) (b : Buckets) : Buckets :=
  {| p_main_of_fp8_model := p_main_of_fp8_model b ++ pm;
     p_main_of_f16_model := p_main_of_f16_model b;
     g_of_fp8_model := g_of_fp8_model b ++ [g];
     g_of_f16_model := g_of_f16_model b; g_of_f32_model := g_of_f32_model b;
     m_of_fp8_model := m_of_fp8_model b ++ [m];
     m_of_f16_model := m_of_f16_model b; m_of_f32_model := m_of_f32_model b;
     v_of_fp8_model := v_of_fp8_model b ++ [v];
     v_of_f16_model := v_of_f16_model b; v_of_f32_model := v_of_f32_model b;
     p_fp8_model := p_fp8_model b ++ [p];
     p_f16_model := p_f16_model b; p_f32_model := p_f32_model b;
     scales := scales b ++ [fst (fst meta)];
     amaxes := amaxes b ++ [snd (fst meta)];
     scale_invs := scale_invs b ++ [snd meta];
     out_dtype := od; has_fp16 := has_fp16 b; has_bf16 := has_bf16 b |}.

(** The appends of the [float16]/[bfloat16] branch. *)
Definition append_f16 (dt : torch_dtype) (p : TRef) (pm : list TRef)
    (g m v : TRef) (b : Buckets) : Buckets :=
  {| p_main_of_fp8_model := p_main_of_fp8_model b;
     p_main_of_f16_model := p_main_of_f16_model b ++ pm;
     g_of_fp8_model := g_of_fp8_model b;
     g_of_f16_model := g_of_f16_model b ++ [g];
     g_of_f32_model := g_of_f32_model b;
     m_of_fp8_model := m_of_fp8_model b;
     m_of_f16_model := m_of_f16_model b ++ [m];
     m_of_f32_model := m_of_f32_model b;
     v_of_fp8_model := v_of_fp8_model b;
     v_of_f16_model := v_of_f16_model b ++ [v];
     v_of_f32_model := v_of_f32_model b;
     p_fp8_model := p_fp8_model b;
     p_f16_model := p_f16_model b ++ [p];
     p_f32_model := p_f32_model b;
     scales := scales b; amaxes := amaxes b; scale_invs := scale_invs b;
     out_dtype := out_dtype b;
     has_fp16 := has_fp16 b || dtype_eqb dt float16;
     has_bf16 := has_bf16 b || dtype_eqb dt bfloat16 |}.

(** The appends of the [float32] branch. *)
Definition append_f32 (p g m v : TRef) (b : Buckets) : Buckets :=
  {| p_main_of_fp8_model := p_main_of_fp8_model b;
     p_main_of_f16_model := p_main_of_f16_model b;
     g_of_fp8_model := g_of_fp8_model b; g_of_f16_model := g_of_f16_model b;
     g_of_f32_model := g_of_f32_model b ++ [g];
     m_of_fp8_model := m_of_fp8_model b; m_of_f16_model := m_of_f16_model b;
     m_of_f32_model := m_of_f32_model b ++ [m];
     v_of_fp8_model := v_of_fp8_model b; v_of_f16_model := v_of_f16_model b;
     v_of_f32_model := v_of_f32_model b ++ [v];
     p_fp8_model := p_fp8_model b; p_f16_model := p_f16_model b;
     p_f32_model := p_f32_model b ++ [p];
     scales := scales b; amaxes := amaxes b; scale_invs := scale_invs b;
     out_dtype := out_dtype b; has_fp16 := has_fp16 b; has_bf16 := has_bf16 b |}.

(** [torch.zeros_like(p.data).float()]. *)
Definition zeros_like (d : list R) : list R := map (fun _ => 0%R) d.

Definition msg_sparse : string := "FusedAdam does not support sparse gradients.".
Definition msg_dtype : string :=
  "FusedAdam only support model weights in fp16/bf16 and fp8".
Definition msg_fp8_capturable : string :=
  "FusedAdam does not support FP8 model weights with capturable=True.".
Definition msg_mix : string :=
  "FusedAdam does not support a mix of float16 and bfloat16 model weights.".
Definition msg_shape : string :=
  "Master weights shape must match model weights shape".
Definition msg_fp8_meta : string := "FP8 meta data is not initialized.".

(** The block under [if len(state) == 0]: the local [master_param_idx]
    is threaded through and returned. *)
Definition init_state (p : nat) (master_param_idx : nat) : M nat :=
  let! w := get in
  match state w !! p with
  | Some _ => ret master_param_idx
  | None =>
      let z := zeros_like (data (heap w p)) in
      do! modify (set_state
                    (<[p := {| exp_avg := z; exp_avg_sq := z;
                               master_param := None |}]> (state w))) in
      if truthy (master_weights w) && negb (dtype_eqb (dtype (heap w p)) float32)
      then
        match master_at w master_param_idx with
        | None => raise IndexError
        | Some mp =>
            do! modify (fun w' =>
                  set_state (alter (set_master_param master_param_idx) p (state w')) w') in
            if bool_decide (mw_shape mp = shape (heap w p))
            then ret (S master_param_idx)
            else raise (AssertionError msg_shape)
        end
      else ret master_param_idx
  end.

(** [state.get("master_param", None)], as the list entry it refers to. *)
Definition p_master_of (w : FusedAdam) (p : nat) : option (nat * Master) :=
  match state w !! p with
  | Some s =>
      match master_param s with
      | Some i => option_map (fun m => (i, m)) (master_at w i)
      | None => None
      end
  | None => None
  end.

(** The gradient the loop selects for [p]: [p.grad], or the gradient of
    the master parameter when there is one. The reference tells which. *)
Definition p_grad_of (w : FusedAdam) (p : nat) : option (TRef * Grad) :=
  let own := option_map (fun g => (ParamGrad p, g)) (grad (heap w p)) in
  if truthy (master_weights w) then
    match p_master_of w p with
    | Some (i, m) =>
        match mw_grad m with
        | Some g => Some (MasterGrad i, g)
        | None => own
        end
    | None => own
    end
  else own.

(** [get_fp8_meta(p)]: references to the scale, amax and inverse scale. *)
Definition get_fp8_meta (p : nat) : M (TRef * TRef * TRef) :=
  let! w := get in
  let fp8_tensor := heap w p in
  match _fp8_meta fp8_tensor with
  | None => raise (RuntimeError msg_fp8_meta)
  | Some meta =>
      let t := meta_table (_fp8_meta_forward fp8_tensor) meta in
      let fp8_meta_index := _fp8_meta_index fp8_tensor in
      match scale t !! fp8_meta_index with
      | None => raise IndexError
      | Some _ =>
          match amax_history t with
          | [] => raise IndexError
          | row :: _ =>
              match row !! fp8_meta_index with
              | None => raise IndexError
              | Some _ => ret (Fp8Scale p, Fp8Amax p, Fp8ScaleInv p)
              end
          end
      end
  end.

(** [p_master.data] under [if self.master_weights]. *)
Definition p_main_ref (w : FusedAdam) (p : nat) : M (list TRef) :=
  if truthy (master_weights w) then
    match p_master_of w p with
    | Some (i, _) => ret [MasterData i]
    | None => raise AttributeError
    end
  else ret [].

(** The body of [for p in group["params"]]. *)
Definition classify (p : nat) (s : nat * Buckets) : M (nat * Buckets) :=
  let! master_param_idx := init_state p (fst s) in
  let! w := get in
  match p_grad_of w p with
  | None => ret (master_param_idx, snd s)
  | Some (gref, p_grad) =>
      if is_sparse p_grad then raise (RuntimeError msg_sparse) else
      let! b :=
        (if is_Float8Tensor (heap w p) then
           let! meta := get_fp8_meta p in
           let! pm := p_main_ref w p in
           ret (append_fp8 (_fp8_dtype (heap w p)) (ParamData p) meta pm
                  gref (ExpAvg p) (ExpAvgSq p) (snd s))
         else if dtype_eqb (dtype (heap w p)) float16
                 || dtype_eqb (dtype (heap w p)) bfloat16 then
           let! pm := p_main_ref w p in
           ret (append_f16 (dtype (heap w p)) (ParamData p) pm
                  gref (ExpAvg p) (ExpAvgSq p) (snd s))
         else if dtype_eqb (dtype (heap w p)) float32 then
           ret (append_f32 (ParamData p) gref (ExpAvg p) (ExpAvgSq p) (snd s))
         else raise (RuntimeError msg_dtype)) in
      if capturable w && (0 <? length (p_fp8_model b))%nat
      then raise (RuntimeError msg_fp8_capturable)
      else if has_fp16 b && has_bf16 b
      then raise (RuntimeError msg_mix)
      else ret (master_param_idx, b)
  end.

(* ================================================================== *)
(** ** [FusedAdam.step]: the step counter and the dispatch *)
(* ================================================================== *)

(** [(self._dummy_overflow_buf != 1).to(torch.int)]. *)
Definition overflow_increment (buf : Z) : Z := if buf =? 1 then 0 else 1.

(** The value [group["step"]] holds after lines 170 to 177: the counter
    is advanced when the key is present and created otherwise. Adding to
    a tensor, or adding a tensor, gives a 32-bit tensor. *)
Definition next_step (cap : bool) (buf : Z) (s : option StepVal) : StepVal :=
  match s with
  | Some (PyInt n) =>
      if cap then IntTensor (wrap32 (n + overflow_increment buf)) else PyInt (n + 1)
  | Some (IntTensor n) =>
      IntTensor (wrap32 (n + (if cap then overflow_increment buf else 1)))
  | None => if cap then IntTensor 1 else PyInt 1
  end.

Definition opt_arg (a : option PyArg) : list PyArg :=
  match a with Some x => [x] | None => [] end.

(** The closure [apply_multi_tensor_adam] of group [i]; [g] is the group
    as it stands after the counter update and [beta1], [beta2] and
    [bias_correction] are the locals it captures. *)
Definition apply_multi_tensor_adam (B : Backend) (i : nat) (g : group.t)
    (beta1 beta2 : R) (bias_correction : Z) (adam_func : AdamFunc)
    (tensor_lists : list (list TRef)) (inv_scale out_dtype : option PyArg) : M unit :=
  let inv_scale_arg := opt_arg inv_scale in
  let out_dtype_arg := opt_arg out_dtype in
  let! w := get in
  multi_tensor_applier B
    {| k_group := i; k_func := adam_func; k_noop := _dummy_overflow_buf w;
       k_lists := tensor_lists; k_lr := group.lr g;
       k_beta1 := beta1; k_beta2 := beta2; k_eps := group.eps g;
       k_step := default (PyInt 0) (group.step g);
       k_mode := adam_w_mode w; k_bias := bias_correction;
       k_wd := group.weight_decay g;
       k_extra := inv_scale_arg ++ out_dtype_arg |}.

Definition when (c : bool) (m : M unit) : M unit := if c then m else ret tt.

Definition nonempty {A} (l : list A) : bool := (0 <? length l)%nat.

(** Lines 299 to 390: the overflow query and the launches, one per
    non-empty bucket that the mode has an entry point for. *)
Definition dispatch (B : Backend) (grad_scaler : option GradScaler) (i : nat)
    (g : group.t) (beta1 beta2 : R) (bias_correction : Z) (dev : nat)
    (b : Buckets) : M unit :=
  let run := apply_multi_tensor_adam B i g beta1 beta2 bias_correction in
  let f16 := [g_of_f16_model b; p_f16_model b; m_of_f16_model b; v_of_f16_model b] in
  let f32 := [g_of_f32_model b; p_f32_model b; m_of_f32_model b; v_of_f32_model b] in
  let! w := get in
  if capturable w then
    let found_inf := match grad_scaler with
                     | Some s => _check_inf_per_device s dev
                     | None => 0
                     end in
    do! modify (set_overflow_buf found_inf) in
    let inv_scale := match grad_scaler with
                     | Some s => (/ _get_scale_async s)%R
                     | None => 1%R
                     end in
    if truthy (master_weights w) then
      do! when (nonempty (p_f16_model b))
            (run multi_tensor_adam_capturable_master
               (f16 ++ [p_main_of_f16_model b]) (Some (ArgScalar inv_scale)) None) in
      when (nonempty (p_f32_model b))
        (run multi_tensor_adam_capturable f32 (Some (ArgScalar inv_scale)) None)
    else
      do! when (nonempty (p_f16_model b))
            (run multi_tensor_adam_capturable f16 (Some (ArgScalar inv_scale)) None) in
      when (nonempty (p_f32_model b))
        (run multi_tensor_adam_capturable f32 (Some (ArgScalar inv_scale)) None)
  else if truthy (master_weights w) then
    do! when (nonempty (p_f16_model b))
          (run multi_tensor_adam (f16 ++ [p_main_of_f16_model b]) None None) in
    do! when (nonempty (p_fp8_model b))
          (run multi_tensor_adam_fp8
             [g_of_fp8_model b; p_fp8_model b; m_of_fp8_model b; v_of_fp8_model b;
              p_main_of_fp8_model b; scales b; amaxes b; scale_invs b]
             (Some (ArgDType (out_dtype b))) None) in
    when (nonempty (p_f32_model b)) (run multi_tensor_adam f32 None None)
  else
    do! when (nonempty (p_f16_model b)) (run multi_tensor_adam f16 None None) in
    when (nonempty (p_f32_model b)) (run multi_tensor_adam f32 None None).

(** The body of [for group in self.param_groups], for the group at
    position [i]; the local [master_param_idx] is threaded through. *)
Definition step_group (B : Backend) (grad_scaler : option GradScaler) (i : nat)
    (master_param_idx : nat) : M nat :=
  let! w := get in
  match param_groups w !! i with
  | None => ret master_param_idx
  | Some g =>
      match group.params g with
      | [] => ret master_param_idx
      | p0 :: _ =>
          let dev := device (heap w p0) in
          let bias_correction := if group.bias_correction g then 1 else 0 in
          let beta1 := fst (group.betas g) in
          let beta2 := snd (group.betas g) in
          let g' := group.set_step
                      (next_step (capturable w) (_dummy_overflow_buf w) (group.step g)) g in
          do! modify (fun w' => set_param_groups (<[i := g']> (param_groups w')) w') in
          let! s := for_each classify (group.params g) (master_param_idx, empty_buckets) in
          do! dispatch B grad_scaler i g' beta1 beta2 bias_correction dev (snd s) in
          ret (fst s)
      end
  end.

(** [FusedAdam.step(closure, grad_scaler)]. The closure is any
    computation on the object store that returns the loss. *)
Definition step (B : Backend) (closure : option (M R))
    (grad_scaler : option GradScaler) : M (option R) :=
  let! loss := match closure with
               | Some c => let! l := c in ret (Some l)
               | None => ret None
               end in
  let! w := get in
  let! _ := for_each (step_group B grad_scaler)
              (seq 0 (length (param_groups w))) 0%nat in
  ret loss.

(** [FusedAdam.zero_grad] with [set_grad_none=True]. *)
Definition set_grad (g : option Grad) (p : Param) : Param :=
  {| dtype := dtype p; is_Float8Tensor := is_Float8Tensor p; shape := shape p;
     data := data p; grad := g; device := device p; _fp8_meta := _fp8_meta p;
     _fp8_meta_forward := _fp8_meta_forward p;
     _fp8_meta_index := _fp8_meta_index p; _scale_inv := _scale_inv p;
     _fp8_dtype := _fp8_dtype p |}.

Definition zero_grad : M unit :=
  let! w := get in
  modify (fun w' =>
    fold_left (fun acc p => upd_heap p (set_grad None) acc)
      (concat (map group.params (param_groups w))) w').

(** A backend whose casts are exact, for running the model. *)
Definition exact_backend : Backend :=
  {| cast_to := fun _ x => x;
     fp8_requantize := fun _ s a i p => (p, s, a, i) |}.

(* ================================================================== *)
(** ** Predicates and concrete optimizers used in the statements *)
(* ================================================================== *)

(** The outcome of the checks of [get_fp8_meta] on a parameter. *)
Definition fp8_meta_status (p : Param) : option Exn :=
  match _fp8_meta p with
  | None => Some (RuntimeError msg_fp8_meta)
  | Some meta =>
      let t := meta_table (_fp8_meta_forward p) meta in
      match scale t !! _fp8_meta_index p with
      | None => Some IndexError
      | Some _ =>
          match amax_history t with
          | [] => Some IndexError
          | row :: _ =>
              match row !! _fp8_meta_index p with
              | None => Some IndexError
              | Some _ => None
              end
          end
      end
  end.

(** What no kernel changes of a parameter object. *)
Record same_static (p p' : Param) : Prop := {
  ss_dtype : dtype p' = dtype p;
  ss_fp8 : is_Float8Tensor p' = is_Float8Tensor p;
  ss_shape : shape p' = shape p;
  ss_grad : grad p' = grad p;
  ss_device : device p' = device p;
  ss_fp8_dtype : _fp8_dtype p' = _fp8_dtype p;
  ss_meta : fp8_meta_status p' = fp8_meta_status p
}.

Definition same_master (m m' : Master) : Prop :=
  mw_shape m' = mw_shape m ∧ mw_grad m' = mw_grad m.

Definition same_masters (a b : option (list Master)) : Prop :=
  match a, b with
  | Some l, Some l' => Forall2 same_master l l'
  | None, None => True
  | _, _ => False
  end.

(** What a kernel launch leaves alone: everything but tensor contents. *)
Record tensors_only (w w' : FusedAdam) : Prop := {
  to_groups : param_groups w' = param_groups w;
  to_cap : capturable w' = capturable w;
  to_mode : adam_w_mode w' = adam_w_mode w;
  to_buf : _dummy_overflow_buf w' = _dummy_overflow_buf w;
  to_trace : trace w' = trace w;
  to_masters : same_masters (master_weights w) (master_weights w');
  to_heap : ∀ id, same_static (heap w id) (heap w' id);
  to_state : ∀ id, option_Forall2 (λ s s', master_param s' = master_param s)
                     (state w !! id) (state w' !! id)
}.

(** The parameter object, or the state entry, a reference writes to. *)
Definition ref_param (r : TRef) : option nat :=
  match r with
  | ParamData id | Fp8Scale id | Fp8Amax id | Fp8ScaleInv id => Some id
  | _ => None
  end.

Definition ref_state (r : TRef) : option nat :=
  match r with
  | ExpAvg id | ExpAvgSq id => Some id
  | _ => None
  end.

Definition ref_master (r : TRef) : option nat :=
  match r with
  | MasterData i => Some i
  | _ => None
  end.

(** The dispatch selection table: the entry point and the batch lists of
    the launches [dispatch] can make for the buckets [b], by mode. *)
Inductive launches (b : Buckets) : bool → bool → AdamFunc → list (list TRef) → Prop :=
| launch_cap_master_f16 :
    launches b true true multi_tensor_adam_capturable_master
      [g_of_f16_model b; p_f16_model b; m_of_f16_model b; v_of_f16_model b;
       p_main_of_f16_model b]
| launch_cap_f16 :
    launches b true false multi_tensor_adam_capturable
      [g_of_f16_model b; p_f16_model b; m_of_f16_model b; v_of_f16_model b]
| launch_cap_f32 mw :
    launches b true mw multi_tensor_adam_capturable
      [g_of_f32_model b; p_f32_model b; m_of_f32_model b; v_of_f32_model b]
| launch_master_f16 :
    launches b false true multi_tensor_adam
      [g_of_f16_model b; p_f16_model b; m_of_f16_model b; v_of_f16_model b;
       p_main_of_f16_model b]
| launch_master_fp8 :
    launches b false true multi_tensor_adam_fp8
      [g_of_fp8_model b; p_fp8_model b; m_of_fp8_model b; v_of_fp8_model b;
       p_main_of_fp8_model b; scales b; amaxes b; scale_invs b]
| launch_f16 :
    launches b false false multi_tensor_adam
      [g_of_f16_model b; p_f16_model b; m_of_f16_model b; v_of_f16_model b]
| launch_f32 mw :
    launches b false mw multi_tensor_adam
      [g_of_f32_model b; p_f32_model b; m_of_f32_model b; v_of_f32_model b].

(** The overflow flag the capturable branch queries for a device. *)
Definition found_inf_of (grad_scaler : option GradScaler) (dev : nat) : Z :=
  match grad_scaler with
  | Some s => _check_inf_per_device s dev
  | None => 0
  end.

Definition fresh_state (w : FusedAdam) (p : nat) (mp : option nat) : PState :=
  {| exp_avg := zeros_like (data (heap w p));
     exp_avg_sq := zeros_like (data (heap w p));
     master_param := mp |}.

Definition wants_master (w : FusedAdam) (p : nat) : bool :=
  truthy (master_weights w) && negb (dtype_eqb (dtype (heap w p)) float32).

(** The outcome of [p_master.data] under [if self.master_weights]. *)
Definition main_ref (w : FusedAdam) (p : nat) : Exn + list TRef :=
  if truthy (master_weights w) then
    match p_master_of w p with
    | Some (i, _) => inr [MasterData i]
    | None => inl AttributeError
    end
  else inr [].

(** The classification of [p] once its state exists, as a function of
    the object store: the exception raised, or the buckets after it. *)
Definition judge (w : FusedAdam) (p : nat) (b : Buckets) : Exn + Buckets :=
  match p_grad_of w p with
  | None => inr b
  | Some (gref, g) =>
      if is_sparse g then inl (RuntimeError msg_sparse) else
      match
        (if is_Float8Tensor (heap w p) then
           match fp8_meta_status (heap w p) with
           | Some e => inl e
           | None =>
               match main_ref w p with
               | inl e => inl e
               | inr pm =>
                   inr (append_fp8 (_fp8_dtype (heap w p)) (ParamData p)
                          (Fp8Scale p, Fp8Amax p, Fp8ScaleInv p) pm
                          gref (ExpAvg p) (ExpAvgSq p) b)
               end
           end
         else if dtype_eqb (dtype (heap w p)) float16
                 || dtype_eqb (dtype (heap w p)) bfloat16 then
           match main_ref w p with
           | inl e => inl e
           | inr pm =>
               inr (append_f16 (dtype (heap w p)) (ParamData p) pm
                      gref (ExpAvg p) (ExpAvgSq p) b)
           end
         else if dtype_eqb (dtype (heap w p)) float32 then
           inr (append_f32 (ParamData p) gref (ExpAvg p) (ExpAvgSq p) b)
         else inl (RuntimeError msg_dtype))
      with
      | inl e => inl e
      | inr b' =>
          if capturable w && nonempty (p_fp8_model b')
          then inl (RuntimeError msg_fp8_capturable)
          else if has_fp16 b' && has_bf16 b'
          then inl (RuntimeError msg_mix)
          else inr b'
      end
  end.

(** The parameter whose object or state entry a reference writes to. *)
Definition ref_owner (r : TRef) : option nat :=
  match ref_param r with
  | Some q => Some q
  | None => ref_state r
  end.

(** All references the 16- and 32-bit buckets hold, and all references
    the buckets hold. *)
Definition soft_refs (b : Buckets) : list TRef :=
  p_main_of_f16_model b ++ g_of_f16_model b ++ g_of_f32_model b ++
  m_of_f16_model b ++ m_of_f32_model b ++ v_of_f16_model b ++ v_of_f32_model b ++
  p_f16_model b ++ p_f32_model b.

Definition fp8_refs (b : Buckets) : list TRef :=
  p_main_of_fp8_model b ++ g_of_fp8_model b ++ m_of_fp8_model b ++
  v_of_fp8_model b ++ p_fp8_model b ++ scales b ++ amaxes b ++ scale_invs b.

Definition refs (b : Buckets) : list TRef := fp8_refs b ++ soft_refs b.

(** How one classification changes the buckets. *)
Inductive appended (w : FusedAdam) (p : nat) (b : Buckets) : Buckets → Prop :=
| app_none : p_grad_of w p = None → appended w p b b
| app_fp8 gref g pm :
    p_grad_of w p = Some (gref, g) → is_sparse g = false →
    is_Float8Tensor (heap w p) = true →
    fp8_meta_status (heap w p) = None →
    main_ref w p = inr pm →
    capturable w = false →
    appended w p b
      (append_fp8 (_fp8_dtype (heap w p)) (ParamData p)
         (Fp8Scale p, Fp8Amax p, Fp8ScaleInv p) pm gref (ExpAvg p) (ExpAvgSq p) b)
| app_f16 gref g pm :
    p_grad_of w p = Some (gref, g) → is_sparse g = false →
    is_Float8Tensor (heap w p) = false →
    dtype (heap w p) = float16 ∨ dtype (heap w p) = bfloat16 →
    main_ref w p = inr pm →
    appended w p b
      (append_f16 (dtype (heap w p)) (ParamData p) pm gref (ExpAvg p) (ExpAvgSq p) b)
| app_f32 gref g :
    p_grad_of w p = Some (gref, g) → is_sparse g = false →
    is_Float8Tensor (heap w p) = false →
    dtype (heap w p) = float32 →
    appended w p b (append_f32 (ParamData p) gref (ExpAvg p) (ExpAvgSq p) b).

(** The record of a launch made for group [i] from the store [w]. *)
Definition launched (i : nat) (g : group.t) (w : FusedAdam) (c : KernelCall) : Prop :=
  k_group c = i ∧ k_noop c = _dummy_overflow_buf w ∧
  k_step c = default (PyInt 0) (group.step g) ∧ k_mode c = adam_w_mode w.

Definition same_group (g g' : group.t) : Prop :=
  group.params g' = group.params g ∧ group.lr g' = group.lr g ∧
  group.bias_correction g' = group.bias_correction g ∧
  group.betas g' = group.betas g ∧ group.eps g' = group.eps g ∧
  group.weight_decay g' = group.weight_decay g.

(** What a call of [step] (without closure) can change: tensor
    contents, step counters, the overflow buffer, and new state entries
    and trace records; never the rest. *)
Record grows (w w' : FusedAdam) : Prop := {
  gr_cap : capturable w' = capturable w;
  gr_mode : adam_w_mode w' = adam_w_mode w;
  gr_masters : same_masters (master_weights w) (master_weights w');
  gr_heap : ∀ id, same_static (heap w id) (heap w' id);
  gr_groups : Forall2 same_group (param_groups w) (param_groups w');
  gr_state : ∀ q s, state w !! q = Some s →
               ∃ s', state w' !! q = Some s' ∧ master_param s' = master_param s;
  gr_trace : ∃ new, trace w' = trace w ++ new
}.

(** What lines 162 to 177 make of a group, given the mode and the
    contents of the overflow buffer. *)
Definition bump (cap : bool) (buf : Z) (g : group.t) : group.t :=
  match group.params g with
  | [] => g
  | _ :: _ => group.set_step (next_step cap buf (group.step g)) g
  end.



Definition mk_param (dt : torch_dtype) (fp8 : bool) (sh : list nat) (d : list R)
    (g : option Grad) : Param :=
  {| dtype := dt; is_Float8Tensor := fp8; shape := sh; data := d; grad := g;
     device := 0%nat; _fp8_meta := None; _fp8_meta_forward := true;
     _fp8_meta_index := 0%nat; _scale_inv := 1%R; _fp8_dtype := kFloat8E4M3 |}.

Definition dense (d : list R) : option Grad := Some {| g_data := d; is_sparse := false |}.

Definition mk_group (ps : list nat) (s : option StepVal) : group.t :=
  {| group.params := ps; group.lr := 1%R; group.bias_correction := true;
     group.betas := (0%R, 0%R); group.eps := 1%R; group.weight_decay := 0%R;
     group.step := s |}.

Definition mk_optimizer (gs : list group.t) (cap : bool) (mw : option (list Master))
    (buf : Z) (h : nat → Param) : FusedAdam :=
  {| param_groups := gs; state := ∅; capturable := cap; master_weights := mw;
     adam_w_mode := 1; _dummy_overflow_buf := buf; heap := h; trace := [] |}.


(** One 32-bit parameter without a gradient, in a group at step 5. *)
Definition idle_optimizer : FusedAdam :=
  mk_optimizer [mk_group [0%nat] (Some (PyInt 5))] false None 0
    (λ _, mk_param float32 false [1%nat] [1%R] None).

(** A capturable optimizer whose group is at step 1. *)
Definition zero_state : PState :=
  {| exp_avg := [0%R]; exp_avg_sq := [0%R]; master_param := None |}.


(** The scenario of section 8, item 7: one 32-bit parameter 1.0 with
    gradient 0.1, no state yet, default hyperparameters, AdamW mode. *)
Definition scenario_group : group.t :=
  {| group.params := [0%nat]; group.lr := (1 / 1000)%R;
     group.bias_correction := true;
     group.betas := ((9 / 10)%R, (999 / 1000)%R);
     group.eps := (1 / 100000000)%R; group.weight_decay := 0%R;
     group.step := None |}.

Definition scenario_optimizer : FusedAdam :=
  mk_optimizer [scenario_group] false None 0
    (λ _, mk_param float32 false [1%nat] [1%R] (dense [(1 / 10)%R])).

Definition scenario_call : KernelCall :=
  {| k_group := 0; k_func := multi_tensor_adam; k_noop := 0;
     k_lists := [[ParamGrad 0]; [ParamData 0]; [ExpAvg 0]; [ExpAvgSq 0]];
     k_lr := (1 / 1000)%R; k_beta1 := (9 / 10)%R; k_beta2 := (999 / 1000)%R;
     k_eps := (1 / 100000000)%R; k_step := PyInt 1; k_mode := 1; k_bias := 1;
     k_wd := 0%R; k_extra := [] |}.


(** What the classification loop can change: new state entries, with
    zero moments, for parameters that had none. *)
Definition state_grows (w w' : FusedAdam) : Prop :=
  w' = set_state (state w') w ∧
  ∀ q, state w' !! q = state w !! q ∨
       (state w !! q = None ∧
        ∃ mp, state w' !! q = Some (fresh_state w q mp) ∧
              (wants_master w q = false → mp = None)).

(** What [step] maintains, relative to the store [w] it was entered
    with, for a [Float8Tensor] parameter [p] when there are no master
    weights and the mode is not capturable. *)
Definition dropped (w : FusedAdam) (p : nat) (w' : FusedAdam) : Prop :=
  grows w w' ∧
  heap w' p = heap w p ∧
  (state w' !! p = state w !! p ∨
   (state w !! p = None ∧ state w' !! p = Some (fresh_state w p None))) ∧
  ∃ new, trace w' = trace w ++ new ∧
    Forall (λ c, k_func c = multi_tensor_adam ∧
                 ∀ r, r ∈ concat (k_lists c) → ref_owner r ≠ Some p) new.

(** The loop finds no gradient for [p]: [p.grad] is [None], and so is
    the gradient of its master parameter; while [p] has no state yet and
    would be given a master parameter, no master weight has one. *)
Definition resolved_grad_absent (w : FusedAdam) (p : nat) : Prop :=
  grad (heap w p) = None ∧
  (truthy (master_weights w) = true →
     match state w !! p with
     | Some s =>
         ∀ i m, master_param s = Some i → master_at w i = Some m → mw_grad m = None
     | None =>
         dtype (heap w p) ≠ float32 →
         ∀ i m, master_at w i = Some m → mw_grad m = None
     end).

(** The parameter [p] holds [d0], has no gradient, and its moments, if
    it has any, are zero. *)
Definition quiet (p : nat) (d0 : list R) (w : FusedAdam) : Prop :=
  resolved_grad_absent w p ∧
  data (heap w p) = d0 ∧
  ∀ s, state w !! p = Some s →
    exp_avg s = zeros_like d0 ∧ exp_avg_sq s = zeros_like d0.

(** What happens between two update calls is left open, except that it
    does not write the data of [p] or its state entry. *)
Definition between (p : nat) (w w' : FusedAdam) : Prop :=
  data (heap w' p) = data (heap w p) ∧ state w' !! p = state w !! p.

(** The stores reached from [w] by update calls in each of which [p]
    has no gradient, with anything in between that leaves [p] alone. *)
Inductive quiet_run (B : Backend) (p : nat) (w : FusedAdam) : FusedAdam → Prop :=
| quiet_start : quiet_run B p w w
| quiet_call w1 w2 gs :
    quiet_run B p w w1 → between p w1 w2 → resolved_grad_absent w2 p →
    quiet_run B p w (res_world (step B None gs w2)).

(** The loop finds a gradient for [q]. *)
Definition is_pending (w : FusedAdam) (q : nat) : bool :=
  match p_grad_of w q with Some _ => true | None => false end.

Definition pending_f16 (w : FusedAdam) (q : nat) : bool :=
  is_pending w q && negb (is_Float8Tensor (heap w q))
  && dtype_eqb (dtype (heap w q)) float16.

Definition pending_bf16 (w : FusedAdam) (q : nat) : bool :=
  is_pending w q && negb (is_Float8Tensor (heap w q))
  && dtype_eqb (dtype (heap w q)) bfloat16.

Definition pending_fp8 (w : FusedAdam) (q : nat) : bool :=
  is_pending w q && is_Float8Tensor (heap w q).

(** A group with a [float16] and a [bfloat16] member that both have a
    gradient, and a group with a [Float8Tensor] member that has one. *)
Definition mixes (w : FusedAdam) (g : group.t) : bool :=
  existsb (pending_f16 w) (group.params g) && existsb (pending_bf16 w) (group.params g).

Definition has_pending_fp8 (w : FusedAdam) (g : group.t) : bool :=
  existsb (pending_fp8 w) (group.params g).

(** The other guards of the classification pass for [q]: its gradient,
    if any, is dense; a [Float8Tensor] has its metadata; any other
    parameter has one of the three supported types. *)
Definition clean_param (w : FusedAdam) (q : nat) : bool :=
  match p_grad_of w q with
  | Some (_, g) => negb (is_sparse g)
  | None => true
  end
  && (if is_Float8Tensor (heap w q)
      then match fp8_meta_status (heap w q) with None => true | Some _ => false end
      else dtype_eqb (dtype (heap w q)) float16
           || dtype_eqb (dtype (heap w q)) bfloat16
           || dtype_eqb (dtype (heap w q)) float32).


(** Parameters in the order [step] encounters them, the ones that are
    not 32-bit, and the number of those among the first [j]. *)
Definition encounter_order (w : FusedAdam) : list nat :=
  concat (map group.params (param_groups w)).

Definition non_f32 (w : FusedAdam) (q : nat) : bool :=
  negb (dtype_eqb (dtype (heap w q)) float32).

Definition rank (w : FusedAdam) (j : nat) : nat :=
  length (List.filter (non_f32 w) (take j (encounter_order w))).

(** The state of the loops of a first call, entered with [w], after [n]
    parameters: the running index is the rank, each parameter
    classified so far has its state, with the master weight of its rank
    if it is not 32-bit, and the others have none. *)
Record slots (w : FusedAdam) (n k : nat) (w' : FusedAdam) : Prop := {
  sl_grows : grows w w';
  sl_k : k = rank w n;
  sl_done : ∀ j q, (j < n)%nat → encounter_order w !! j = Some q →
    ∃ s, state w' !! q = Some s ∧
      master_param s = (if non_f32 w q then Some (rank w j) else None) ∧
      (non_f32 w q = true →
         ∃ m, master_at w (rank w j) = Some m ∧ mw_shape m = shape (heap w q));
  sl_rest : ∀ j q, (n ≤ j)%nat → encounter_order w !! j = Some q → state w' !! q = None
}.

(** Every master parameter in the state is the one of the rank of its
    parameter. *)
Definition consistent (w w' : FusedAdam) : Prop :=
  ∀ j q s i, encounter_order w !! j = Some q → state w' !! q = Some s →
    master_param s = Some i → non_f32 w q = true ∧ i = rank w j.

Definition unit_meta : Fp8Meta :=
  {| scaling_fwd := {| scale := [1%R]; amax_history := [[0%R]] |};
     scaling_bwd := {| scale := [1%R]; amax_history := [[0%R]] |} |}.

(** A [Float8Tensor] with initialised metadata and a dense gradient. *)
Definition fp8_param : Param :=
  {| dtype := bfloat16; is_Float8Tensor := true; shape := [1%nat]; data := [1%R];
     grad := dense [1%R]; device := 0%nat; _fp8_meta := Some unit_meta;
     _fp8_meta_forward := true; _fp8_meta_index := 0%nat; _scale_inv := 1%R;
     _fp8_dtype := kFloat8E4M3 |}.

Definition fp8_optimizer (cap : bool) : FusedAdam :=
  mk_optimizer [mk_group [0%nat] None] cap None 0 (λ _, fp8_param).




Definition unit_master (sh : list nat) : Master :=
  {| mw_shape := sh; mw_data := [1%R]; mw_grad := None |}.

(** Parameters 0 and 2 are 16-bit, parameter 1 is 32-bit; two groups and
    two master weights. *)
Definition master_optimizer : FusedAdam :=
  mk_optimizer [mk_group [0%nat; 1%nat] None; mk_group [2%nat] None] false
    (Some [unit_master [1%nat]; unit_master [1%nat]]) 0
    (λ q, mk_param (match q with 1%nat => float32 | _ => bfloat16 end) false
            [1%nat] [1%R] (dense [1%R])).

(** A 16-bit parameter of shape [1] and a master weight of shape [2]. *)
Definition mismatched_optimizer : FusedAdam :=
  mk_optimizer [mk_group [0%nat] None] false (Some [unit_master [2%nat]]) 0
    (λ _, mk_param bfloat16 false [1%nat] [1%R] (dense [1%R])).

(** Two 16-bit parameters with one master weight each; the gradient of
    the first is sparse. *)
Definition sparse_first_optimizer : FusedAdam :=
  mk_optimizer [mk_group [0%nat; 1%nat] None] false
    (Some [unit_master [1%nat]; unit_master [1%nat]]) 0
    (λ q, mk_param bfloat16 false [1%nat] [1%R]
            (match q with
             | O => Some {| g_data := [1%R]; is_sparse := true |}
             | _ => dense [1%R]
             end)).

(** Parameter 0 has a gradient, parameter 1 has none. *)
Definition half_idle_optimizer : FusedAdam :=
  mk_optimizer [mk_group [0%nat; 1%nat] None] false None 0
    (λ q, mk_param float32 false [1%nat] [1%R]
            (match q with O => dense [1%R] | _ => None end)).

(** What a call of [step] changes when it launches no kernel: step
    counters, the overflow buffer, and new state entries with zero
    moments. *)
Definition idle (w w' : FusedAdam) : Prop :=
  heap w' = heap w ∧ master_weights w' = master_weights w ∧ trace w' = trace w ∧
  capturable w' = capturable w ∧
  Forall2 same_group (param_groups w) (param_groups w') ∧
  ∀ q, state w' !! q = state w !! q ∨
       (state w !! q = None ∧
        ∃ mp, state w' !! q = Some (fresh_state w q mp) ∧
              (wants_master w q = false → mp = None)).

(** An optimizer whose only group has no parameters. *)
Definition hollow_optimizer : FusedAdam :=
  mk_optimizer [mk_group [] (Some (PyInt 3))] false None 0
    (λ _, mk_param float32 false [1%nat] [1%R] (dense [1%R])).

(** Two 32-bit parameters with a gradient and a state, in one group. *)
Definition trained_optimizer : FusedAdam :=
  set_state {[ 0%nat := zero_state; 1%nat := zero_state ]}
    (mk_optimizer [mk_group [0%nat; 1%nat] (Some (PyInt 1))] false None 0
       (λ _, mk_param float32 false [1%nat] [1%R] (dense [1%R]))).



(** The error of the guards of the loop body that look at [q] alone,
    without master weights: a sparse gradient, the metadata of a
    [Float8Tensor], an unsupported type; none when the loop finds no
    gradient for [q]. *)
Definition own_error (w : FusedAdam) (q : nat) : option Exn :=
  match p_grad_of w q with
  | None => None
  | Some (_, g) =>
      if is_sparse g then Some (RuntimeError msg_sparse)
      else if is_Float8Tensor (heap w q) then fp8_meta_status (heap w q)
      else if dtype_eqb (dtype (heap w q)) float16
              || dtype_eqb (dtype (heap w q)) bfloat16
              || dtype_eqb (dtype (heap w q)) float32 then None
      else Some (RuntimeError msg_dtype)
  end.

Definition passes (w : FusedAdam) (q : nat) : bool :=
  match own_error w q with None => true | Some _ => false end.

(** A group every member of which passes its own guards, that does not
    mix the two 16-bit types and that, in capturable mode, has no
    [Float8Tensor] with a gradient. *)
Definition accepted_group (w : FusedAdam) (g : group.t) : bool :=
  forallb (passes w) (group.params g) && negb (mixes w g)
  && negb (capturable w && has_pending_fp8 w g).

Definition accepted (w : FusedAdam) : bool :=
  forallb (accepted_group w) (param_groups w).

(** A 32-bit parameter with a dense gradient, a parameter of an
    unsupported type with a gradient, and a parameter of an unsupported
    type without gradient. *)
Definition odd_params (q : nat) : Param :=
  match q with
  | O => mk_param float32 false [1%nat] [1%R] (dense [1%R])
  | 1%nat => mk_param float64 false [1%nat] [1%R] (dense [1%R])
  | _ => mk_param float64 false [1%nat] [1%R] None
  end.

Definition unsupported_optimizer : FusedAdam :=
  mk_optimizer [mk_group [0%nat; 1%nat] None] false None 0 odd_params.

Definition tolerated_optimizer : FusedAdam :=
  mk_optimizer [mk_group [0%nat; 2%nat] None] false None 0 odd_params.

(** The record [apply_multi_tensor_adam] passes to the applier, from
    the store [w] it is called in. *)
Definition mk_call (i : nat) (g : group.t) (beta1 beta2 : R) (bias_correction : Z)
    (w : FusedAdam) (f : AdamFunc) (lists : list (list TRef)) (extra : list PyArg)
  : KernelCall :=
  {| k_group := i; k_func := f; k_noop := _dummy_overflow_buf w; k_lists := lists;
     k_lr := group.lr g; k_beta1 := beta1; k_beta2 := beta2; k_eps := group.eps g;
     k_step := default (PyInt 0) (group.step g); k_mode := adam_w_mode w;
     k_bias := bias_correction; k_wd := group.weight_decay g; k_extra := extra |}.

(** The inverse scale of lines 311 to 318. *)
Definition unscale (grad_scaler : option GradScaler) : R :=
  match grad_scaler with
  | Some s => (/ _get_scale_async s)%R
  | None => 1%R
  end.

(** The launches [dispatch] makes for the buckets [b], by mode: the
    entry point, the batch lists and the trailing arguments, each under
    the condition that its bucket is not empty. *)
Inductive selected (gs : option GradScaler) (b : Buckets)
  : bool → bool → AdamFunc → list (list TRef) → list PyArg → Prop :=
| sel_cap_master_f16 :
    nonempty (p_f16_model b) = true →
    selected gs b true true multi_tensor_adam_capturable_master
      [g_of_f16_model b; p_f16_model b; m_of_f16_model b; v_of_f16_model b;
       p_main_of_f16_model b] [ArgScalar (unscale gs)]
| sel_cap_f16 :
    nonempty (p_f16_model b) = true →
    selected gs b true false multi_tensor_adam_capturable
      [g_of_f16_model b; p_f16_model b; m_of_f16_model b; v_of_f16_model b]
      [ArgScalar (unscale gs)]
| sel_cap_f32 mw :
    nonempty (p_f32_model b) = true →
    selected gs b true mw multi_tensor_adam_capturable
      [g_of_f32_model b; p_f32_model b; m_of_f32_model b; v_of_f32_model b]
      [ArgScalar (unscale gs)]
| sel_master_f16 :
    nonempty (p_f16_model b) = true →
    selected gs b false true multi_tensor_adam
      [g_of_f16_model b; p_f16_model b; m_of_f16_model b; v_of_f16_model b;
       p_main_of_f16_model b] []
| sel_master_fp8 :
    nonempty (p_fp8_model b) = true →
    selected gs b false true multi_tensor_adam_fp8
      [g_of_fp8_model b; p_fp8_model b; m_of_fp8_model b; v_of_fp8_model b;
       p_main_of_fp8_model b; scales b; amaxes b; scale_invs b]
      [ArgDType (out_dtype b)]
| sel_f16 :
    nonempty (p_f16_model b) = true →
    selected gs b false false multi_tensor_adam
      [g_of_f16_model b; p_f16_model b; m_of_f16_model b; v_of_f16_model b] []
| sel_f32 mw :
    nonempty (p_f32_model b) = true →
    selected gs b false mw multi_tensor_adam
      [g_of_f32_model b; p_f32_model b; m_of_f32_model b; v_of_f32_model b] [].

(** The gradient, and the master weight, the loop selects for [q], as
    references: the parameter's own gradient or the gradient of its
    master parameter, and the data of its master parameter. *)
Definition grad_ref (w : FusedAdam) (q : nat) (r : TRef) : Prop :=
  r = ParamGrad q ∨
  ∃ idx s, r = MasterGrad idx ∧ state w !! q = Some s ∧ master_param s = Some idx.

Definition master_ref (w : FusedAdam) (q : nat) (r : TRef) : Prop :=
  ∃ idx s, r = MasterData idx ∧ state w !! q = Some s ∧ master_param s = Some idx.

(** The lists of one bucket hold, position by position, the tensors of
    the parameters [ids]; the master list is filled exactly when there
    are master weights. *)
Record aligned_bucket (w : FusedAdam) (mw : bool) (ids : list nat)
    (g p m v pm : list TRef) : Prop := {
  ab_p : p = ParamData <$> ids;
  ab_m : m = ExpAvg <$> ids;
  ab_v : v = ExpAvgSq <$> ids;
  ab_g : Forall2 (grad_ref w) ids g;
  ab_pm : if mw then Forall2 (master_ref w) ids pm else pm = []
}.

Record aligned (w : FusedAdam) (mw : bool) (b : Buckets) (i8 i16 i32 : list nat)
  : Prop := {
  al_8 : aligned_bucket w mw i8 (g_of_fp8_model b) (p_fp8_model b) (m_of_fp8_model b)
           (v_of_fp8_model b) (p_main_of_fp8_model b);
  al_scales : scales b = Fp8Scale <$> i8;
  al_amaxes : amaxes b = Fp8Amax <$> i8;
  al_scale_invs : scale_invs b = Fp8ScaleInv <$> i8;
  al_16 : aligned_bucket w mw i16 (g_of_f16_model b) (p_f16_model b) (m_of_f16_model b)
            (v_of_f16_model b) (p_main_of_f16_model b);
  al_32 : aligned_bucket w false i32 (g_of_f32_model b) (p_f32_model b) (m_of_f32_model b)
            (v_of_f32_model b) [];
  al_out_dtype :
    out_dtype b = from_option (λ q, _fp8_dtype (heap w q)) kFloat32 (last i8)
}.

(** The parameters of the three buckets are members of [members], and
    each bucket holds one class of parameters. *)
Record sorted_into (w : FusedAdam) (members i8 i16 i32 : list nat) : Prop := {
  si_members : ∀ q, q ∈ i8 ++ i16 ++ i32 → q ∈ members;
  si_8 : ∀ q, q ∈ i8 → is_Float8Tensor (heap w q) = true;
  si_16 : ∀ q, q ∈ i16 →
    is_Float8Tensor (heap w q) = false ∧
    (dtype (heap w q) = float16 ∨ dtype (heap w q) = bfloat16);
  si_32 : ∀ q, q ∈ i32 →
    is_Float8Tensor (heap w q) = false ∧ dtype (heap w q) = float32
}.

(** What is known of a launch [c] made while its group was processed,
    between the stores [w0] and [w3]: the group is not empty and gets
    its counter advanced, the record carries the group's
    hyperparameters, the advanced counter, the mode and the contents of
    the overflow buffer, and the entry point, lists and trailing
    arguments are those of the selection table for buckets that are
    aligned and sorted by class. *)
Definition launch_of (gs : option GradScaler) (w0 w3 : FusedAdam) (c : KernelCall)
  : Prop :=
  ∃ g p0 rest b i8 i16 i32,
    param_groups w0 !! k_group c = Some g ∧ group.params g = p0 :: rest ∧
    param_groups w3 !! k_group c
      = Some (bump (capturable w0) (_dummy_overflow_buf w0) g) ∧
    c = mk_call (k_group c) (bump (capturable w0) (_dummy_overflow_buf w0) g)
          (fst (group.betas g)) (snd (group.betas g))
          (if group.bias_correction g then 1 else 0)
          (set_overflow_buf
             (if capturable w0 then found_inf_of gs (device (heap w0 p0))
              else _dummy_overflow_buf w0) w0)
          (k_func c) (k_lists c) (k_extra c) ∧
    selected gs b (capturable w0) (truthy (master_weights w0))
      (k_func c) (k_lists c) (k_extra c) ∧
    aligned w3 (truthy (master_weights w0)) b i8 i16 i32 ∧
    sorted_into w0 (group.params g) i8 i16 i32 ∧
    (∀ q q', q ∈ i16 → q' ∈ i16 → dtype (heap w0 q) = dtype (heap w0 q')).

(** What is known of a launch [c] recorded during a call of [step]
    entered with [w] and left with [w']: it was made while its group was
    processed, and no other iteration of the loop over groups touches
    the group. *)
Definition launched_in (gs : option GradScaler) (w w' : FusedAdam) (c : KernelCall)
  : Prop :=
  ∃ wa wb, grows w wa ∧ grows wb w' ∧ launch_of gs wa wb c ∧
    param_groups wa !! k_group c = param_groups w !! k_group c ∧
    param_groups w' !! k_group c = param_groups wb !! k_group c ∧
    (capturable w = false → _dummy_overflow_buf wa = _dummy_overflow_buf w).

(** A [Float8Tensor] whose nominal type is [float32], with initialised
    metadata and a dense gradient, and one master weight. *)
Definition fp8_float32_param : Param :=
  {| dtype := float32; is_Float8Tensor := true; shape := [1%nat]; data := [1%R];
     grad := dense [1%R]; device := 0%nat; _fp8_meta := Some unit_meta;
     _fp8_meta_forward := true; _fp8_meta_index := 0%nat; _scale_inv := 1%R;
     _fp8_dtype := kFloat8E4M3 |}.

Definition fp8_float32_optimizer : FusedAdam :=
  mk_optimizer [mk_group [0%nat] None] false (Some [unit_master [1%nat]]) 0
    (λ _, fp8_float32_param).

(** The launch for one bucket, made when the bucket is not empty. *)
Definition bucket_call (i : nat) (g : group.t) (beta1 beta2 : R) (bias_correction : Z)
    (w : FusedAdam) (cond : bool) (f : AdamFunc) (lists : list (list TRef))
    (extra : list PyArg) : list KernelCall :=
  if cond then [mk_call i g beta1 beta2 bias_correction w f lists extra] else [].

(** The launches of lines 299 to 390 for the buckets [b], in the order
    they are made. *)
Definition dispatch_calls (gs : option GradScaler) (i : nat) (g : group.t)
    (beta1 beta2 : R) (bias_correction : Z) (dev : nat) (b : Buckets) (w : FusedAdam)
  : list KernelCall :=
  let w0 := if capturable w then set_overflow_buf (found_inf_of gs dev) w else w in
  let call := bucket_call i g beta1 beta2 bias_correction w0 in
  let f16 := [g_of_f16_model b; p_f16_model b; m_of_f16_model b; v_of_f16_model b] in
  let f32 := [g_of_f32_model b; p_f32_model b; m_of_f32_model b; v_of_f32_model b] in
  if capturable w then
    if truthy (master_weights w) then
      call (nonempty (p_f16_model b)) multi_tensor_adam_capturable_master
        (f16 ++ [p_main_of_f16_model b]) [ArgScalar (unscale gs)] ++
      call (nonempty (p_f32_model b)) multi_tensor_adam_capturable f32
        [ArgScalar (unscale gs)]
    else
      call (nonempty (p_f16_model b)) multi_tensor_adam_capturable f16
        [ArgScalar (unscale gs)] ++
      call (nonempty (p_f32_model b)) multi_tensor_adam_capturable f32
        [ArgScalar (unscale gs)]
  else if truthy (master_weights w) then
    call (nonempty (p_f16_model b)) multi_tensor_adam (f16 ++ [p_main_of_f16_model b]) [] ++
    call (nonempty (p_fp8_model b)) multi_tensor_adam_fp8
      [g_of_fp8_model b; p_fp8_model b; m_of_fp8_model b; v_of_fp8_model b;
       p_main_of_fp8_model b; scales b; amaxes b; scale_invs b]
      [ArgDType (out_dtype b)] ++
    call (nonempty (p_f32_model b)) multi_tensor_adam f32 []
  else
    call (nonempty (p_f16_model b)) multi_tensor_adam f16 [] ++
    call (nonempty (p_f32_model b)) multi_tensor_adam f32 [].

(** The number of entry points the mode can use for one group: three
    with master weights outside capturable mode, two otherwise. *)
Definition launch_bound (w : FusedAdam) : nat :=
  if negb (capturable w) && truthy (master_weights w) then 3%nat else 2%nat.

(** The parameter [p] is the object [h], the loop finds no gradient for
    it, and its state entry is [o], or was created with zero moments
    since. *)
Definition still (p : nat) (h : Param) (o : option PState) (w : FusedAdam) : Prop :=
  resolved_grad_absent w p ∧ heap w p = h ∧
  (state w !! p = o ∨
   (o = None ∧ ∃ mp, state w !! p =
      Some {| exp_avg := zeros_like (data h); exp_avg_sq := zeros_like (data h);
              master_param := mp |})).

(** A parameter with moments from earlier calls and no gradient, next
    to one with a gradient. *)
Definition warm_optimizer : FusedAdam :=
  set_state {[ 1%nat := {| exp_avg := [3%R]; exp_avg_sq := [4%R]; master_param := None |} ]}
    (mk_optimizer [mk_group [0%nat; 1%nat] (Some (PyInt 7))] false None 0
       (λ q, mk_param float32 false [1%nat] [1%R]
               (match q with O => dense [1%R] | _ => None end))).

(** The list of parameter tensors of a launch: the second of its
    lists. *)
Definition param_list (c : KernelCall) : list TRef :=
  default [] (k_lists c !! 1%nat).

(** The table [get_fp8_meta] selects for a tensor, and the entry of its
    index in the scale and in the first row of the amax history. *)
Definition selected_table (p : Param) : option Fp8MetaTensors :=
  meta_table (_fp8_meta_forward p) <$> _fp8_meta p.

Definition scale_entry (p : Param) : option R :=
  selected_table p ≫= λ t, scale t !! _fp8_meta_index p.

Definition amax_entry (p : Param) : option R :=
  selected_table p ≫= λ t, amax_history t !! 0%nat ≫= λ row, row !! _fp8_meta_index p.

(** Two groups; the only parameter of the second has a sparse
    gradient. *)
Definition sparse_second_optimizer : FusedAdam :=
  mk_optimizer [mk_group [0%nat] (Some (PyInt 4)); mk_group [1%nat] (Some (PyInt 4));
                mk_group [2%nat] (Some (PyInt 4))] false None 0
    (λ q, mk_param float32 false [1%nat] [1%R]
            (match q with
             | 1%nat => Some {| g_data := [1%R]; is_sparse := true |}
             | _ => dense [1%R]
             end)).

(* ================================================================== *)
(** ** Lemmas and theorems *)
(* ================================================================== *)

Lemma same_static_refl p : same_static p p.
Proof. by constructor. Qed.

Lemma same_static_trans p q r : same_static p q → same_static q r → same_static p r.
Proof. intros [] []; constructor; congruence. Qed.

Lemma same_masters_refl a : same_masters a a.
Proof. destruct a as [l|]; simpl; [|done]. apply Forall2_same_length_lookup; split; [done|].
  intros i x y ? ?; simplify_eq. by split. Qed.

Lemma same_masters_trans a b c : same_masters a b → same_masters b c → same_masters a c.
Proof.
  destruct a, b, c; simpl; try done.
  intros H1 H2. eapply Forall2_trans; [|exact H1|exact H2].
  intros x y z [] []; split; congruence.
Qed.

Lemma state_rel_refl (o : option PState) :
  option_Forall2 (λ s s', master_param s' = master_param s) o o.
Proof. destruct o; by constructor. Qed.

Ltac frame_refl :=
  first [ done
        | apply same_masters_refl
        | intros ?; apply same_static_refl
        | intros ?; apply state_rel_refl ].

Lemma tensors_only_refl w : tensors_only w w.
Proof. constructor; frame_refl. Qed.

Lemma tensors_only_trans a b c : tensors_only a b → tensors_only b c → tensors_only a c.
Proof.
  intros [] []; constructor; try congruence.
  - eauto using same_masters_trans.
  - eauto using same_static_trans.
  - intros id. specialize (to_state0 id). specialize (to_state1 id).
    destruct to_state0; inversion to_state1; simplify_eq; constructor. congruence.
Qed.

Lemma fp8_status_write_scale x p : fp8_meta_status (write_scale x p) = fp8_meta_status p.
Proof.
  unfold write_scale, fp8_meta_status. destruct (_fp8_meta p) as [m|] eqn:E; simpl; [|by rewrite E].
  destruct (_fp8_meta_forward p); simpl.
  - destruct (scale (scaling_fwd m) !! _fp8_meta_index p) eqn:E1.
    + rewrite list_lookup_insert_eq; [done|]. by eapply lookup_lt_Some.
    + rewrite list_insert_ge; [by rewrite E1|]. by apply lookup_ge_None.
  - destruct (scale (scaling_bwd m) !! _fp8_meta_index p) eqn:E1.
    + rewrite list_lookup_insert_eq; [done|]. by eapply lookup_lt_Some.
    + rewrite list_insert_ge; [by rewrite E1|]. by apply lookup_ge_None.
Qed.

Lemma fp8_status_write_amax x p : fp8_meta_status (write_amax x p) = fp8_meta_status p.
Proof.
  unfold write_amax, fp8_meta_status. destruct (_fp8_meta p) as [m|] eqn:E; simpl; [|by rewrite E].
  destruct (_fp8_meta_forward p); simpl.
  - destruct (scale (scaling_fwd m) !! _fp8_meta_index p); [|done].
    destruct (amax_history (scaling_fwd m)) as [|row rest]; [done|].
    destruct (row !! _fp8_meta_index p) eqn:E1.
    + rewrite list_lookup_insert_eq; [done|]. by eapply lookup_lt_Some.
    + rewrite list_insert_ge; [by rewrite E1|]. by apply lookup_ge_None.
  - destruct (scale (scaling_bwd m) !! _fp8_meta_index p); [|done].
    destruct (amax_history (scaling_bwd m)) as [|row rest]; [done|].
    destruct (row !! _fp8_meta_index p) eqn:E1.
    + rewrite list_lookup_insert_eq; [done|]. by eapply lookup_lt_Some.
    + rewrite list_insert_ge; [by rewrite E1|]. by apply lookup_ge_None.
Qed.

Lemma same_static_set_data d p : same_static p (set_data d p).
Proof. by constructor. Qed.

Lemma same_static_set_scale_inv x p : same_static p (set_scale_inv x p).
Proof. by constructor. Qed.

Lemma same_static_write_scale x p : same_static p (write_scale x p).
Proof.
  constructor; try (unfold write_scale; by destruct (_fp8_meta p)).
  apply fp8_status_write_scale.
Qed.

Lemma same_static_write_amax x p : same_static p (write_amax x p).
Proof.
  constructor; try (unfold write_amax; by destruct (_fp8_meta p)).
  apply fp8_status_write_amax.
Qed.

Lemma tensors_only_upd_heap id f w :
  (∀ p, same_static p (f p)) → tensors_only w (upd_heap id f w).
Proof.
  intros Hf. constructor; try frame_refl.
  intros j. simpl. destruct (Nat.eqb j id); [apply Hf|apply same_static_refl].
Qed.

Lemma tensors_only_write r d w : tensors_only w (write r d w).
Proof.
  destruct r; simpl; try apply tensors_only_refl.
  - apply tensors_only_upd_heap, same_static_set_data.
  - destruct (master_weights w) as [l|] eqn:E; [|apply tensors_only_refl].
    constructor; try frame_refl.
    rewrite E. simpl. apply Forall2_alter_r.
    + apply (same_masters_refl (Some l)).
    + intros x y ? ? [? ?]. by split.
  - constructor; try frame_refl.
    intros j. simpl. rewrite lookup_alter. case_decide; subst;
      destruct (state w !! j); by constructor.
  - constructor; try frame_refl.
    intros j. simpl. rewrite lookup_alter. case_decide; subst;
      destruct (state w !! j); by constructor.
  - destruct d; [apply tensors_only_refl|]. apply tensors_only_upd_heap, same_static_write_scale.
  - destruct d; [apply tensors_only_refl|]. apply tensors_only_upd_heap, same_static_write_amax.
  - destruct d; [apply tensors_only_refl|]. apply tensors_only_upd_heap, same_static_set_scale_inv.
Qed.

Lemma write_heap_other r d w p : ref_param r ≠ Some p → heap (write r d w) p = heap w p.
Proof.
  destruct r; simpl; intros Hne; try done.
  - destruct (Nat.eqb_spec p id); [congruence|done].
  - by destruct (master_weights w).
  - destruct d; [done|]. simpl. destruct (Nat.eqb_spec p id); [congruence|done].
  - destruct d; [done|]. simpl. destruct (Nat.eqb_spec p id); [congruence|done].
  - destruct d; [done|]. simpl. destruct (Nat.eqb_spec p id); [congruence|done].
Qed.

Lemma write_state_other r d w p : ref_state r ≠ Some p → state (write r d w) !! p = state w !! p.
Proof.
  destruct r; simpl; intros Hne; try done.
  - by destruct (master_weights w).
  - rewrite lookup_alter_ne; [done|congruence].
  - rewrite lookup_alter_ne; [done|congruence].
  - by destruct d.
  - by destruct d.
  - by destruct d.
Qed.

Lemma write_masters_other r d w :
  ref_master r = None → master_weights (write r d w) = master_weights w.
Proof. destruct r; simpl; try done; by destruct d. Qed.

Lemma column_in lists k j r : column lists k j = Some r → r ∈ concat lists.
Proof.
  unfold column. destruct (lists !! k) as [l|] eqn:E; [|done]. intros Hr.
  apply list_elem_of_In, in_concat. exists l. split; apply list_elem_of_In.
  - by eapply list_elem_of_lookup_2.
  - by eapply list_elem_of_lookup_2.
Qed.

(** A property of the object store that every write through a reference
    of the batch preserves is preserved by the update of a tensor. *)
Lemma update_tensor_preserves (P : FusedAdam → Prop) B c w j :
  (∀ r d w0, r ∈ concat (k_lists c) → P w0 → P (write r d w0)) →
  P w → P (update_tensor B c w j).
Proof.
  intros Hw HP. unfold update_tensor.
  destruct (column (k_lists c) 0%nat j) as [gr|] eqn:E0; [|done].
  destruct (column (k_lists c) 1%nat j) as [pr|] eqn:E1; [|done].
  destruct (column (k_lists c) 2%nat j) as [mr|] eqn:E2; [|done].
  destruct (column (k_lists c) 3%nat j) as [vr|] eqn:E3; [|done].
  apply column_in in E1, E2, E3.
  destruct (column (k_lists c) 4%nat j) as [tr|] eqn:E4; simpl.
  - apply column_in in E4.
    assert (∀ d, P (write pr d (write vr (map snd
              (adam_elems c (read w gr) (read w tr) (read w mr) (read w vr)))
              (write mr (map (λ x, snd (fst x))
                 (adam_elems c (read w gr) (read w tr) (read w mr) (read w vr)))
                 (write tr (map (λ x, fst (fst x))
                    (adam_elems c (read w gr) (read w tr) (read w mr) (read w vr))) w)))))
      as Hcast by (intros; auto).
    destruct (k_func c); try apply Hcast.
    destruct (column (k_lists c) 5%nat j) as [sr|] eqn:E5; [|apply Hcast].
    destruct (column (k_lists c) 6%nat j) as [ar|] eqn:E6; [|apply Hcast].
    destruct (column (k_lists c) 7%nat j) as [ir|] eqn:E7; [|apply Hcast].
    apply column_in in E5, E6, E7.
    destruct (fp8_requantize B _ _ _ _ _) as [[[q s'] a'] i'].
    auto 10.
  - auto.
Qed.

Lemma run_kernel_preserves (P : FusedAdam → Prop) B c w :
  (∀ r d w0, r ∈ concat (k_lists c) → P w0 → P (write r d w0)) →
  P w → P (run_kernel B c w).
Proof.
  intros Hw HP. unfold run_kernel.
  destruct (is_capturable_kernel (k_func c) && (k_noop c =? 1)); [done|].
  generalize (seq 0 (length (default [] (k_lists c !! 0%nat)))).
  intros l. revert w HP. induction l as [|j l IH]; intros w HP; simpl; [done|].
  apply IH. by apply update_tensor_preserves.
Qed.

Lemma run_kernel_tensors_only B c w : tensors_only w (run_kernel B c w).
Proof.
  apply (run_kernel_preserves (tensors_only w)); [|apply tensors_only_refl].
  intros r d w0 _ H. eapply tensors_only_trans; [exact H|apply tensors_only_write].
Qed.

Lemma run_kernel_heap_other B c w p :
  (∀ r, r ∈ concat (k_lists c) → ref_param r ≠ Some p) →
  heap (run_kernel B c w) p = heap w p.
Proof.
  intros Hr. apply (run_kernel_preserves (λ w', heap w' p = heap w p)); [|done].
  intros r d w0 Hin H. rewrite write_heap_other; auto.
Qed.

Lemma run_kernel_state_other B c w p :
  (∀ r, r ∈ concat (k_lists c) → ref_state r ≠ Some p) →
  state (run_kernel B c w) !! p = state w !! p.
Proof.
  intros Hr. apply (run_kernel_preserves (λ w', state w' !! p = state w !! p)); [|done].
  intros r d w0 Hin H. rewrite write_state_other; auto.
Qed.


Lemma for_each_prefix {A S} (body : A → S → M S)
    (I : list A → S → FusedAdam → Prop) (E : Exn → FusedAdam → Prop) l :
  (∀ pre x post s w, l = pre ++ x :: post → I pre s w →
     match body x s w with
     | Ok s' w' => I (pre ++ [x]) s' w'
     | Raise e w' => E e w'
     end) →
  ∀ s w, I [] s w →
    match for_each body l s w with
    | Ok s' w' => I l s' w'
    | Raise e w' => E e w'
    end.
Proof.
  intros Hbody.
  assert (∀ post pre s w, l = pre ++ post → I pre s w →
            match for_each body post s w with
            | Ok s' w' => I l s' w'
            | Raise e w' => E e w'
            end) as H.
  { induction post as [|x post IH]; intros pre s w Hl HI; simpl.
    - rewrite app_nil_r in Hl. by subst.
    - unfold bind. specialize (Hbody pre x post s w Hl HI).
      destruct (body x s w) as [s' w'|e w']; [|done].
      apply (IH (pre ++ [x])); [|done]. by rewrite <- app_assoc. }
  intros s w HI. by apply (H l []).
Qed.

Lemma for_each_inv {A S} (body : A → S → M S)
    (I : S → FusedAdam → Prop) (E : Exn → FusedAdam → Prop) l :
  (∀ x s w, x ∈ l → I s w →
     match body x s w with
     | Ok s' w' => I s' w'
     | Raise e w' => E e w'
     end) →
  ∀ s w, I s w →
    match for_each body l s w with
    | Ok s' w' => I s' w'
    | Raise e w' => E e w'
    end.
Proof.
  intros Hbody s w HI.
  apply (for_each_prefix body (λ _, I) E l); [|done].
  intros pre x post s0 w0 -> H0. apply Hbody; [|done].
  apply elem_of_app; right. apply list_elem_of_here.
Qed.

Lemma set_state_id w : set_state (state w) w = w.
Proof. by destruct w. Qed.

Lemma init_state_old p k w s : state w !! p = Some s → init_state p k w = Ok k w.
Proof. intros H. unfold init_state, bind, get. simpl. by rewrite H. Qed.

Lemma init_state_plain p k w :
  state w !! p = None → wants_master w p = false →
  init_state p k w = Ok k (set_state (<[p := fresh_state w p None]> (state w)) w).
Proof.
  unfold wants_master. intros H Hm. unfold init_state, bind, get, modify. simpl.
  rewrite H. simpl. by rewrite Hm.
Qed.

Lemma init_state_short p k w :
  state w !! p = None → wants_master w p = true → master_at w k = None →
  init_state p k w =
    Raise IndexError (set_state (<[p := fresh_state w p None]> (state w)) w).
Proof.
  unfold wants_master. intros H Hm Hk. unfold init_state, bind, get, modify. simpl.
  rewrite H. simpl. rewrite Hm. unfold master_at in *. simpl. by rewrite Hk.
Qed.

Lemma init_state_master p k w mp :
  state w !! p = None → wants_master w p = true → master_at w k = Some mp →
  init_state p k w =
    (if bool_decide (mw_shape mp = shape (heap w p))
     then Ok (S k) else Raise (AssertionError msg_shape))
      (set_state (<[p := fresh_state w p (Some k)]> (state w)) w).
Proof.
  unfold wants_master. intros H Hm Hk. unfold init_state, bind, get, modify. simpl.
  rewrite H. simpl. rewrite Hm. unfold master_at in *. simpl. rewrite Hk. simpl.
  rewrite alter_insert_eq.
  by destruct (bool_decide (mw_shape mp = shape (heap w p))).
Qed.

(** Every outcome of the state initialisation at once. *)
Lemma init_state_cases p k w :
  (∃ s, state w !! p = Some s ∧ init_state p k w = Ok k w) ∨
  (state w !! p = None ∧
   ∃ mp r, init_state p k w = r (set_state (<[p := fresh_state w p mp]> (state w)) w) ∧
     ((mp = None ∧ wants_master w p = false ∧ r = Ok k) ∨
      (mp = None ∧ wants_master w p = true ∧ master_at w k = None ∧ r = Raise IndexError) ∨
      (mp = Some k ∧ wants_master w p = true ∧
        ∃ m, master_at w k = Some m ∧
          ((mw_shape m = shape (heap w p) ∧ r = Ok (S k)) ∨
           (mw_shape m ≠ shape (heap w p) ∧ r = Raise (AssertionError msg_shape)))))).
Proof.
  destruct (state w !! p) as [s|] eqn:Hs.
  { left. exists s. split; [done|]. by eapply init_state_old. }
  right. split; [done|].
  destruct (wants_master w p) eqn:Hm.
  - destruct (master_at w k) as [m|] eqn:Hk.
    + exists (Some k). eexists. split; [by apply init_state_master|].
      right; right. split; [done|]. split; [done|]. exists m. split; [done|].
      case_bool_decide; [left|right]; done.
    + exists None, (Raise IndexError). split; [by apply init_state_short|].
      right; left. done.
  - exists None, (Ok k). split; [by apply init_state_plain|]. left. done.
Qed.

Lemma get_fp8_meta_eq p w :
  get_fp8_meta p w =
    match fp8_meta_status (heap w p) with
    | Some e => Raise e w
    | None => Ok (Fp8Scale p, Fp8Amax p, Fp8ScaleInv p) w
    end.
Proof.
  unfold get_fp8_meta, fp8_meta_status, bind, get. simpl.
  destruct (_fp8_meta (heap w p)); [|done].
  destruct (scale _ !! _); [|done].
  destruct (amax_history _); [done|].
  by destruct (_ !! _).
Qed.

Lemma p_main_ref_eq w p w0 :
  p_main_ref w p w0 =
    match main_ref w p with inl e => Raise e w0 | inr pm => Ok pm w0 end.
Proof.
  unfold p_main_ref, main_ref. destruct (truthy _); [|done].
  by destruct (p_master_of w p) as [[]|].
Qed.

Lemma classify_eq p s w :
  classify p s w =
    match init_state p (fst s) w with
    | Raise e w1 => Raise e w1
    | Ok k w1 =>
        match judge w1 p (snd s) with
        | inl e => Raise e w1
        | inr b => Ok (k, b) w1
        end
    end.
Proof.
  unfold classify, bind at 1. destruct (init_state p (fst s) w) as [k w1|e w1]; [|done].
  unfold bind at 1, get at 1. unfold judge.
  destruct (p_grad_of w1 p) as [[gref g]|]; [|done].
  destruct (is_sparse g); [done|].
  unfold bind at 1. unfold nonempty.
  destruct (is_Float8Tensor (heap w1 p)).
  - unfold bind at 1. rewrite get_fp8_meta_eq.
    destruct (fp8_meta_status (heap w1 p)); [done|].
    unfold bind at 1. rewrite p_main_ref_eq.
    destruct (main_ref w1 p) as [e|pm]; [done|].
    unfold ret at 1.
    destruct (capturable w1 && _); [done|].
    by destruct (has_fp16 _ && has_bf16 _).
  - destruct (dtype_eqb (dtype (heap w1 p)) float16 || dtype_eqb (dtype (heap w1 p)) bfloat16).
    + unfold bind at 1. rewrite p_main_ref_eq.
      destruct (main_ref w1 p) as [e|pm]; [done|].
      unfold ret at 1.
      destruct (capturable w1 && _); [done|].
      by destruct (has_fp16 _ && has_bf16 _).
    + destruct (dtype_eqb (dtype (heap w1 p)) float32); [|done].
      unfold ret at 1.
      destruct (capturable w1 && _); [done|].
      by destruct (has_fp16 _ && has_bf16 _).
Qed.

Lemma classify_world p s w :
  res_world (classify p s w) = res_world (init_state p (fst s) w).
Proof.
  rewrite classify_eq. destruct (init_state p (fst s) w) as [k w1|e w1]; [|done].
  by destruct (judge w1 p (snd s)).
Qed.

Lemma dtype_eqb_eq a b : dtype_eqb a b = true ↔ a = b.
Proof. destruct a, b; simpl; split; congruence. Qed.

Lemma nonempty_app_r {A} (l : list A) x : nonempty (l ++ [x]) = true.
Proof. unfold nonempty. rewrite length_app. simpl. apply Nat.ltb_lt. lia. Qed.

Lemma judge_inr w p b b' :
  judge w p b = inr b' →
  appended w p b b' ∧
  (p_grad_of w p ≠ None →
     capturable w && nonempty (p_fp8_model b') = false ∧
     has_fp16 b' && has_bf16 b' = false).
Proof.
  unfold judge. destruct (p_grad_of w p) as [[gref g]|] eqn:Eg.
  2:{ intros [= <-]. split; [by constructor|done]. }
  destruct (is_sparse g) eqn:Es; [done|].
  destruct (is_Float8Tensor (heap w p)) eqn:E8.
  - destruct (fp8_meta_status (heap w p)) eqn:Em; [done|].
    destruct (main_ref w p) as [e|pm] eqn:Ep; [done|].
    destruct (capturable w && _) eqn:Ec; [done|].
    destruct (has_fp16 _ && has_bf16 _) eqn:Eh; [done|].
    intros [= <-]. split; [|done].
    eapply app_fp8; eauto.
    simpl in Ec. rewrite nonempty_app_r in Ec. by destruct (capturable w).
  - destruct (dtype_eqb (dtype (heap w p)) float16 || dtype_eqb (dtype (heap w p)) bfloat16) eqn:Ed.
    + destruct (main_ref w p) as [e|pm] eqn:Ep; [done|].
      destruct (capturable w && _) eqn:Ec; [done|].
      destruct (has_fp16 _ && has_bf16 _) eqn:Eh; [done|].
      intros [= <-]. split; [|done].
      eapply app_f16; eauto.
      apply orb_true_iff in Ed. by rewrite !dtype_eqb_eq in Ed.
    + destruct (dtype_eqb (dtype (heap w p)) float32) eqn:Ef; [|done].
      destruct (capturable w && _) eqn:Ec; [done|].
      destruct (has_fp16 _ && has_bf16 _) eqn:Eh; [done|].
      intros [= <-]. split; [|done].
      eapply app_f32; eauto. by apply dtype_eqb_eq.
Qed.

Lemma main_ref_owner w p pm r : main_ref w p = inr pm → r ∈ pm → ref_owner r = None.
Proof.
  unfold main_ref. destruct (truthy _).
  - destruct (p_master_of w p) as [[i m]|]; [|done]. intros [= <-] Hr.
    apply list_elem_of_singleton in Hr. by subst.
  - intros [= <-] Hr. by apply elem_of_nil in Hr.
Qed.

Lemma p_grad_of_owner w p gref g : p_grad_of w p = Some (gref, g) → ref_owner gref = None.
Proof.
  unfold p_grad_of.
  assert (option_map (λ g0, (ParamGrad p, g0)) (grad (heap w p)) = Some (gref, g) →
          ref_owner gref = None) as Hown.
  { destruct (grad (heap w p)); [|done]. by intros [= <- <-]. }
  destruct (truthy _); [|done].
  destruct (p_master_of w p) as [[i m]|]; [|done].
  destruct (mw_grad m); [|done]. by intros [= <- <-].
Qed.

(** A classification adds only references owned by the parameter it
    classifies, and only when that parameter has a gradient. *)
Lemma appended_refs w p b b' r :
  appended w p b b' → r ∈ refs b' →
  r ∈ refs b ∨ (p_grad_of w p ≠ None ∧ (ref_owner r = None ∨ ref_owner r = Some p)).
Proof.
  intros Happ. destruct Happ as [|gref g pm Hg _ _ _ Hm _|gref g pm Hg _ _ _ Hm|gref g Hg _ _ _].
  - by left.
  - unfold refs, fp8_refs, soft_refs. simpl. rewrite !elem_of_app, !list_elem_of_singleton.
    pose proof (main_ref_owner w p pm r Hm). pose proof (p_grad_of_owner _ _ _ _ Hg).
    assert (p_grad_of w p ≠ None) by congruence.
    intros H'. decompose [or] H'; subst; auto 20.
  - unfold refs, fp8_refs, soft_refs. simpl. rewrite !elem_of_app, !list_elem_of_singleton.
    pose proof (main_ref_owner w p pm r Hm). pose proof (p_grad_of_owner _ _ _ _ Hg).
    assert (p_grad_of w p ≠ None) by congruence.
    intros H'. decompose [or] H'; subst; auto 20.
  - unfold refs, fp8_refs, soft_refs. simpl. rewrite !elem_of_app, !list_elem_of_singleton.
    pose proof (p_grad_of_owner _ _ _ _ Hg).
    assert (p_grad_of w p ≠ None) by congruence.
    intros H'. decompose [or] H'; subst; auto 20.
Qed.

(** The 16- and 32-bit buckets receive only references owned by
    parameters that are not [Float8Tensor]s. *)
Lemma appended_soft_refs w p b b' r :
  appended w p b b' → r ∈ soft_refs b' →
  r ∈ soft_refs b ∨
  (is_Float8Tensor (heap w p) = false ∧ (ref_owner r = None ∨ ref_owner r = Some p)).
Proof.
  intros Happ. destruct Happ as [|gref g pm Hg _ _ _ Hm _|gref g pm Hg _ H8 _ Hm|gref g Hg _ H8 _].
  - by left.
  - unfold soft_refs. simpl. by left.
  - unfold soft_refs. simpl. rewrite !elem_of_app, !list_elem_of_singleton.
    pose proof (main_ref_owner w p pm r Hm). pose proof (p_grad_of_owner _ _ _ _ Hg).
    intros H'. decompose [or] H'; subst; auto 20.
  - unfold soft_refs. simpl. rewrite !elem_of_app, !list_elem_of_singleton.
    pose proof (p_grad_of_owner _ _ _ _ Hg).
    intros H'. decompose [or] H'; subst; auto 20.
Qed.

Lemma launches_refs b cap mw f lists r :
  launches b cap mw f lists → r ∈ concat lists → r ∈ refs b.
Proof.
  intros Hl. unfold refs, fp8_refs, soft_refs.
  destruct Hl; simpl; rewrite ?app_nil_r, !elem_of_app; intros H';
    decompose [or] H'; auto 20.
Qed.

Lemma launches_soft_refs b cap f lists r :
  launches b cap false f lists → r ∈ concat lists → r ∈ soft_refs b.
Proof.
  intros Hl. unfold soft_refs.
  inversion Hl; subst; simpl; rewrite ?app_nil_r, !elem_of_app; intros H';
    decompose [or] H'; auto 20.
Qed.


Lemma launches_plain b f lists :
  launches b false false f lists → f = multi_tensor_adam.
Proof. by inversion 1. Qed.

Lemma apply_multi_tensor_adam_eq B i g beta1 beta2 bc f lists inv od w :
  ∃ c, launched i g w c ∧ k_func c = f ∧ k_lists c = lists ∧
    apply_multi_tensor_adam B i g beta1 beta2 bc f lists inv od w =
      Ok tt (run_kernel B c (set_trace (trace w ++ [c]) w)).
Proof. eexists. split; [|split; [|split]]; [| | |reflexivity]; done. Qed.

Local Opaque apply_multi_tensor_adam.

(** [dispatch] never raises, and it preserves every property of the
    object store that the overflow-buffer update and each launch of the
    selection table preserve. *)
Lemma dispatch_inv (P : FusedAdam → Prop) B gs i g beta1 beta2 bc dev b w :
  (if capturable w then P (set_overflow_buf (found_inf_of gs dev) w) else P w) →
  (∀ w0 c, P w0 →
     launches b (capturable w) (truthy (master_weights w)) (k_func c) (k_lists c) →
     launched i g w0 c →
     P (run_kernel B c (set_trace (trace w0 ++ [c]) w0))) →
  ∃ w', dispatch B gs i g beta1 beta2 bc dev b w = Ok tt w' ∧ P w'.
Proof.
  intros HP Hk.
  assert (∀ f lists inv od w0, P w0 →
            launches b (capturable w) (truthy (master_weights w)) f lists →
            ∃ w', apply_multi_tensor_adam B i g beta1 beta2 bc f lists inv od w0 = Ok tt w'
                  ∧ P w') as Hrun.
  { intros f lists inv od w0 H0 Hl.
    destruct (apply_multi_tensor_adam_eq B i g beta1 beta2 bc f lists inv od w0)
      as (c & Hc & Hf & Hls & ->).
    eexists. split; [done|]. apply Hk; [done| |done]. by rewrite Hf, Hls. }
  assert (∀ cond f lists inv od w0, P w0 →
            launches b (capturable w) (truthy (master_weights w)) f lists →
            ∃ w', when cond (apply_multi_tensor_adam B i g beta1 beta2 bc f lists inv od) w0
                    = Ok tt w' ∧ P w') as Hwhen.
  { intros [] f lists inv od w0 H0 Hl; simpl; [by apply Hrun|]. by exists w0. }
  unfold dispatch, bind at 1, get at 1.
  destruct (capturable w) eqn:Ec.
  - unfold bind at 1, modify at 1. fold (found_inf_of gs dev).
    simpl. destruct (truthy (master_weights w)) eqn:Em.
    + unfold bind at 1.
      edestruct (Hwhen (nonempty (p_f16_model b))) as (w1 & -> & H1);
        [exact HP|apply launch_cap_master_f16|].
      by eapply Hwhen; [|apply launch_cap_f32].
    + unfold bind at 1.
      edestruct (Hwhen (nonempty (p_f16_model b))) as (w1 & -> & H1);
        [exact HP|apply launch_cap_f16|].
      by eapply Hwhen; [|apply launch_cap_f32].
  - destruct (truthy (master_weights w)) eqn:Em.
    + unfold bind at 1.
      edestruct (Hwhen (nonempty (p_f16_model b))) as (w1 & -> & H1);
        [exact HP|apply launch_master_f16|].
      unfold bind at 1.
      edestruct (Hwhen (nonempty (p_fp8_model b))) as (w2 & -> & H2);
        [exact H1|apply launch_master_fp8|].
      by eapply Hwhen; [|apply launch_f32].
    + unfold bind at 1.
      edestruct (Hwhen (nonempty (p_f16_model b))) as (w1 & -> & H1);
        [exact HP|apply launch_f16|].
      by eapply Hwhen; [|apply launch_f32].
Qed.

Local Opaque dispatch.

(** The body of the loop over groups, unfolded once. *)
Lemma step_group_eq B gs i k w :
  step_group B gs i k w =
    match param_groups w !! i with
    | None => Ok k w
    | Some g =>
        match group.params g with
        | [] => Ok k w
        | p0 :: _ =>
            let g' := group.set_step
                        (next_step (capturable w) (_dummy_overflow_buf w) (group.step g)) g in
            match for_each classify (group.params g) (k, empty_buckets)
                    (set_param_groups (<[i := g']> (param_groups w)) w) with
            | Raise e w2 => Raise e w2
            | Ok s w2 =>
                match dispatch B gs i g' (fst (group.betas g)) (snd (group.betas g))
                        (if group.bias_correction g then 1 else 0)
                        (device (heap w p0)) (snd s) w2 with
                | Ok _ w3 => Ok (fst s) w3
                | Raise e w3 => Raise e w3
                end
            end
        end
    end.
Proof.
  unfold step_group, bind at 1, get at 1.
  destruct (param_groups w !! i) as [g|]; [|done].
  destruct (group.params g) as [|p0 rest] eqn:Ep; [done|].
  unfold bind at 1, modify at 1. unfold bind at 1.
  destruct (for_each classify (p0 :: rest) _ _) as [s w2|e w2]; [|done].
  unfold bind at 1. by destruct (dispatch _ _ _ _ _ _ _ _ _ _).
Qed.

Lemma same_group_refl g : same_group g g.
Proof. by repeat split. Qed.

Lemma same_groups_refl (l : list group.t) : Forall2 same_group l l.
Proof. induction l; constructor; auto using same_group_refl. Qed.

Lemma grows_refl w : grows w w.
Proof.
  constructor; try frame_refl.
  - apply same_groups_refl.
  - intros q s ->. by exists s.
  - exists []. by rewrite app_nil_r.
Qed.

Lemma grows_trans a b c : grows a b → grows b c → grows a c.
Proof.
  intros [] []; constructor; try congruence.
  - eauto using same_masters_trans.
  - eauto using same_static_trans.
  - eapply Forall2_trans; [|done|done].
    unfold same_group. intros x y z ? ?. intuition congruence.
  - intros q s Hs. destruct (gr_state0 q s Hs) as (s' & Hs' & ?).
    destruct (gr_state1 q s' Hs') as (s'' & ? & ?). exists s''. split; [done|congruence].
  - destruct gr_trace0 as [n1 H1], gr_trace1 as [n2 H2]. exists (n1 ++ n2).
    by rewrite H2, H1, app_assoc.
Qed.

Lemma tensors_only_grows w w' : tensors_only w w' → grows w w'.
Proof.
  intros []; constructor; try done.
  - rewrite to_groups0. apply same_groups_refl.
  - intros q s Hs. specialize (to_state0 q). rewrite Hs in to_state0.
    inversion to_state0; subst. eauto.
  - exists []. by rewrite app_nil_r.
Qed.

Lemma grows_set_overflow_buf v w : grows w (set_overflow_buf v w).
Proof.
  constructor; try frame_refl; simpl.
  - apply same_groups_refl.
  - intros q s ->. by exists s.
  - exists []. by rewrite app_nil_r.
Qed.

Lemma grows_set_trace c w : grows w (set_trace (trace w ++ [c]) w).
Proof.
  constructor; try frame_refl; simpl.
  - apply same_groups_refl.
  - intros q s ->. by exists s.
  - by exists [c].
Qed.

Lemma grows_set_step i g v w :
  param_groups w !! i = Some g →
  grows w (set_param_groups (<[i := group.set_step v g]> (param_groups w)) w).
Proof.
  intros Hi. constructor; try frame_refl; simpl.
  - apply Forall2_same_length_lookup. split; [by rewrite length_insert|].
    intros j x y Hx Hy. destruct (decide (i = j)) as [->|Hne].
    + rewrite list_lookup_insert_eq in Hy by (by eapply lookup_lt_Some).
      simplify_eq. by repeat split.
    + rewrite list_lookup_insert_ne in Hy by done. simplify_eq. apply same_group_refl.
  - intros q s ->. by exists s.
  - exists []. by rewrite app_nil_r.
Qed.

Lemma grows_set_state σ w :
  (∀ q s, state w !! q = Some s → σ !! q = Some s) → grows w (set_state σ w).
Proof.
  intros Hσ. constructor; try frame_refl; simpl.
  - apply same_groups_refl.
  - intros q s Hs. exists s. split; [by apply Hσ|done].
  - exists []. by rewrite app_nil_r.
Qed.

Lemma grows_truthy w w' : grows w w' → truthy (master_weights w') = truthy (master_weights w).
Proof.
  intros [_ _ Hm _ _ _ _]. unfold same_masters in Hm.
  destruct (master_weights w) as [l|], (master_weights w') as [l'|]; try done.
  by destruct Hm.
Qed.

Lemma grows_master_at w w' i m :
  grows w w' → master_at w i = Some m →
  ∃ m', master_at w' i = Some m' ∧ same_master m m'.
Proof.
  intros [_ _ Hm _ _ _ _]. unfold same_masters, master_at in *.
  destruct (master_weights w) as [l|], (master_weights w') as [l'|]; try done.
  intros Hi. by eapply Forall2_lookup_l in Hm as (m' & ? & ?); eauto.
Qed.

Lemma grows_master_at_None w w' i :
  grows w w' → master_at w i = None → master_at w' i = None.
Proof.
  intros [_ _ Hm _ _ _ _]. unfold same_masters, master_at in *.
  destruct (master_weights w) as [l|], (master_weights w') as [l'|]; try done.
  rewrite !lookup_ge_None. by rewrite (Forall2_length _ _ _ Hm).
Qed.

Lemma grows_wants_master w w' p : grows w w' → wants_master w' p = wants_master w p.
Proof.
  intros H. unfold wants_master. rewrite (grows_truthy _ _ H).
  by rewrite (ss_dtype _ _ (gr_heap _ _ H p)).
Qed.

(** Once a parameter has its state, the gradient the loop selects for
    it, its master reference and its classification no longer depend on
    what the call does. *)
Lemma grows_p_master_of w w' p s :
  grows w w' → state w !! p = Some s →
  option_Forall2 (λ a b, fst b = fst a ∧ same_master (snd a) (snd b))
    (p_master_of w p) (p_master_of w' p).
Proof.
  intros H Hs. unfold p_master_of. rewrite Hs.
  destruct (gr_state _ _ H p s Hs) as (s' & -> & ->).
  destruct (master_param s) as [i|]; [|constructor].
  destruct (master_at w i) as [m|] eqn:Em.
  - destruct (grows_master_at _ _ _ _ H Em) as (m' & -> & ?). by constructor.
  - rewrite (grows_master_at_None _ _ _ H Em). constructor.
Qed.

Lemma grows_p_grad_of w w' p s :
  grows w w' → state w !! p = Some s → p_grad_of w' p = p_grad_of w p.
Proof.
  intros H Hs. unfold p_grad_of. rewrite (grows_truthy _ _ H).
  rewrite (ss_grad _ _ (gr_heap _ _ H p)).
  destruct (truthy _); [|done].
  destruct (grows_p_master_of _ _ _ _ H Hs) as [[i m] [i' m'] [Hi [_ Hg]]|]; [|done].
  simpl in *. subst. by rewrite Hg.
Qed.

Lemma grows_main_ref w w' p s :
  grows w w' → state w !! p = Some s → main_ref w' p = main_ref w p.
Proof.
  intros H Hs. unfold main_ref. rewrite (grows_truthy _ _ H).
  destruct (truthy _); [|done].
  destruct (grows_p_master_of _ _ _ _ H Hs) as [[i m] [i' m'] [Hi _]|]; [|done].
  simpl in *. by subst.
Qed.

Lemma grows_judge w w' p s b :
  grows w w' → state w !! p = Some s → judge w' p b = judge w p b.
Proof.
  intros H Hs. unfold judge.
  rewrite (grows_p_grad_of _ _ _ _ H Hs), (grows_main_ref _ _ _ _ H Hs), (gr_cap _ _ H).
  destruct (gr_heap _ _ H p) as [-> -> _ _ _ -> ->]. done.
Qed.

Lemma insert_fresh_keeps (σ : gmap nat PState) p x q s :
  σ !! p = None → σ !! q = Some s → <[p := x]> σ !! q = Some s.
Proof. intros Hp Hq. rewrite lookup_insert_ne; [done|]. intros ->. congruence. Qed.

(** The state initialisation, summarised: the object store changes in
    its [state] only, at [p] only, and only if [p] had no entry. *)
Lemma init_state_world p k w :
  ∃ σ, res_world (init_state p k w) = set_state σ w ∧
    is_Some (σ !! p) ∧
    (∀ q, q ≠ p → σ !! q = state w !! q) ∧
    (∀ s, state w !! p = Some s → σ !! p = Some s) ∧
    (state w !! p = None → ∃ mp, σ !! p = Some (fresh_state w p mp)).
Proof.
  destruct (init_state_cases p k w) as [(s & Hs & ->)|(Hs & mp & r & -> & Hr)].
  - exists (state w). simpl. rewrite set_state_id. split; [done|].
    split; [by rewrite Hs|]. split; [done|]. split; [done|]. congruence.
  - exists (<[p := fresh_state w p mp]> (state w)).
    split.
    { decompose [and or ex] Hr; subst; done. }
    rewrite lookup_insert_eq. split; [done|]. split.
    { intros q Hq. by rewrite lookup_insert_ne. }
    split; [congruence|]. intros _. by exists mp.
Qed.

Lemma init_state_grows p k w : grows w (res_world (init_state p k w)).
Proof.
  destruct (init_state_world p k w) as (σ & -> & _ & Hne & Heq & _).
  apply grows_set_state. intros q s Hs.
  destruct (decide (q = p)) as [->|Hq]; [by apply Heq|]. by rewrite Hne.
Qed.

Lemma init_state_is_Some p k w : is_Some (state (res_world (init_state p k w)) !! p).
Proof. by destruct (init_state_world p k w) as (σ & -> & ? & _). Qed.

Lemma classify_grows p s w : grows w (res_world (classify p s w)).
Proof. rewrite classify_world. apply init_state_grows. Qed.

(** A reflexive and transitive relation that every iteration
    establishes between the store before and after holds across the
    loop, whatever its outcome. *)
Lemma for_each_closure {A S} (body : A → S → M S) (R : FusedAdam → FusedAdam → Prop) l :
  (∀ w, R w w) → (∀ a b c, R a b → R b c → R a c) →
  (∀ x s w, R w (res_world (body x s w))) →
  ∀ s w, R w (res_world (for_each body l s w)).
Proof.
  intros Hrefl Htrans Hbody. induction l as [|x l IH]; intros s w; simpl; [done|].
  unfold bind. specialize (Hbody x s w).
  destruct (body x s w) as [s' w'|e w']; simpl in *; [|done].
  eapply Htrans; [exact Hbody|apply IH].
Qed.

Lemma classify_loop_grows l s w : grows w (res_world (for_each classify l s w)).
Proof.
  apply for_each_closure; [apply grows_refl|apply grows_trans|apply classify_grows].
Qed.

Lemma run_kernel_grows B c w : grows w (run_kernel B c (set_trace (trace w ++ [c]) w)).
Proof.
  eapply grows_trans; [apply grows_set_trace|].
  apply tensors_only_grows, run_kernel_tensors_only.
Qed.

Lemma dispatch_Ok B gs i g beta1 beta2 bc dev b w :
  ∃ w', dispatch B gs i g beta1 beta2 bc dev b w = Ok tt w' ∧ grows w w'.
Proof.
  apply (dispatch_inv (grows w)).
  - destruct (capturable w); [apply grows_set_overflow_buf|apply grows_refl].
  - intros w0 c H0 _ _. eapply grows_trans; [exact H0|apply run_kernel_grows].
Qed.

Lemma step_group_grows B gs i k w : grows w (res_world (step_group B gs i k w)).
Proof.
  rewrite step_group_eq.
  destruct (param_groups w !! i) as [g|] eqn:Hi; [|apply grows_refl].
  destruct (group.params g) as [|p0 rest] eqn:Hp; [apply grows_refl|]. cbv zeta.
  pose proof (grows_set_step i g
    (next_step (capturable w) (_dummy_overflow_buf w) (group.step g)) w Hi) as H1.
  pose proof (classify_loop_grows (p0 :: rest) (k, empty_buckets)
    (set_param_groups (<[i := group.set_step
       (next_step (capturable w) (_dummy_overflow_buf w) (group.step g)) g]>
       (param_groups w)) w)) as H2.
  destruct (for_each classify _ _ _) as [s w2|e w2]; simpl in H2.
  - edestruct dispatch_Ok as (w3 & -> & H3). simpl.
    eauto using grows_trans.
  - simpl. eauto using grows_trans.
Qed.

Lemma step_groups_grows B gs l k w :
  grows w (res_world (for_each (step_group B gs) l k w)).
Proof.
  apply for_each_closure; [apply grows_refl|apply grows_trans|].
  intros; apply step_group_grows.
Qed.

(** [step] without a closure, unfolded. *)
Lemma step_eq B gs w :
  step B None gs w =
    match for_each (step_group B gs) (seq 0 (length (param_groups w))) 0%nat w with
    | Ok _ w' => Ok None w'
    | Raise e w' => Raise e w'
    end.
Proof. unfold step, bind, ret, get. by destruct (for_each _ _ _ _). Qed.

Lemma step_grows B gs w : grows w (res_world (step B None gs w)).
Proof.
  rewrite step_eq.
  pose proof (step_groups_grows B gs (seq 0 (length (param_groups w))) 0%nat w) as H.
  by destruct (for_each _ _ _ _).
Qed.

Lemma set_state_set_state σ σ' w : set_state σ (set_state σ' w) = set_state σ w.
Proof. done. Qed.

(** The classification loop changes nothing but [state]. *)
Lemma classify_loop_only_state l s w :
  ∃ σ, res_world (for_each classify l s w) = set_state σ w.
Proof.
  apply (for_each_closure classify (λ a b, ∃ σ, b = set_state σ a)).
  - intros a. exists (state a). by rewrite set_state_id.
  - intros a b c [σ1 ->] [σ2 ->]. by exists σ2.
  - intros x s0 w0. rewrite classify_world.
    destruct (init_state_world x (fst s0) w0) as (σ & -> & _). by exists σ.
Qed.

(** The launches of a group leave the groups alone and end with the
    freshly queried flag in the overflow buffer. *)
Lemma dispatch_counters B gs i g beta1 beta2 bc dev b w :
  ∃ w', dispatch B gs i g beta1 beta2 bc dev b w = Ok tt w' ∧
    param_groups w' = param_groups w ∧
    _dummy_overflow_buf w' =
      (if capturable w then found_inf_of gs dev else _dummy_overflow_buf w).
Proof.
  apply (dispatch_inv (λ w', param_groups w' = param_groups w ∧
    _dummy_overflow_buf w' =
      (if capturable w then found_inf_of gs dev else _dummy_overflow_buf w))).
  - by destruct (capturable w).
  - intros w0 c [H1 H2] _ _.
    destruct (run_kernel_tensors_only B c (set_trace (trace w0 ++ [c]) w0))
      as [-> _ _ -> _ _ _ _]. done.
Qed.

Lemma step_group_counters B gs i k w g p0 rest :
  param_groups w !! i = Some g → group.params g = p0 :: rest →
  let g' := bump (capturable w) (_dummy_overflow_buf w) g in
  match step_group B gs i k w with
  | Ok _ w' =>
      param_groups w' = <[i := g']> (param_groups w) ∧
      _dummy_overflow_buf w' =
        (if capturable w then found_inf_of gs (device (heap w p0))
         else _dummy_overflow_buf w)
  | Raise _ w' =>
      param_groups w' = <[i := g']> (param_groups w) ∧
      _dummy_overflow_buf w' = _dummy_overflow_buf w
  end.
Proof.
  intros Hi Hp. unfold bump. rewrite step_group_eq, Hi, Hp. cbv zeta.
  destruct (classify_loop_only_state (p0 :: rest) (k, empty_buckets)
    (set_param_groups (<[i := group.set_step
       (next_step (capturable w) (_dummy_overflow_buf w) (group.step g)) g]>
       (param_groups w)) w)) as (σ & Hσ).
  destruct (for_each classify _ _ _) as [s w2|e w2]; simpl in Hσ; subst w2.
  - edestruct dispatch_counters as (w3 & -> & -> & ->). done.
  - done.
Qed.

Lemma step_group_skip B gs i k w :
  match param_groups w !! i with
  | Some g => group.params g = []
  | None => True
  end → step_group B gs i k w = Ok k w.
Proof.
  intros H. rewrite step_group_eq. destruct (param_groups w !! i) as [g|]; [|done].
  by rewrite H.
Qed.

Lemma insert_app_middle {A} (l1 l2 : list A) x y :
  <[length l1 := y]> (l1 ++ x :: l2) = (l1 ++ [y]) ++ l2.
Proof.
  rewrite insert_app_r_alt by lia. rewrite Nat.sub_diag. simpl.
  by rewrite <- app_assoc.
Qed.

(** The groups after the loop over the groups [G2] that follow the
    already processed [G1], when the overflow buffer holds [v] at every
    counter update: always so in non-capturable mode, where it is not
    read. *)
Lemma step_groups_counters B gs v G2 : ∀ G1 k w,
  param_groups w = G1 ++ G2 →
  (capturable w = false ∨
   (_dummy_overflow_buf w = v ∧ ∀ d, found_inf_of gs d = v)) →
  match for_each (step_group B gs) (seq (length G1) (length G2)) k w with
  | Ok _ w' => param_groups w' = G1 ++ map (bump (capturable w) v) G2
  | Raise _ w' =>
      ∃ G2', param_groups w' = G1 ++ G2' ∧
        Forall2 (λ g g', g' = g ∨ g' = bump (capturable w) v g) G2 G2'
  end.
Proof.
  induction G2 as [|g G2 IH]; intros G1 k w HG Hv; simpl.
  { by rewrite app_nil_r in *. }
  unfold bind.
  assert (param_groups w !! length G1 = Some g) as Hi.
  { rewrite HG. by apply list_lookup_middle. }
  assert (bump (capturable w) (_dummy_overflow_buf w) g = bump (capturable w) v g) as Hb.
  { unfold bump, next_step. destruct Hv as [->|[-> _]]; [|done].
    by destruct (group.params g), (group.step g) as [[]|]. }
  destruct (group.params g) as [|p0 rest] eqn:Hp.
  - rewrite step_group_skip by (by rewrite Hi).
    specialize (IH (G1 ++ [g]) k w). rewrite length_app, Nat.add_1_r in IH.
    rewrite <- app_assoc in IH. specialize (IH HG Hv).
    assert (bump (capturable w) v g = g) as Hg by (unfold bump; by rewrite Hp).
    destruct (for_each _ _ _ _) as [k' w'|e w'].
    + by rewrite IH, <- app_assoc, Hg.
    + destruct IH as (G2' & -> & HF). exists (g :: G2'). rewrite <- app_assoc.
      split; [done|]. constructor; [by left|done].
  - pose proof (step_group_counters B gs (length G1) k w g p0 rest Hi Hp) as Hs.
    pose proof (step_group_grows B gs (length G1) k w) as Hgr.
    cbv zeta in Hs. rewrite Hb in Hs.
    destruct (step_group B gs (length G1) k w) as [k' w'|e w']; simpl in Hgr.
    + destruct Hs as [Hs1 Hs2]. rewrite HG, insert_app_middle in Hs1.
      specialize (IH (G1 ++ [bump (capturable w) v g]) k' w').
      rewrite length_app, Nat.add_1_r in IH. specialize (IH Hs1).
      rewrite (gr_cap _ _ Hgr) in IH.
      assert (capturable w = false ∨
              _dummy_overflow_buf w' = v ∧ (∀ d, found_inf_of gs d = v)) as Hv'.
      { destruct Hv as [Hc|[Hbuf Hall]]; [by left|].
        destruct (capturable w); [|by left]. right. split; [|done].
        rewrite Hs2. apply Hall. }
      specialize (IH Hv').
      destruct (for_each _ _ _ _) as [k'' w''|e w''].
      * by rewrite IH, <- app_assoc.
      * destruct IH as (G2' & -> & HF). exists (bump (capturable w) v g :: G2').
        rewrite <- app_assoc. split; [done|]. constructor; [by right|done].
    + destruct Hs as [Hs1 _]. rewrite HG, insert_app_middle, <- app_assoc in Hs1.
      exists (bump (capturable w) v g :: G2). split; [done|].
      constructor; [by right|].
      apply Forall2_same_length_lookup. split; [done|].
      intros j x y ? ?. simplify_eq. by left.
Qed.

Lemma step_counters B gs v w :
  (capturable w = false ∨
   (_dummy_overflow_buf w = v ∧ ∀ d, found_inf_of gs d = v)) →
  match step B None gs w with
  | Ok _ w' => param_groups w' = map (bump (capturable w) v) (param_groups w)
  | Raise _ w' =>
      Forall2 (λ g g', g' = g ∨ g' = bump (capturable w) v g)
        (param_groups w) (param_groups w')
  end.
Proof.
  intros Hv. rewrite step_eq.
  pose proof (step_groups_counters B gs v (param_groups w) [] 0%nat w eq_refl Hv) as H.
  simpl in H. destruct (for_each _ _ _ _) as [k' w'|e w']; [done|].
  by destruct H as (G2' & -> & HF).
Qed.

Local Transparent apply_multi_tensor_adam dispatch.








Lemma bump_params cap v g : group.params (bump cap v g) = group.params g.
Proof. unfold bump. by destruct (group.params g) eqn:E. Qed.

Lemma bump_step cap v g :
  group.params g ≠ [] →
  group.step (bump cap v g) = Some (next_step cap v (group.step g)).
Proof. unfold bump. by destruct (group.params g). Qed.

(** C2, as stated, fails: in non-capturable mode the counter of a group
    none of whose members has a gradient still advances, here from 5 to
    6. *)
Lemma idle_group_counter_advances :
  capturable idle_optimizer = false ∧
  (∀ p, p ∈ [0%nat] → p_grad_of idle_optimizer p = None) ∧
  group.step <$> param_groups idle_optimizer !! 0%nat = Some (Some (PyInt 5)) ∧
  ∃ w', step exact_backend None None idle_optimizer = Ok None w' ∧
        group.step <$> param_groups w' !! 0%nat = Some (Some (PyInt 6)).
Proof.
  split; [done|]. split.
  { intros p Hp. apply list_elem_of_singleton in Hp. by subst. }
  split; [done|]. eexists. split; [vm_compute; reflexivity|done].
Qed.

(** C2, amended: in non-capturable mode an update call that completes
    advances the plain-integer counter of every non-empty group by
    exactly 1, whether or not a member of the group has a gradient; a
    group without counter counts as being at 0. *)
Theorem noncapturable_counter_advances B gs w loss w' i g n :
  capturable w = false →
  step B None gs w = Ok loss w' →
  param_groups w !! i = Some g →
  group.params g ≠ [] →
  group.step g = Some (PyInt n) ∨ (group.step g = None ∧ n = 0) →
  ∃ g', param_groups w' !! i = Some g' ∧ group.step g' = Some (PyInt (n + 1)).
Proof.
  intros Hc Hs Hi Hp Hn.
  pose proof (step_counters B gs 0 w (or_introl Hc)) as H. rewrite Hs in H.
  exists (bump (capturable w) 0 g). split.
  - by rewrite H, list_lookup_fmap, Hi.
  - rewrite bump_step by done. destruct Hn as [Hn|[Hn ->]]; by rewrite Hn, Hc.
Qed.

Lemma noncapturable_counter_advances_witness :
  ∃ g', param_groups (res_world (step exact_backend None None idle_optimizer)) !! 0%nat
          = Some g' ∧ group.step g' = Some (PyInt (5 + 1)).
Proof.
  eapply (noncapturable_counter_advances exact_backend None idle_optimizer None
            (res_world (step exact_backend None None idle_optimizer)) 0%nat
            (mk_group [0%nat] (Some (PyInt 5))) 5).
  - reflexivity.
  - vm_compute; reflexivity.
  - reflexivity.
  - simpl; congruence.
  - left; reflexivity.
Defined.






Lemma sqrt_hundredth : sqrt (1 / 100) = (1 / 10)%R.
Proof.
  replace (1 / 100)%R with ((1 / 10) * (1 / 10))%R by lra.
  apply sqrt_square. lra.
Qed.

Lemma scenario_math :
  ∃ p', adam_math scenario_call (1 / 10) 1 0 0 = (p', (1 / 100)%R, (1 / 100000)%R) ∧
        (Rabs (p' - 999 / 1000) < 1 / 1000000000)%R.
Proof.
  unfold adam_math. simpl.
  replace (999 / 1000 * 0 + (1 - 999 / 1000) * (1 / 10 * (1 / 10)))%R
    with (1 / 100000)%R by lra.
  replace (9 / 10 * 0 + (1 - 9 / 10) * (1 / 10))%R with (1 / 100)%R by lra.
  replace (1 / 100000 / (1 - 999 / 1000 * 1))%R with (1 / 100)%R by lra.
  rewrite sqrt_hundredth.
  eexists. split; [reflexivity|].
  set (d := (1 / 10 + 1 / 100000000)%R).
  assert (d ≠ 0%R) as Hd by (unfold d; lra).
  set (x := (1 / 100 / d)%R).
  assert (x * d = 1 / 100)%R as Hx by (unfold x; field; done).
  apply Rabs_def1; unfold d in Hx; lra.
Qed.

Lemma scenario_step B :
  let r := adam_math scenario_call (1 / 10) 1 0 0 in
  step B None None scenario_optimizer =
    Ok None
      {| param_groups := [group.set_step (PyInt 1) scenario_group];
         state := {[ 0%nat := {| exp_avg := [snd (fst r)]; exp_avg_sq := [snd r];
                                 master_param := None |} ]};
         capturable := false; master_weights := None; adam_w_mode := 1;
         _dummy_overflow_buf := 0;
         heap := heap (upd_heap 0 (set_data [fst (fst r)]) scenario_optimizer);
         trace := [scenario_call] |}.
Proof. reflexivity. Qed.

(** C8: in the scenario of section 8, item 7, the first update call
    completes with one launch of [multi_tensor_adam] at step 1 and
    leaves, by the update mathematics of section 4.4 over the real
    numbers, the first moment 0.01, the second moment 0.00001 and a
    parameter within 1e-9 of 0.999. *)
Theorem scenario_first_update B :
  ∃ w' p',
    step B None None scenario_optimizer = Ok None w' ∧
    trace w' = [scenario_call] ∧
    state w' !! 0%nat =
      Some {| exp_avg := [(1 / 100)%R]; exp_avg_sq := [(1 / 100000)%R];
              master_param := None |} ∧
    data (heap w' 0%nat) = [p'] ∧
    (Rabs (p' - 999 / 1000) < 1 / 1000000000)%R.
Proof.
  destruct scenario_math as (p' & Hm & Hp).
  eexists. exists p'. split; [apply scenario_step|].
  cbv zeta. rewrite Hm. simpl. done.
Qed.




Lemma state_grows_refl w : state_grows w w.
Proof. split; [by rewrite set_state_id|]. by left. Qed.

Lemma state_grows_trans a b c : state_grows a b → state_grows b c → state_grows a c.
Proof.
  intros [Hb Hab] [Hc Hbc]. split.
  { rewrite Hc, Hb. done. }
  intros q. destruct (Hbc q) as [->|(Hn & mp & Hs & Hm)]; [apply Hab|].
  destruct (Hab q) as [Hq|(_ & mp' & Hs' & _)]; [|congruence].
  right. rewrite <- Hq. split; [done|]. exists mp.
  assert (fresh_state b q mp = fresh_state a q mp) as <- by (by rewrite Hb).
  split; [done|]. intros Hw. apply Hm. by rewrite Hb.
Qed.

Lemma state_grows_grows w w' : state_grows w w' → grows w w'.
Proof.
  intros [Hw Hq]. rewrite Hw. apply grows_set_state. intros q s Hs.
  destruct (Hq q) as [Hq'|[? _]]; [by rewrite Hq'|congruence].
Qed.

Lemma state_grows_heap w w' : state_grows w w' → heap w' = heap w.
Proof. intros [Hw _]. by rewrite Hw. Qed.

Lemma state_grows_trace w w' : state_grows w w' → trace w' = trace w.
Proof. intros [Hw _]. by rewrite Hw. Qed.

Lemma state_grows_masters w w' : state_grows w w' → master_weights w' = master_weights w.
Proof. intros [Hw _]. by rewrite Hw. Qed.

Lemma init_state_state_grows p k w : state_grows w (res_world (init_state p k w)).
Proof.
  destruct (init_state_cases p k w) as [(s & Hs & ->)|(Hs & mp & r & -> & Hr)].
  { apply state_grows_refl. }
  assert (res_world (r (set_state (<[p:=fresh_state w p mp]> (state w)) w)) =
          set_state (<[p:=fresh_state w p mp]> (state w)) w) as ->.
  { decompose [and or ex] Hr; subst; done. }
  split; [done|]. intros q. simpl. destruct (decide (q = p)) as [->|Hne].
  - right. split; [done|]. exists mp. rewrite lookup_insert_eq. split; [done|].
    intros Hw. decompose [and or ex] Hr; subst; congruence.
  - left. by rewrite lookup_insert_ne.
Qed.

Lemma classify_state_grows p s w : state_grows w (res_world (classify p s w)).
Proof. rewrite classify_world. apply init_state_state_grows. Qed.

Lemma classify_loop_state_grows l s w :
  state_grows w (res_world (for_each classify l s w)).
Proof.
  apply for_each_closure;
    [apply state_grows_refl|apply state_grows_trans|apply classify_state_grows].
Qed.

(** The rule for the classification loop: an invariant of the buckets,
    indexed by the parameters classified so far, that every
    classification maintains holds when the loop completes. *)
Lemma classify_loop_prefix (Inv : list nat → Buckets → Prop) l s w :
  (∀ pre q post b b' w1,
     l = pre ++ q :: post → state_grows w w1 → is_Some (state w1 !! q) →
     appended w1 q b b' →
     (p_grad_of w1 q ≠ None →
        capturable w1 && nonempty (p_fp8_model b') = false ∧
        has_fp16 b' && has_bf16 b' = false) →
     Inv pre b → Inv (pre ++ [q]) b') →
  Inv [] (snd s) →
  ∀ s' w', for_each classify l s w = Ok s' w' → Inv l (snd s').
Proof.
  intros Hstep H0 s' w' Hrun.
  pose proof (for_each_prefix classify
    (λ pre s0 w0, Inv pre (snd s0) ∧ state_grows w w0) (λ _ _, True) l) as H.
  assert (∀ pre q post s0 w0, l = pre ++ q :: post →
            Inv pre (snd s0) ∧ state_grows w w0 →
            match classify q s0 w0 with
            | Ok s1 w1 => Inv (pre ++ [q]) (snd s1) ∧ state_grows w w1
            | Raise _ _ => True
            end) as Hbody.
  { intros pre q post s0 w0 Hl [HI Hg].
    pose proof (init_state_state_grows q (fst s0) w0) as Hg1.
    pose proof (init_state_is_Some q (fst s0) w0) as Hs1.
    rewrite classify_eq.
    destruct (init_state q (fst s0) w0) as [k w1|e w1]; simpl in *; [|done].
    destruct (judge w1 q (snd s0)) as [e|b'] eqn:Hj; [done|].
    destruct (judge_inr _ _ _ _ Hj) as [Happ Hchk].
    assert (state_grows w w1) by eauto using state_grows_trans.
    split; [|done]. simpl. eapply Hstep; eauto. }
  specialize (H Hbody s w (conj H0 (state_grows_refl w))).
  rewrite Hrun in H. apply H.
Qed.

(** A loop that raises does so in one iteration, after the iterations
    before it have completed. *)
Lemma for_each_raise {A S} (body : A → S → M S) l s w e w' :
  for_each body l s w = Raise e w' →
  ∃ pre x post s0 w0,
    l = pre ++ x :: post ∧ for_each body pre s w = Ok s0 w0 ∧ body x s0 w0 = Raise e w'.
Proof.
  revert s w. induction l as [|x l IH]; intros s w; simpl; [done|].
  unfold bind. destruct (body x s w) as [s1 w1|e1 w1] eqn:Hb.
  - intros Hr. destruct (IH _ _ Hr) as (pre & y & post & s0 & w0 & -> & Hpre & Hy).
    exists (x :: pre), y, post, s0, w0. split; [done|]. split; [|done].
    simpl. unfold bind. by rewrite Hb.
  - intros [= <- <-]. exists [], x, l, s, w. done.
Qed.

Lemma ref_owner_param r p : ref_param r = Some p → ref_owner r = Some p.
Proof. unfold ref_owner. by intros ->. Qed.

Lemma ref_owner_state r p : ref_state r = Some p → ref_owner r = Some p.
Proof. unfold ref_owner. by destruct r. Qed.

Lemma dropped_refl w p : dropped w p w.
Proof.
  split; [apply grows_refl|]. split; [done|]. split; [by left|].
  exists []. by rewrite app_nil_r.
Qed.

Lemma step_group_dropped B gs i k w p w0 :
  truthy (master_weights w) = false → capturable w = false →
  is_Float8Tensor (heap w p) = true →
  dropped w p w0 → dropped w p (res_world (step_group B gs i k w0)).
Proof.
  intros Hm Hc H8 HQ. rewrite step_group_eq.
  destruct (param_groups w0 !! i) as [g|] eqn:Hi; [|done].
  destruct (group.params g) as [|p0 rest] eqn:Hp; [done|]. cbv zeta.
  set (w1 := set_param_groups _ w0).
  assert (dropped w p w1) as HQ1.
  { destruct HQ as (Hg & Hh & Hs & Ht). split; [|done].
    eapply grows_trans; [exact Hg|]. by apply grows_set_step. }
  pose proof (classify_loop_state_grows (p0 :: rest) (k, empty_buckets) w1) as Hsg.
  assert (∀ w2, state_grows w1 w2 → dropped w p w2) as Hloop.
  { intros w2 Hg2. destruct HQ1 as (Hg & Hh & Hs & Ht).
    split; [eauto using grows_trans, state_grows_grows|].
    split; [by rewrite (state_grows_heap _ _ Hg2)|].
    split; [|by rewrite (state_grows_trace _ _ Hg2)].
    destruct Hg2 as [_ Hq]. destruct (Hq p) as [->|(Hn & mp & Hs2 & Hmp)]; [done|].
    rewrite Hs2. rewrite Hmp.
    2:{ rewrite (grows_wants_master _ _ _ Hg). unfold wants_master. by rewrite Hm. }
    right. destruct Hs as [Hs|[_ Hs]]; [|congruence]. split; [congruence|].
    unfold fresh_state. by rewrite Hh. }
  destruct (for_each classify (p0 :: rest) (k, empty_buckets) w1) as [s w2|e w2] eqn:Hrun;
    simpl in Hsg; [|by apply Hloop].
  assert (∀ r, r ∈ soft_refs (snd s) → ref_owner r ≠ Some p) as Hrefs.
  { apply (classify_loop_prefix
             (λ _ b, ∀ r, r ∈ soft_refs b → ref_owner r ≠ Some p)
             (p0 :: rest) (k, empty_buckets) w1) with (w' := w2);
      [|by intros r Hr; apply elem_of_nil in Hr|done].
    intros pre q post b b' w1' _ Hg1' _ Happ _ Hb r Hr.
    destruct (appended_soft_refs _ _ _ _ _ Happ Hr) as [?|[Hq [->| ->]]]; [auto|done|].
    intros [= ->]. rewrite (state_grows_heap _ _ Hg1') in Hq.
    destruct HQ1 as (_ & Hh & _). rewrite Hh in Hq. congruence. }
  specialize (Hloop w2 Hsg).
  assert (capturable w2 = false) as Hc2 by (by rewrite (gr_cap _ _ (proj1 Hloop))).
  assert (truthy (master_weights w2) = false) as Hm2
    by (by rewrite (grows_truthy _ _ (proj1 Hloop))).
  edestruct (dispatch_inv (dropped w p) B gs i) as (w3 & -> & H3); [| |exact H3].
  - by rewrite Hc2.
  - intros w3 c (Hg & Hh & Hs & new & Ht & Hnew) Hl _. rewrite Hc2, Hm2 in Hl.
    assert (∀ r, r ∈ concat (k_lists c) → ref_owner r ≠ Some p) as Hc3.
    { intros r Hr. apply Hrefs. by eapply launches_soft_refs. }
    split; [eauto using grows_trans, run_kernel_grows|].
    split.
    { rewrite run_kernel_heap_other; [done|]. intros r Hr Hp'.
      by eapply Hc3, ref_owner_param. }
    split.
    { rewrite run_kernel_state_other; [done|]. intros r Hr Hp'.
      by eapply Hc3, ref_owner_state. }
    exists (new ++ [c]). split.
    + rewrite (to_trace _ _ (run_kernel_tensors_only B c _)). simpl.
      by rewrite Ht, app_assoc.
    + apply Forall_app. split; [done|]. constructor; [|done].
      split; [by eapply launches_plain|done].
Qed.

Lemma step_dropped B gs w p :
  truthy (master_weights w) = false → capturable w = false →
  is_Float8Tensor (heap w p) = true →
  dropped w p (res_world (step B None gs w)).
Proof.
  intros Hm Hc H8.
  assert (dropped w p (res_world
            (for_each (step_group B gs) (seq 0 (length (param_groups w))) 0%nat w))) as H.
  { refine (for_each_closure (step_group B gs) (λ a b, dropped w p a → dropped w p b)
              _ _ _ _ 0%nat w (dropped_refl w p)); [done|auto|].
    intros x s0 w0. by apply step_group_dropped. }
  rewrite step_eq. by destruct (for_each _ _ _ _).
Qed.

(** C3: without master weights and outside capturable mode, a
    [Float8Tensor] parameter with a dense gradient and initialised
    metadata is classified into the 8-bit bucket without an error; the
    call launches only [multi_tensor_adam], on batches that hold no
    tensor of the parameter; and the call, whatever its outcome, leaves
    the parameter object as it was and its state entry as it was, or
    creates the entry with zero moments if there was none. *)
Theorem fp8_without_master_weights_is_dropped B gs w p g :
  truthy (master_weights w) = false →
  capturable w = false →
  is_Float8Tensor (heap w p) = true →
  grad (heap w p) = Some g → is_sparse g = false →
  fp8_meta_status (heap w p) = None →
  (∀ k b, has_fp16 b && has_bf16 b = false →
     ∃ w1, classify p (k, b) w =
       Ok (k, append_fp8 (_fp8_dtype (heap w p)) (ParamData p)
                (Fp8Scale p, Fp8Amax p, Fp8ScaleInv p) []
                (ParamGrad p) (ExpAvg p) (ExpAvgSq p) b) w1) ∧
  (∃ new, trace (res_world (step B None gs w)) = trace w ++ new ∧
     Forall (λ c, k_func c = multi_tensor_adam ∧
                  ∀ r, r ∈ concat (k_lists c) → ref_owner r ≠ Some p) new) ∧
  heap (res_world (step B None gs w)) p = heap w p ∧
  (state (res_world (step B None gs w)) !! p = state w !! p ∨
   (state w !! p = None ∧
    state (res_world (step B None gs w)) !! p = Some (fresh_state w p None))).
Proof.
  intros Hm Hc H8 Hg Hd Hmeta. split.
  - intros k b Hmix. rewrite classify_eq. simpl.
    pose proof (init_state_state_grows p k w) as Hsg.
    assert (wants_master w p = false) as Hw by (unfold wants_master; by rewrite Hm).
    assert (∃ w1, init_state p k w = Ok k w1) as (w1 & Hi).
    { destruct (init_state_cases p k w) as [(s & _ & ->)|(_ & mp & r & -> & Hr)]; [by eexists|].
      decompose [and or ex] Hr; subst; try congruence. by eexists. }
    rewrite Hi in *. simpl in Hsg. exists w1.
    unfold judge, p_grad_of, main_ref.
    rewrite (state_grows_masters _ _ Hsg), Hm, (state_grows_heap _ _ Hsg), Hg. simpl.
    rewrite Hd, H8, Hmeta. simpl.
    rewrite (gr_cap _ _ (state_grows_grows _ _ Hsg)), Hc. simpl. by rewrite Hmix.
  - destruct (step_dropped B gs w p Hm Hc H8) as (_ & Hh & Hs & Ht). done.
Qed.

Lemma absent_p_grad_of w p :
  resolved_grad_absent w p → is_Some (state w !! p) → p_grad_of w p = None.
Proof.
  intros [Hg Hm] [s Hs]. unfold p_grad_of, p_master_of. rewrite Hg, Hs. simpl.
  destruct (truthy (master_weights w)); [|done]. specialize (Hm eq_refl). rewrite Hs in Hm.
  destruct (master_param s) as [i|]; [|done].
  destruct (master_at w i) as [m|] eqn:Em; [|done]. simpl.
  by rewrite (Hm i m eq_refl Em).
Qed.

Lemma dtype_eqb_false a b : dtype_eqb a b = false ↔ a ≠ b.
Proof. destruct a, b; simpl; split; congruence. Qed.

Lemma quiet_state_grows p d0 w w' : state_grows w w' → quiet p d0 w → quiet p d0 w'.
Proof.
  intros Hsg ([Hg Hm] & Hd & Hz).
  pose proof (state_grows_heap _ _ Hsg) as Hh.
  pose proof (state_grows_masters _ _ Hsg) as Hmw.
  destruct Hsg as [_ Hq]. specialize (Hq p).
  split; [split|split].
  - by rewrite Hh.
  - rewrite Hmw. intros Ht. specialize (Hm Ht). rewrite Hh.
    assert (∀ i, master_at w' i = master_at w i) as Hat
      by (intros; unfold master_at; by rewrite Hmw).
    destruct Hq as [->|(Hn & mp & -> & Hmp)].
    + destruct (state w !! p); intros; eapply Hm; eauto; by rewrite <- Hat.
    + rewrite Hn in Hm. simpl. intros i m -> Hi. rewrite Hat in Hi.
      eapply Hm; [|done]. intros Hf. discriminate Hmp.
      unfold wants_master. rewrite Hf. simpl. by rewrite andb_false_r.
  - by rewrite Hh.
  - intros s Hs. destruct Hq as [Hq|(Hn & mp & Hs' & _)].
    + apply Hz. by rewrite <- Hq.
    + rewrite Hs' in Hs. injection Hs as <-. simpl. by rewrite Hd.
Qed.

Lemma quiet_ext p d0 w w' :
  heap w' = heap w → master_weights w' = master_weights w → state w' = state w →
  quiet p d0 w → quiet p d0 w'.
Proof.
  intros Hh Hm Hs. unfold quiet, resolved_grad_absent, master_at.
  by rewrite Hh, Hm, Hs.
Qed.

Lemma quiet_run_kernel B p d0 c w :
  (∀ r, r ∈ concat (k_lists c) → ref_owner r ≠ Some p) →
  quiet p d0 w → quiet p d0 (run_kernel B c w).
Proof.
  intros Hr ([Hg Hm] & Hd & Hz).
  pose proof (run_kernel_tensors_only B c w) as Hto.
  pose proof (tensors_only_grows _ _ Hto) as Hgr.
  assert (heap (run_kernel B c w) p = heap w p) as Hh.
  { apply run_kernel_heap_other. intros r Hin Hp. by eapply Hr, ref_owner_param. }
  assert (state (run_kernel B c w) !! p = state w !! p) as Hs.
  { apply run_kernel_state_other. intros r Hin Hp. by eapply Hr, ref_owner_state. }
  split; [split|split].
  - by rewrite Hh.
  - rewrite (grows_truthy _ _ Hgr), Hs, Hh. intros Ht. specialize (Hm Ht).
    assert (∀ i m', master_at (run_kernel B c w) i = Some m' →
              ∃ m, master_at w i = Some m ∧ mw_grad m' = mw_grad m) as Hat.
    { intros i m' Hi. destruct (master_at w i) as [m|] eqn:Em.
      - destruct (grows_master_at _ _ _ _ Hgr Em) as (m'' & Hm'' & _ & Hgm).
        exists m. split; [done|]. congruence.
      - rewrite (grows_master_at_None _ _ _ Hgr Em) in Hi. done. }
    destruct (state w !! p).
    + intros i m' Hi Hm'. destruct (Hat _ _ Hm') as (m & ? & ->). eauto.
    + intros Hne i m' Hm'. destruct (Hat _ _ Hm') as (m & ? & ->). eauto.
  - by rewrite Hh.
  - by rewrite Hs.
Qed.

Lemma step_group_quiet B gs i k p d0 w :
  quiet p d0 w → quiet p d0 (res_world (step_group B gs i k w)).
Proof.
  intros HQ. rewrite step_group_eq.
  destruct (param_groups w !! i) as [g|] eqn:Hi; [|done].
  destruct (group.params g) as [|p0 rest] eqn:Hp; [done|]. cbv zeta.
  set (w1 := set_param_groups _ w).
  assert (quiet p d0 w1) as HQ1 by (by apply (quiet_ext p d0 w)).
  pose proof (classify_loop_state_grows (p0 :: rest) (k, empty_buckets) w1) as Hsg.
  destruct (for_each classify (p0 :: rest) (k, empty_buckets) w1) as [s w2|e w2] eqn:Hrun;
    simpl in Hsg; [|by eapply quiet_state_grows].
  assert (∀ r, r ∈ refs (snd s) → ref_owner r ≠ Some p) as Hrefs.
  { apply (classify_loop_prefix
             (λ _ b, ∀ r, r ∈ refs b → ref_owner r ≠ Some p)
             (p0 :: rest) (k, empty_buckets) w1) with (w' := w2);
      [|by intros r Hr; apply elem_of_nil in Hr|done].
    intros pre q post b b' w1' _ Hg1' Hsome Happ _ Hb r Hr.
    destruct (appended_refs _ _ _ _ _ Happ Hr) as [?|[Hq [->| ->]]]; [auto|done|].
    intros [= ->]. apply Hq. apply absent_p_grad_of; [|done].
    by destruct (quiet_state_grows p d0 _ _ Hg1' HQ1). }
  pose proof (quiet_state_grows p d0 _ _ Hsg HQ1) as HQ2.
  edestruct (dispatch_inv (quiet p d0) B gs i) as (w3 & -> & H3); [| |exact H3].
  - destruct (capturable w2); [|done]. by apply (quiet_ext p d0 w2).
  - intros w3 c H3 Hl _. apply quiet_run_kernel.
    + intros r Hr. apply Hrefs. by eapply launches_refs.
    + by apply (quiet_ext p d0 w3).
Qed.

Lemma step_quiet B gs p d0 w :
  quiet p d0 w → quiet p d0 (res_world (step B None gs w)).
Proof.
  intros HQ.
  assert (quiet p d0 (res_world
            (for_each (step_group B gs) (seq 0 (length (param_groups w))) 0%nat w))) as H.
  { refine (for_each_closure (step_group B gs) (λ a b, quiet p d0 a → quiet p d0 b)
              _ _ _ _ 0%nat w HQ); [done|auto|].
    intros x s0 w0. apply step_group_quiet. }
  rewrite step_eq. by destruct (for_each _ _ _ _).
Qed.

(** C7: a parameter for which no update call finds a gradient keeps its
    value, and its moments, once created, are zero, after any number of
    update calls, whatever the weight decay; before the first call the
    parameter has no moments or zero moments. *)
Theorem no_gradient_no_change B p w w' :
  (∀ s, state w !! p = Some s →
     exp_avg s = zeros_like (data (heap w p)) ∧
     exp_avg_sq s = zeros_like (data (heap w p))) →
  quiet_run B p w w' →
  data (heap w' p) = data (heap w p) ∧
  ∀ s, state w' !! p = Some s →
    exp_avg s = zeros_like (data (heap w p)) ∧
    exp_avg_sq s = zeros_like (data (heap w p)).
Proof.
  intros H0 Hrun. induction Hrun as [|w1 w2 gs Hrun IH [Hd Hs] Hg]; [done|].
  destruct IH as [IH1 IH2].
  destruct (step_quiet B gs p (data (heap w p)) w2) as (_ & H1 & H2); [|done].
  split; [done|]. split; [congruence|]. intros s. rewrite Hs. apply IH2.
Qed.

Lemma is_pending_grows w w' q : grows w w' → is_pending w q = true → is_pending w' q = true.
Proof.
  intros Hg. unfold is_pending. destruct (state w !! q) as [s|] eqn:Hs.
  { by rewrite (grows_p_grad_of _ _ _ _ Hg Hs). }
  unfold p_grad_of, p_master_of at 1. rewrite Hs.
  rewrite (ss_grad _ _ (gr_heap _ _ Hg q)).
  destruct (grad (heap w q)); [|by destruct (truthy _)]. intros _. simpl.
  destruct (truthy (master_weights w')); [|done].
  destruct (p_master_of w' q) as [[i m]|]; [|done]. by destruct (mw_grad m).
Qed.

Lemma pending_f16_grows w w' q : grows w w' → pending_f16 w q = true → pending_f16 w' q = true.
Proof.
  intros Hg. unfold pending_f16. rewrite !andb_true_iff. intros [[H1 H2] H3].
  destruct (gr_heap _ _ Hg q) as [-> -> _ _ _ _ _]. eauto using is_pending_grows.
Qed.

Lemma pending_bf16_grows w w' q : grows w w' → pending_bf16 w q = true → pending_bf16 w' q = true.
Proof.
  intros Hg. unfold pending_bf16. rewrite !andb_true_iff. intros [[H1 H2] H3].
  destruct (gr_heap _ _ Hg q) as [-> -> _ _ _ _ _]. eauto using is_pending_grows.
Qed.

Lemma pending_fp8_grows w w' q : grows w w' → pending_fp8 w q = true → pending_fp8 w' q = true.
Proof.
  intros Hg. unfold pending_fp8. rewrite !andb_true_iff. intros [H1 H2].
  destruct (gr_heap _ _ Hg q) as [_ -> _ _ _ _ _]. eauto using is_pending_grows.
Qed.

Lemma existsb_elem {A} (f : A → bool) l : existsb f l = true ↔ ∃ x, x ∈ l ∧ f x = true.
Proof.
  rewrite existsb_exists. split; intros (x & ? & ?); exists x; by rewrite ?list_elem_of_In in *.
Qed.

Lemma grows_group w w' i g :
  grows w w' → param_groups w !! i = Some g →
  ∃ g', param_groups w' !! i = Some g' ∧ group.params g' = group.params g.
Proof.
  intros Hg Hi. destruct (Forall2_lookup_l _ _ _ _ _ (gr_groups _ _ Hg) Hi) as (g' & ? & ? & _).
  by exists g'.
Qed.



(** The launches made for group [j] are recorded under [j], after what
    the trace held. *)
Lemma step_group_trace B gs j k w :
  ∃ new, trace (res_world (step_group B gs j k w)) = trace w ++ new ∧
         Forall (λ c, k_group c = j) new.
Proof.
  rewrite step_group_eq.
  assert (∃ new, trace w = trace w ++ new ∧ Forall (λ c, k_group c = j) new) as Hnil
    by (exists []; by rewrite app_nil_r).
  destruct (param_groups w !! j) as [g|] eqn:Hi; [|done].
  destruct (group.params g) as [|p0 rest] eqn:Hp; [done|]. cbv zeta.
  set (w1 := set_param_groups _ w).
  pose proof (classify_loop_state_grows (p0 :: rest) (k, empty_buckets) w1) as Hsg.
  destruct (for_each classify (p0 :: rest) (k, empty_buckets) w1) as [s w2|e w2];
    simpl in Hsg; apply state_grows_trace in Hsg; [|simpl; by rewrite Hsg].
  edestruct (dispatch_inv (λ w', ∃ new, trace w' = trace w ++ new
                              ∧ Forall (λ c, k_group c = j) new) B gs j)
    as (w3 & -> & H3); [| |exact H3].
  - destruct (capturable w2); simpl; by rewrite Hsg.
  - intros w3 c (new & Ht & Hnew) _ (Hj & _). exists (new ++ [c]). split.
    + rewrite (to_trace _ _ (run_kernel_tensors_only B c _)). simpl.
      by rewrite Ht, app_assoc.
    + apply Forall_app. split; [done|]. by constructor.
Qed.

(** A group that cannot be processed without an exception stops the
    call: the launches recorded by then are those of earlier groups. *)
Lemma step_doomed B gs (D : FusedAdam → Prop) i w :
  (∀ w0 w1, D w0 → grows w0 w1 → D w1) →
  (∀ w0 k, D w0 → ∃ e w', step_group B gs i k w0 = Raise e w' ∧ trace w' = trace w0) →
  (i < length (param_groups w))%nat → D w →
  ∃ e w', step B None gs w = Raise e w' ∧
    ∃ new, trace w' = trace w ++ new ∧ Forall (λ c, (k_group c < i)%nat) new.
Proof.
  intros Hstable Hdoom Hi HD.
  assert (∀ n a k w0, (a ≤ i < a + n)%nat → D w0 →
            ∃ e w', for_each (step_group B gs) (seq a n) k w0 = Raise e w' ∧
              ∃ new, trace w' = trace w0 ++ new ∧
                     Forall (λ c, (k_group c < i)%nat) new) as H.
  { induction n as [|n IH]; intros a k w0 Ha HD0; [lia|]. simpl. unfold bind.
    destruct (decide (a = i)) as [->|Hne].
    - destruct (Hdoom w0 k HD0) as (e & w' & -> & Ht).
      exists e, w'. split; [done|]. exists []. by rewrite app_nil_r.
    - destruct (step_group_trace B gs a k w0) as (new & Ht & Hnew).
      pose proof (step_group_grows B gs a k w0) as Hg.
      assert (Forall (λ c, (k_group c < i)%nat) new) as Hnew'.
      { eapply Forall_impl; [exact Hnew|]. simpl. intros c ->. lia. }
      destruct (step_group B gs a k w0) as [k' w1|e w1]; simpl in *.
      + destruct (IH (S a) k' w1) as (e & w' & -> & new' & Ht' & Hn'); [lia|eauto|].
        exists e, w'. split; [done|]. exists (new ++ new'). split.
        * by rewrite Ht', Ht, app_assoc.
        * by apply Forall_app.
      + exists e, w1. split; [done|]. by exists new. }
  destruct (H (length (param_groups w)) 0%nat 0%nat w) as (e & w' & Hr & Ht); [lia|done|].
  exists e, w'. split; [|done]. by rewrite step_eq, Hr.
Qed.

Lemma appended_flags w q b b' :
  appended w q b b' →
  (pending_f16 w q = true → has_fp16 b' = true) ∧
  (pending_bf16 w q = true → has_bf16 b' = true) ∧
  (has_fp16 b = true → has_fp16 b' = true) ∧
  (has_bf16 b = true → has_bf16 b' = true) ∧
  (pending_fp8 w q = true → capturable w = false).
Proof.
  unfold pending_f16, pending_bf16, pending_fp8, is_pending.
  intros [Hg|gref g pm Hg _ H8 _ _ Hc|gref g pm Hg _ H8 Hd _|gref g Hg _ H8 Hd];
    rewrite Hg, ?H8; simpl.
  - repeat split; done.
  - repeat split; done.
  - repeat split; try done; intros ->; try done; by rewrite orb_true_r.
  - rewrite Hd. repeat split; done.
Qed.

(** The classification loop of a group that mixes [float16] and
    [bfloat16] members with gradients cannot complete. *)
Lemma classify_loop_mix_raises l k w :
  existsb (pending_f16 w) l && existsb (pending_bf16 w) l = true →
  ∃ e w', for_each classify l (k, empty_buckets) w = Raise e w' ∧ trace w' = trace w.
Proof.
  rewrite andb_true_iff, !existsb_elem. intros [(a & Ha & Hpa) (c & Hc & Hpc)].
  pose proof (classify_loop_state_grows l (k, empty_buckets) w) as Hsg.
  destruct (for_each classify l (k, empty_buckets) w) as [s w2|e w2] eqn:Hrun; simpl in Hsg.
  2:{ exists e, w2. split; [done|]. by apply state_grows_trace. }
  exfalso.
  assert ((∀ x, x ∈ l → pending_f16 w x = true → has_fp16 (snd s) = true) ∧
          (∀ x, x ∈ l → pending_bf16 w x = true → has_bf16 (snd s) = true) ∧
          has_fp16 (snd s) && has_bf16 (snd s) = false) as (H1 & H2 & H3).
  { apply (classify_loop_prefix
             (λ pre b, (∀ x, x ∈ pre → pending_f16 w x = true → has_fp16 b = true) ∧
                       (∀ x, x ∈ pre → pending_bf16 w x = true → has_bf16 b = true) ∧
                       has_fp16 b && has_bf16 b = false)
             l (k, empty_buckets) w) with (w' := w2); [| |done].
    2:{ split; [|split; [|done]]; intros x Hx; by apply elem_of_nil in Hx. }
    intros pre q post b b' w1 _ Hg1 _ Happ Hchk (I1 & I2 & I3).
    destruct (appended_flags _ _ _ _ Happ) as (F1 & F2 & F3 & F4 & _).
    apply state_grows_grows in Hg1.
    split; [|split].
    - intros x Hx Hp. apply elem_of_app in Hx as [Hx|Hx]; [eauto|].
      apply list_elem_of_singleton in Hx as ->. eauto using pending_f16_grows.
    - intros x Hx Hp. apply elem_of_app in Hx as [Hx|Hx]; [eauto|].
      apply list_elem_of_singleton in Hx as ->. eauto using pending_bf16_grows.
    - destruct Happ as [Hn| | |]; [done|apply Hchk; congruence..]. }
  rewrite (H1 a), (H2 c) in H3; done.
Qed.

(** In capturable mode the classification loop of a group with a
    [Float8Tensor] member that has a gradient cannot complete. *)
Lemma classify_loop_fp8_raises l k w :
  capturable w = true → existsb (pending_fp8 w) l = true →
  ∃ e w', for_each classify l (k, empty_buckets) w = Raise e w' ∧ trace w' = trace w.
Proof.
  rewrite existsb_elem. intros Hcap (a & Ha & Hpa).
  pose proof (classify_loop_state_grows l (k, empty_buckets) w) as Hsg.
  destruct (for_each classify l (k, empty_buckets) w) as [s w2|e w2] eqn:Hrun; simpl in Hsg.
  2:{ exists e, w2. split; [done|]. by apply state_grows_trace. }
  exfalso.
  assert (a ∉ l) as Hno; [|done].
  apply (classify_loop_prefix (λ pre _, a ∉ pre) l (k, empty_buckets) w)
    with (s' := s) (w' := w2); [| |done].
  2:{ apply not_elem_of_nil. }
  intros pre q post b b' w1 _ Hg1 _ Happ _ Hpre Hx.
  apply elem_of_app in Hx as [Hx|Hx]; [done|].
  apply list_elem_of_singleton in Hx as ->.
  destruct (appended_flags _ _ _ _ Happ) as (_ & _ & _ & _ & F5).
  apply state_grows_grows in Hg1.
  rewrite (gr_cap _ _ Hg1), Hcap in F5. discriminate F5. eauto using pending_fp8_grows.
Qed.

Lemma step_group_loop_raises B gs i k w g :
  param_groups w !! i = Some g →
  (∀ w1, grows w w1 → trace w1 = trace w →
     ∃ e w', for_each classify (group.params g) (k, empty_buckets) w1 = Raise e w'
             ∧ trace w' = trace w1) →
  ∃ e w', step_group B gs i k w = Raise e w' ∧ trace w' = trace w.
Proof.
  intros Hi Hloop. rewrite step_group_eq, Hi.
  destruct (group.params g) as [|p0 rest] eqn:Hp.
  { destruct (Hloop w (grows_refl w) eq_refl) as (e & w' & He & _). done. }
  cbv zeta. edestruct Hloop as (e & w' & -> & Ht); [by apply grows_set_step|done|].
  by exists e, w'.
Qed.

Lemma plain_p_grad_of w q :
  truthy (master_weights w) = false →
  p_grad_of w q = option_map (λ g, (ParamGrad q, g)) (grad (heap w q)).
Proof. intros H. unfold p_grad_of. by rewrite H. Qed.

Lemma plain_p_grad_of_grows w w' q :
  grows w w' → truthy (master_weights w) = false → p_grad_of w' q = p_grad_of w q.
Proof.
  intros Hg Hm. rewrite !plain_p_grad_of by (by rewrite ?(grows_truthy _ _ Hg)).
  by rewrite (ss_grad _ _ (gr_heap _ _ Hg q)).
Qed.


Lemma pending_plain_grows w w' q :
  grows w w' → truthy (master_weights w) = false →
  pending_f16 w' q = pending_f16 w q ∧ pending_bf16 w' q = pending_bf16 w q ∧
  pending_fp8 w' q = pending_fp8 w q.
Proof.
  intros Hg Hm. unfold pending_f16, pending_bf16, pending_fp8, is_pending.
  rewrite (plain_p_grad_of_grows _ _ _ Hg Hm).
  by destruct (gr_heap _ _ Hg q) as [-> -> _ _ _ _ _].
Qed.

(** In a store without master weights whose parameter [q] passes the
    other guards, the classification of [q] can only raise the error of
    an 8-bit parameter in capturable mode or the error of mixed 16-bit
    types. *)
Lemma judge_clean w q b e :
  truthy (master_weights w) = false → clean_param w q = true →
  (capturable w = true → nonempty (p_fp8_model b) = false) →
  has_fp16 b && has_bf16 b = false →
  judge w q b = inl e →
  (e = RuntimeError msg_fp8_capturable ∧ capturable w = true ∧ pending_fp8 w q = true) ∨
  (e = RuntimeError msg_mix ∧
   (has_fp16 b = true ∨ pending_f16 w q = true) ∧
   (has_bf16 b = true ∨ pending_bf16 w q = true)).
Proof.
  intros Hm Hcl Hcap Hmix. unfold judge, clean_param, main_ref in *.
  unfold pending_fp8, pending_f16, pending_bf16, is_pending. rewrite Hm in *.
  destruct (p_grad_of w q) as [[gref g]|]; [|done].
  apply andb_true_iff in Hcl as [Hsp Hty].
  destruct (is_sparse g); [done|].
  destruct (is_Float8Tensor (heap w q)).
  - destruct (fp8_meta_status (heap w q)); [done|]. simpl.
    rewrite nonempty_app_r, andb_true_r.
    destruct (capturable w); [intros [= <-]; by left|].
    by rewrite Hmix.
  - destruct (dtype_eqb (dtype (heap w q)) float16 || dtype_eqb (dtype (heap w q)) bfloat16)
      eqn:E16.
    + simpl. destruct (capturable w && nonempty (p_fp8_model b)) eqn:Ec.
      { apply andb_true_iff in Ec as [Ec1 Ec2]. rewrite Hcap in Ec2; done. }
      destruct ((has_fp16 b || dtype_eqb (dtype (heap w q)) float16)
                && (has_bf16 b || dtype_eqb (dtype (heap w q)) bfloat16)) eqn:Ex; [|done].
      intros [= <-]. right. split; [done|].
      apply andb_true_iff in Ex as [E1 E2]. apply orb_true_iff in E1, E2. done.
    + simpl in Hty. rewrite Hty. simpl.
      destruct (capturable w && nonempty (p_fp8_model b)) eqn:Ec.
      { apply andb_true_iff in Ec as [Ec1 Ec2]. rewrite Hcap in Ec2; done. }
      by rewrite Hmix.
Qed.

Lemma appended_flags_inv w q b b' :
  appended w q b b' →
  (has_fp16 b' = true → has_fp16 b = true ∨ pending_f16 w q = true) ∧
  (has_bf16 b' = true → has_bf16 b = true ∨ pending_bf16 w q = true) ∧
  (nonempty (p_fp8_model b') = true →
     nonempty (p_fp8_model b) = true ∨ capturable w = false).
Proof.
  unfold pending_f16, pending_bf16, is_pending.
  intros [Hg|gref g pm Hg _ H8 _ _ Hc|gref g pm Hg _ H8 Hd _|gref g Hg _ H8 Hd];
    rewrite ?Hg, ?H8; simpl; auto.
  rewrite !orb_true_iff. tauto.
Qed.

Lemma existsb_prefix {A} (f : A → bool) pre x post :
  (existsb f pre = true ∨ f x = true) → existsb f (pre ++ x :: post) = true.
Proof.
  rewrite existsb_app. simpl. intros [->| ->]; [done|]. by rewrite orb_true_r.
Qed.


Lemma existsb_ext_in {A} (f g : A → bool) l :
  (∀ x, f x = g x) → existsb f l = existsb g l.
Proof. intros H. induction l; simpl; [done|]. by rewrite H, IHl. Qed.

Lemma forallb_elem {A} (f : A → bool) l : forallb f l = true ↔ ∀ x, x ∈ l → f x = true.
Proof.
  rewrite forallb_forall. split; intros H x Hx; apply H; by rewrite ?list_elem_of_In in *.
Qed.




Lemma slots_consistent w n k w' : slots w n k w' → consistent w w'.
Proof.
  intros [_ _ Hd Hr] j q s i Hj Hs Hi.
  destruct (decide (j < n)%nat) as [Hlt|Hge].
  - destruct (Hd j q Hlt Hj) as (s' & Hs' & Hm & _). simplify_eq.
    rewrite Hi in Hm. destruct (non_f32 w q); by simplify_eq.
  - rewrite (Hr j q) in Hs by (done || lia). done.
Qed.

Lemma rank_S w n q :
  encounter_order w !! n = Some q →
  rank w (S n) = (rank w n + (if non_f32 w q then 1 else 0))%nat.
Proof.
  intros Hq. unfold rank. rewrite (take_S_r _ _ _ Hq), List.filter_app, length_app.
  simpl. by destruct (non_f32 w q).
Qed.

Lemma classify_slots w n k b w1 q :
  truthy (master_weights w) = true → NoDup (encounter_order w) →
  slots w n k w1 → encounter_order w !! n = Some q →
  match classify q (k, b) w1 with
  | Ok s2 w2 => slots w (S n) (fst s2) w2
  | Raise _ w2 => consistent w w2
  end.
Proof.
  intros Hm Hnd Hsl Hq. pose proof Hsl as [Hg Hk Hd Hr].
  assert (state w1 !! q = None) as Hnone by (by apply (Hr n)).
  assert (wants_master w1 q = non_f32 w q) as Hw.
  { rewrite (grows_wants_master _ _ _ Hg). unfold wants_master, non_f32. by rewrite Hm. }
  assert (∀ j q', j ≠ n → encounter_order w !! j = Some q' → q' ≠ q) as Hother.
  { intros j q' Hne Hj ->. apply Hne. by eapply NoDup_lookup. }
  assert (∀ mp, (∀ i, mp = Some i → non_f32 w q = true ∧ i = k) →
            consistent w (set_state (<[q := fresh_state w1 q mp]> (state w1)) w1)) as Hcons.
  { intros mp Hmp j q' s i Hj Hs Hi. simpl in Hs.
    destruct (decide (j = n)) as [->|Hne].
    - assert (q' = q) as -> by congruence.
      rewrite lookup_insert_eq in Hs. injection Hs as <-. simpl in Hi.
      destruct (Hmp i Hi) as [? ->]. done.
    - rewrite lookup_insert_ne in Hs by (apply not_eq_sym; eauto).
      eapply (slots_consistent _ _ _ _ Hsl); eauto. }
  assert (∀ mp k',
            mp = (if non_f32 w q then Some k else None) →
            k' = (if non_f32 w q then S k else k) →
            (non_f32 w q = true →
               ∃ m, master_at w k = Some m ∧ mw_shape m = shape (heap w q)) →
            slots w (S n) k' (set_state (<[q := fresh_state w1 q mp]> (state w1)) w1))
    as Hslots.
  { intros mp k' -> -> Hshape. split.
    - eapply grows_trans; [exact Hg|]. apply grows_set_state.
      intros x s Hs. rewrite lookup_insert_ne; [done|]. intros ->. congruence.
    - rewrite (rank_S _ _ _ Hq), <- Hk. destruct (non_f32 w q); lia.
    - intros j q' Hj Hq'. simpl. destruct (decide (j = n)) as [->|Hne].
      + assert (q' = q) as -> by congruence.
        rewrite lookup_insert_eq. eexists. split; [done|]. simpl.
        rewrite <- Hk. split; [done|]. done.
      + rewrite lookup_insert_ne by (apply not_eq_sym; eauto).
        apply Hd; [lia|done].
    - intros j q' Hj Hq'. simpl.
      rewrite lookup_insert_ne by (apply not_eq_sym; apply (Hother j); [lia|done]).
      apply (Hr j); [lia|done]. }
  rewrite classify_eq. simpl.
  destruct (init_state_cases q k w1) as [(s & Hs & _)|(_ & mp & r & -> & Hc)]; [congruence|].
  destruct Hc as [(-> & Hwf & ->)|[(-> & Hwt & Hat & ->)|(-> & Hwt & m & Hat & Hsh)]].
  - rewrite Hw in Hwf.
    destruct (judge _ q b) as [e|b'].
    + apply Hcons. done.
    + simpl. apply Hslots; rewrite Hwf; done.
  - apply Hcons. done.
  - rewrite Hw in Hwt.
    assert (∃ m0, master_at w k = Some m0 ∧ mw_shape m0 = mw_shape m) as (m0 & Hat0 & Hsh0).
    { destruct (master_at w k) as [m0|] eqn:E.
      - destruct (grows_master_at _ _ _ _ Hg E) as (m' & Hm' & Hs' & _).
        exists m0. split; [done|]. congruence.
      - rewrite (grows_master_at_None _ _ _ Hg E) in Hat. done. }
    destruct Hsh as [[Hsh ->]|[Hsh ->]].
    + destruct (judge _ q b) as [e|b'].
      * apply Hcons. intros i [= <-]. done.
      * simpl. apply Hslots; rewrite ?Hwt; try done.
        intros _. exists m0. split; [done|].
        rewrite Hsh0, Hsh. by rewrite (ss_shape _ _ (gr_heap _ _ Hg q)).
    + apply Hcons. intros i [= <-]. done.
Qed.

Lemma drop_head {A} (l : list A) n x r : drop n l = x :: r → l !! n = Some x.
Proof.
  intros H. pose proof (lookup_drop l n 0) as H0. rewrite H in H0. simpl in H0.
  by rewrite Nat.add_0_r in H0.
Qed.

Lemma drop_tail {A} (l : list A) n x r : drop n l = x :: r → drop (S n) l = r.
Proof.
  intros H. change (S n) with (1 + n)%nat. rewrite Nat.add_comm, <- drop_drop, H. done.
Qed.

Lemma classify_loop_slots w :
  truthy (master_weights w) = true → NoDup (encounter_order w) →
  ∀ l n k b w1 post,
    drop n (encounter_order w) = l ++ post → slots w n k w1 →
    match for_each classify l (k, b) w1 with
    | Ok s2 w2 => slots w (n + length l) (fst s2) w2
    | Raise _ w2 => consistent w w2
    end.
Proof.
  intros Hm Hnd. induction l as [|q l IH]; intros n k b w1 post Hdrop Hsl; simpl.
  { by rewrite Nat.add_0_r. }
  unfold bind.
  pose proof (classify_slots w n k b w1 q Hm Hnd Hsl (drop_head _ _ _ _ Hdrop)) as H.
  destruct (classify q (k, b) w1) as [[k' b'] w2|e w2]; [|done]. simpl in H.
  specialize (IH (S n) k' b' w2 post (drop_tail _ _ _ _ Hdrop) H).
  by rewrite Nat.add_succ_r.
Qed.

Lemma slots_ext w n k a b :
  grows a b → state b = state a → slots w n k a → slots w n k b.
Proof.
  intros Hg Hs [Hg0 Hk Hd Hr]. split; [eauto using grows_trans|done|..]; by rewrite Hs.
Qed.

Lemma slots_tensors_only w n k a b :
  tensors_only a b → slots w n k a → slots w n k b.
Proof.
  intros Hto [Hg0 Hk Hd Hr]. split; [eauto using grows_trans, tensors_only_grows|done|..].
  - intros j q Hj Hq. destruct (Hd j q Hj Hq) as (s & Hs & Hm & Hsh).
    pose proof (to_state _ _ Hto q) as Hrel. rewrite Hs in Hrel.
    inversion Hrel as [? s' Heq|]; subst. exists s'. split; [done|]. by rewrite Heq.
  - intros j q Hj Hq. pose proof (to_state _ _ Hto q) as Hrel.
    rewrite (Hr j q Hj Hq) in Hrel. by inversion Hrel.
Qed.

Lemma dispatch_slots B gs i g beta1 beta2 bc dev b w n k w2 :
  slots w n k w2 →
  ∃ w3, dispatch B gs i g beta1 beta2 bc dev b w2 = Ok tt w3 ∧ slots w n k w3.
Proof.
  intros Hsl. apply (dispatch_inv (slots w n k)).
  - destruct (capturable w2); [|done].
    by apply (slots_ext w n k w2); [apply grows_set_overflow_buf| |].
  - intros w0 c H0 _ _. eapply slots_tensors_only; [apply run_kernel_tensors_only|].
    by apply (slots_ext w n k w0); [apply grows_set_trace| |].
Qed.

Lemma slots_ge w n k w' :
  (length (encounter_order w) ≤ n)%nat → slots w n k w' →
  slots w (length (encounter_order w)) k w'.
Proof.
  intros Hn [Hg Hk Hd Hr]. split; [done| | |].
  - rewrite Hk. unfold rank. by rewrite !take_ge by lia.
  - intros j q Hj. apply Hd. lia.
  - intros j q Hj Hq. apply lookup_lt_Some in Hq. lia.
Qed.

Lemma step_groups_slots B gs w :
  truthy (master_weights w) = true → NoDup (encounter_order w) →
  ∀ G2 a n k w0,
    drop a (param_groups w) = G2 →
    drop n (encounter_order w) = concat (map group.params G2) →
    slots w n k w0 →
    match for_each (step_group B gs) (seq a (length G2)) k w0 with
    | Ok k' w' => slots w (length (encounter_order w)) k' w'
    | Raise _ w' => consistent w w'
    end.
Proof.
  intros Hm Hnd. induction G2 as [|g G2 IH]; intros a n k w0 HG Hall Hsl; simpl.
  { apply (slots_ge w n); [|done]. simpl in Hall.
    apply (f_equal length) in Hall. rewrite length_drop in Hall. simpl in Hall. lia. }
  unfold bind. simpl in Hall.
  pose proof (drop_head _ _ _ _ HG) as Hi.
  destruct (grows_group _ _ _ _ (sl_grows _ _ _ _ Hsl) Hi) as (g' & Hi' & Hp').
  rewrite step_group_eq, Hi'.
  destruct (group.params g') as [|p0 rest] eqn:Hp.
  { apply (IH (S a) n k w0); [exact (drop_tail _ _ _ _ HG)| |done]. by rewrite <- Hp' in Hall. }
  cbv zeta. set (w1 := set_param_groups _ w0).
  assert (slots w n k w1) as Hsl1.
  { apply (slots_ext w n k w0); [by apply grows_set_step|done|done]. }
  rewrite <- Hp' in Hall.
  pose proof (classify_loop_slots w Hm Hnd (p0 :: rest) n k empty_buckets w1 _ Hall Hsl1) as H.
  destruct (for_each classify (p0 :: rest) (k, empty_buckets) w1) as [s w2|e w2]; [|done].
  edestruct (dispatch_slots B gs a) as (w3 & -> & H3); [exact H|].
  apply (IH (S a) (n + length (p0 :: rest))%nat (fst s) w3); [exact (drop_tail _ _ _ _ HG)| |done].
  rewrite <- drop_drop, Hall. apply drop_app_length.
Qed.

Lemma slots_start w :
  (∀ q, q ∈ encounter_order w → state w !! q = None) → slots w 0 0 w.
Proof.
  intros H. split; [apply grows_refl|done|intros; lia|].
  intros j q _ Hq. apply H. by eapply list_elem_of_lookup_2.
Qed.

(** The master parameter of a state entry is never reassigned. *)
Lemma step_keeps_master_param B gs w q s :
  state w !! q = Some s →
  ∃ s', state (res_world (step B None gs w)) !! q = Some s' ∧
        master_param s' = master_param s.
Proof. intros Hs. by apply (gr_state _ _ (step_grows B gs w)). Qed.

(** C4, amended: with master weights, in an update call entered while
    no parameter of the optimizer has a state yet (a first call) and in
    which no parameter occurs twice, a parameter gets a master parameter
    only if it is not 32-bit, and then the entry of [master_weights]
    whose index is the number of parameters that are not 32-bit before
    it in encounter order, within and across groups; when the call
    completes, every parameter that is not 32-bit has that entry and the
    entry has the shape of the parameter; and no later call changes the
    master parameter of a state entry. *)
Theorem master_slots_follow_encounter_order B gs w :
  truthy (master_weights w) = true →
  NoDup (encounter_order w) →
  (∀ q, q ∈ encounter_order w → state w !! q = None) →
  (∀ j q s i, encounter_order w !! j = Some q →
     state (res_world (step B None gs w)) !! q = Some s →
     master_param s = Some i → non_f32 w q = true ∧ i = rank w j) ∧
  (∀ loss w', step B None gs w = Ok loss w' →
     ∀ j q, encounter_order w !! j = Some q → non_f32 w q = true →
       ∃ s m, state w' !! q = Some s ∧ master_param s = Some (rank w j) ∧
              master_at w (rank w j) = Some m ∧ mw_shape m = shape (heap w q)) ∧
  (∀ w0 gs0 q s, state w0 !! q = Some s →
     ∃ s', state (res_world (step B None gs0 w0)) !! q = Some s' ∧
           master_param s' = master_param s).
Proof.
  intros Hm Hnd Hfresh.
  pose proof (step_groups_slots B gs w Hm Hnd (param_groups w) 0%nat 0%nat 0%nat w
                eq_refl eq_refl (slots_start w Hfresh)) as H.
  split; [|split].
  - rewrite step_eq. destruct (for_each _ _ _ _) as [k' w'|e w']; simpl.
    + by eapply slots_consistent.
    + done.
  - intros loss w' Hs j q Hq Hnf. rewrite step_eq in Hs.
    destruct (for_each _ _ _ _) as [k' w''|e w'']; [|done]. injection Hs as _ ->.
    destruct (sl_done _ _ _ _ H j q) as (s & Hst & Hmp & Hsh);
      [by eapply lookup_lt_Some|done|].
    rewrite Hnf in Hmp. destruct (Hsh Hnf) as (m & ? & ?). by exists s, m.
  - intros w0 gs0 q s. apply step_keeps_master_param.
Qed.

Lemma fp8_without_master_weights_is_dropped_witness :
  heap (res_world (step exact_backend None None (fp8_optimizer false))) 0%nat
    = heap (fp8_optimizer false) 0%nat.
Proof.
  apply (fp8_without_master_weights_is_dropped exact_backend None (fp8_optimizer false)
           0%nat {| g_data := [1%R]; is_sparse := false |}); reflexivity.
Defined.




(** C4, as stated, fails. A master weight is assigned before its shape
    is compared: after the assertion error the state holds a master
    parameter of another shape. And the index restarts at 0 in every
    call: when the first call stops at the first parameter, the second
    call gives the second parameter the master weight of the first. *)
Lemma master_slot_counterexamples :
  (∃ w' s m,
     step exact_backend None None mismatched_optimizer
       = Raise (AssertionError msg_shape) w' ∧
     state w' !! 0%nat = Some s ∧ master_param s = Some 0%nat ∧
     master_at w' 0 = Some m ∧ mw_shape m ≠ shape (heap w' 0%nat)) ∧
  (∃ w1 w2,
     step exact_backend None None sparse_first_optimizer
       = Raise (RuntimeError msg_sparse) w1 ∧
     step exact_backend None None (upd_heap 0 (set_grad None) w1) = Ok None w2 ∧
     master_param <$> state w2 !! 0%nat = Some (Some 0%nat) ∧
     master_param <$> state w2 !! 1%nat = Some (Some 0%nat)).
Proof.
  split.
  - eexists. eexists. eexists. split; [vm_compute; reflexivity|].
    split; [reflexivity|]. split; [reflexivity|]. split; [reflexivity|]. simpl. congruence.
  - eexists. eexists. split; [vm_compute; reflexivity|].
    split; [vm_compute; reflexivity|]. split; reflexivity.
Qed.

Lemma master_slots_follow_encounter_order_witness :
  ∃ s m,
    state (res_world (step exact_backend None None master_optimizer)) !! 2%nat = Some s ∧
    master_param s = Some (rank master_optimizer 2) ∧
    master_at master_optimizer (rank master_optimizer 2) = Some m ∧
    mw_shape m = shape (heap master_optimizer 2%nat).
Proof.
  apply (proj1 (proj2 (master_slots_follow_encounter_order exact_backend None
                         master_optimizer eq_refl
                         ltac:(vm_compute; compute_done)
                         (λ q _, eq_refl)))
           None (res_world (step exact_backend None None master_optimizer))
           ltac:(vm_compute; reflexivity) 2%nat 2%nat eq_refl eq_refl).
Defined.

Lemma no_gradient_no_change_witness :
  data (heap (res_world (step exact_backend None None half_idle_optimizer)) 1%nat)
    = data (heap half_idle_optimizer 1%nat) ∧
  ∀ s, state (res_world (step exact_backend None None half_idle_optimizer)) !! 1%nat
         = Some s →
    exp_avg s = zeros_like (data (heap half_idle_optimizer 1%nat)) ∧
    exp_avg_sq s = zeros_like (data (heap half_idle_optimizer 1%nat)).
Proof.
  apply (no_gradient_no_change exact_backend 1%nat half_idle_optimizer).
  - intros s Hs. discriminate Hs.
  - apply (quiet_call exact_backend 1%nat half_idle_optimizer half_idle_optimizer
             half_idle_optimizer None).
    + apply quiet_start.
    + split; reflexivity.
    + split; [reflexivity|]. intros Ht. discriminate Ht.
Defined.

(** The same for a gradient that is present and zero: without weight
    decay the update mathematics maps zero moments and a zero gradient
    to zero moments and the same parameter. *)
Lemma adam_math_zero_gradient c p :
  k_wd c = 0%R → adam_math c 0 p 0 0 = (p, 0%R, 0%R).
Proof.
  intros Hwd. unfold adam_math. rewrite Hwd.
  destruct (is_capturable_kernel (k_func c)), (k_mode c =? 0), (k_bias c =? 0);
    (apply pair_equal_spec; split; [apply pair_equal_spec; split|]);
    unfold Rdiv; ring.
Qed.

Lemma set_grad_idem g p : set_grad g (set_grad g p) = set_grad g p.
Proof. done. Qed.

Lemma zero_grad_fold l : ∀ w,
  let w' := fold_left (λ acc p, upd_heap p (set_grad None) acc) l w in
  w' = set_heap (heap w') w ∧
  (∀ q, q ∈ l → heap w' q = set_grad None (heap w q)) ∧
  (∀ q, q ∉ l → heap w' q = heap w q).
Proof.
  induction l as [|p l IH]; intros w; simpl.
  - split; [by destruct w|]. split; [|done]. intros q Hq. by apply elem_of_nil in Hq.
  - destruct (IH (upd_heap p (set_grad None) w)) as (Hw & Hin & Hout).
    split; [by rewrite Hw at 1|]. split.
    + intros q Hq. destruct (decide (q ∈ l)) as [Hl|Hl].
      * rewrite (Hin q Hl). unfold upd_heap. simpl. by destruct (Nat.eqb q p).
      * rewrite (Hout q Hl). apply elem_of_cons in Hq as [->|Hq]; [|done].
        unfold upd_heap. simpl. by rewrite Nat.eqb_refl.
    + intros q Hq. apply not_elem_of_cons in Hq as [Hne Hl].
      rewrite (Hout q Hl). unfold upd_heap. simpl.
      destruct (Nat.eqb q p) eqn:E; [|done]. by apply Nat.eqb_eq in E.
Qed.

Lemma zero_grad_eq w :
  ∃ w', zero_grad w = Ok tt w' ∧
    w' = set_heap (heap w') w ∧
    (∀ q, q ∈ encounter_order w → heap w' q = set_grad None (heap w q)) ∧
    (∀ q, q ∉ encounter_order w → heap w' q = heap w q).
Proof.
  eexists. split; [reflexivity|]. apply (zero_grad_fold (encounter_order w) w).
Qed.

(** X1: after [zero_grad] every parameter of every group has no gradient
    and is otherwise as before; parameters outside the groups, and
    everything else the optimizer holds, are as before. *)
Theorem zero_grad_clears_members w :
  ∃ w', zero_grad w = Ok tt w' ∧
    param_groups w' = param_groups w ∧ state w' = state w ∧
    master_weights w' = master_weights w ∧
    _dummy_overflow_buf w' = _dummy_overflow_buf w ∧ trace w' = trace w ∧
    (∀ i g q, param_groups w !! i = Some g → q ∈ group.params g →
       grad (heap w' q) = None ∧ heap w' q = set_grad None (heap w q)) ∧
    (∀ q, (∀ g, g ∈ param_groups w → q ∉ group.params g) → heap w' q = heap w q).
Proof.
  destruct (zero_grad_eq w) as (w' & Hz & Hw & Hin & Hout). exists w'.
  split; [done|]. repeat (split; [by rewrite Hw|]).
  assert (∀ q, q ∈ encounter_order w ↔
            ∃ g, g ∈ param_groups w ∧ q ∈ group.params g) as Hmem.
  { intros q. unfold encounter_order. rewrite list_elem_of_In, in_concat. split.
    - intros (l & Hl & Hq). apply in_map_iff in Hl as (g & <- & Hg).
      exists g. split; by apply list_elem_of_In.
    - intros (g & Hg & Hq). exists (group.params g).
      split; [apply in_map|]; by apply list_elem_of_In. }
  split.
  - intros i g q Hi Hq.
    assert (q ∈ encounter_order w) as Hq'.
    { apply Hmem. exists g. split; [|done]. by eapply list_elem_of_lookup_2. }
    by rewrite (Hin q Hq').
  - intros q Hq. apply Hout. intros (g & Hg & Hq')%Hmem. by apply (Hq g).
Qed.

Lemma for_each_skip {A S} (body : A → S → M S) l : ∀ s w,
  (∀ x s0, x ∈ l → body x s0 w = Ok s0 w) → for_each body l s w = Ok s w.
Proof.
  induction l as [|x l IH]; intros s w H; simpl; [done|].
  unfold bind. rewrite (H x s); [|by left]. apply IH. intros y s0 Hy. apply H. by right.
Qed.

(** X2: a call on an optimizer all of whose groups are empty, or which has
    no group, returns without changing anything. *)
Theorem step_on_empty_groups B gs w :
  (∀ g, g ∈ param_groups w → group.params g = []) →
  step B None gs w = Ok None w.
Proof.
  intros H. rewrite step_eq. rewrite for_each_skip; [done|].
  intros i k _. apply step_group_skip.
  destruct (param_groups w !! i) as [g|] eqn:Hi; [|done].
  apply H. by eapply list_elem_of_lookup_2.
Qed.

Lemma step_on_empty_groups_witness :
  step exact_backend None None hollow_optimizer = Ok None hollow_optimizer.
Proof.
  apply step_on_empty_groups. intros g Hg.
  apply list_elem_of_singleton in Hg. by rewrite Hg.
Defined.

Lemma same_group_trans a b c : same_group a b → same_group b c → same_group a c.
Proof. intros (?&?&?&?&?&?) (?&?&?&?&?&?). repeat split; congruence. Qed.

Lemma idle_refl w : idle w w.
Proof. repeat split; [apply same_groups_refl|]. intros q. by left. Qed.

Lemma idle_trans a b c : idle a b → idle b c → idle a c.
Proof.
  intros (Hh1 & Hm1 & Ht1 & Hc1 & Hg1 & Hs1) (Hh2 & Hm2 & Ht2 & Hc2 & Hg2 & Hs2).
  repeat split; [congruence..| |].
  - eapply Forall2_trans; [|exact Hg1|exact Hg2]. intros x y z. apply same_group_trans.
  - intros q. destruct (Hs2 q) as [E2|(Hn2 & mp & E2 & Hmp2)].
    + rewrite E2. apply Hs1.
    + destruct (Hs1 q) as [E1|(Hn1 & mp1 & E1 & _)]; [|congruence].
      right. split; [congruence|]. exists mp. split.
      * rewrite E2. unfold fresh_state. by rewrite Hh1.
      * intros Hw. apply Hmp2. unfold wants_master in *. by rewrite Hm1, Hh1.
Qed.

Lemma state_grows_idle w w' : state_grows w w' → idle w w'.
Proof.
  intros [Hw Hq]. split; [by rewrite Hw|]. split; [by rewrite Hw|].
  split; [by rewrite Hw|]. split; [by rewrite Hw|]. split; [|done].
  rewrite Hw. apply same_groups_refl.
Qed.

Lemma absent_idle w w' p :
  idle w w' → resolved_grad_absent w p → resolved_grad_absent w' p.
Proof.
  intros (Hh & Hmw & _ & _ & _ & Hq) [Hg Hm]. specialize (Hq p).
  assert (∀ i, master_at w' i = master_at w i) as Hat
    by (intros; unfold master_at; by rewrite Hmw).
  split; [by rewrite Hh|]. rewrite Hmw, Hh. intros Ht. specialize (Hm Ht).
  destruct Hq as [->|(Hn & mp & -> & Hmp)].
  - destruct (state w !! p); intros; eapply Hm; eauto; by rewrite <- Hat.
  - rewrite Hn in Hm. simpl. intros i m -> Hi. rewrite Hat in Hi.
    eapply Hm; [|done]. intros Hf. discriminate Hmp.
    unfold wants_master. rewrite Hf. simpl. by rewrite andb_false_r.
Qed.

Lemma judge_absent w p b : p_grad_of w p = None → judge w p b = inr b.
Proof. intros H. unfold judge. by rewrite H. Qed.

Lemma classify_loop_absent l k b w :
  (∀ q, q ∈ l → resolved_grad_absent w q) →
  match for_each classify l (k, b) w with
  | Ok s w' => snd s = b ∧ state_grows w w'
  | Raise e w' => state_grows w w' ∧ truthy (master_weights w) = true
  end.
Proof.
  intros Habs.
  apply (for_each_inv classify (λ s w', snd s = b ∧ state_grows w w')
           (λ _ w', state_grows w w' ∧ truthy (master_weights w) = true));
    [|split; [done|apply state_grows_refl]].
  intros q s w0 Hq [Hb Hsg]. rewrite classify_eq.
  pose proof (init_state_state_grows q (fst s) w0) as Hsg1.
  pose proof (init_state_is_Some q (fst s) w0) as Hsome.
  destruct (init_state q (fst s) w0) as [k1 w1|e w1] eqn:Hi; simpl in Hsg1, Hsome.
  - assert (state_grows w w1) as Hsg2 by eauto using state_grows_trans.
    rewrite judge_absent; [by rewrite Hb|].
    apply absent_p_grad_of; [|done].
    eapply absent_idle; [by apply state_grows_idle|]. by apply Habs.
  - split; [eauto using state_grows_trans|].
    rewrite <- (state_grows_masters _ _ Hsg).
    destruct (init_state_cases q (fst s) w0) as [(s0 & _ & E)|(_ & mp & r & E & Hr)];
      [congruence|].
    rewrite Hi in E.
    destruct Hr as [(_ & _ & ->)|[(_ & Hw & _)|(_ & Hw & _)]]; [done| |];
      unfold wants_master in Hw; by apply andb_true_iff in Hw as [? _].
Qed.

Lemma dispatch_empty B gs i g beta1 beta2 bc dev w :
  dispatch B gs i g beta1 beta2 bc dev empty_buckets w =
    Ok tt (if capturable w then set_overflow_buf (found_inf_of gs dev) w else w).
Proof.
  unfold dispatch, bind, get, modify, when, found_inf_of. simpl.
  destruct (capturable w) eqn:Hc; simpl; by destruct (truthy (master_weights w)).
Qed.

Lemma idle_set_overflow_buf v w : idle w (set_overflow_buf v w).
Proof. repeat split; [apply same_groups_refl|]. intros q. by left. Qed.

Lemma member_encounter_order w i g q :
  param_groups w !! i = Some g → q ∈ group.params g → q ∈ encounter_order w.
Proof.
  intros Hi Hq. unfold encounter_order. rewrite list_elem_of_In, in_concat.
  exists (group.params g). split; [apply in_map|]; apply list_elem_of_In; [|done].
  by eapply list_elem_of_lookup_2.
Qed.

Lemma step_group_idle B gs i k w :
  (∀ g q, param_groups w !! i = Some g → q ∈ group.params g →
     resolved_grad_absent w q) →
  match step_group B gs i k w with
  | Ok _ w' => idle w w'
  | Raise _ w' => idle w w' ∧ truthy (master_weights w) = true
  end.
Proof.
  intros Habs. rewrite step_group_eq.
  destruct (param_groups w !! i) as [g|] eqn:Hi; [|apply idle_refl].
  destruct (group.params g) as [|p0 rest] eqn:Hp; [apply idle_refl|]. cbv zeta.
  set (w1 := set_param_groups _ w).
  assert (idle w w1) as H1.
  { repeat split; [|intros q; by left].
    apply (gr_groups _ _ (grows_set_step i g _ w Hi)). }
  pose proof (classify_loop_absent (p0 :: rest) k empty_buckets w1) as Hloop.
  destruct (for_each classify (p0 :: rest) (k, empty_buckets) w1) as [s w2|e w2].
  - destruct Hloop as [Hb Hsg].
    { intros q Hq. eapply absent_idle; [exact H1|]. eapply Habs; [done|]. by rewrite Hp. }
    rewrite Hb, dispatch_empty.
    eapply idle_trans; [exact H1|]. eapply idle_trans; [by apply state_grows_idle|].
    destruct (capturable w2); [apply idle_set_overflow_buf|apply idle_refl].
  - destruct Hloop as [Hsg Ht].
    { intros q Hq. eapply absent_idle; [exact H1|]. eapply Habs; [done|]. by rewrite Hp. }
    split; [|done]. eapply idle_trans; [exact H1|]. by apply state_grows_idle.
Qed.

Lemma step_idle B gs w :
  (∀ q, q ∈ encounter_order w → resolved_grad_absent w q) →
  match step B None gs w with
  | Ok _ w' => idle w w'
  | Raise _ w' => idle w w' ∧ truthy (master_weights w) = true
  end.
Proof.
  intros Habs. rewrite step_eq.
  pose proof (for_each_inv (step_group B gs) (λ _ w0, idle w w0)
                (λ _ w0, idle w w0 ∧ truthy (master_weights w) = true)
                (seq 0 (length (param_groups w)))) as H.
  lapply H.
  - intros H'. specialize (H' 0%nat w (idle_refl w)). by destruct (for_each _ _ _ _).
  - intros i k w0 _ Hid.
    pose proof (step_group_idle B gs i k w0) as Hg. lapply Hg.
    + destruct (step_group B gs i k w0) as [k' w1|e w1].
      * intros ?. by eapply idle_trans.
      * intros [? Ht]. split; [by eapply idle_trans|].
        destruct Hid as (_ & Hm & _). by rewrite <- Hm.
    + intros g0 q Hi Hq. eapply absent_idle; [exact Hid|]. apply Habs.
      destruct Hid as (_ & _ & _ & _ & Hgr & _).
      destruct (Forall2_lookup_r _ _ _ _ _ Hgr Hi) as (g & Hg0 & Hsame).
      eapply member_encounter_order; [exact Hg0|].
      destruct Hsame as (Hpar & _). by rewrite <- Hpar.
Qed.

(** X3: a call in which the loop finds no gradient for any parameter of any
    group launches no kernel and changes no parameter, no master weight
    and no existing state entry, whatever its outcome; without master
    weights it completes. *)
Theorem step_without_gradients B gs w :
  (∀ q, q ∈ encounter_order w → resolved_grad_absent w q) →
  trace (res_world (step B None gs w)) = trace w ∧
  heap (res_world (step B None gs w)) = heap w ∧
  master_weights (res_world (step B None gs w)) = master_weights w ∧
  (∀ q s, state w !! q = Some s → state (res_world (step B None gs w)) !! q = Some s) ∧
  (truthy (master_weights w) = false → ∃ w', step B None gs w = Ok None w').
Proof.
  intros Habs. pose proof (step_idle B gs w Habs) as H.
  assert (idle w (res_world (step B None gs w))) as (Hh & Hm & Ht & _ & _ & Hs).
  { destruct (step B None gs w); simpl; [done|by destruct H]. }
  repeat (split; [done|]). split.
  - intros q s Hq. destruct (Hs q) as [->|[? _]]; [done|congruence].
  - intros Hf. rewrite step_eq in *.
    destruct (for_each _ _ _ _) as [k' w'|e w']; [by eexists|].
    destruct H as [_ H]. congruence.
Qed.

Lemma step_without_gradients_witness :
  trace (res_world (step exact_backend None None idle_optimizer)) = trace idle_optimizer ∧
  heap (res_world (step exact_backend None None idle_optimizer)) = heap idle_optimizer ∧
  master_weights (res_world (step exact_backend None None idle_optimizer))
    = master_weights idle_optimizer ∧
  (∀ q s, state idle_optimizer !! q = Some s →
     state (res_world (step exact_backend None None idle_optimizer)) !! q = Some s) ∧
  (truthy (master_weights idle_optimizer) = false →
     ∃ w', step exact_backend None None idle_optimizer = Ok None w').
Proof.
  apply (step_without_gradients exact_backend None idle_optimizer).
  intros q Hq. split; [reflexivity|]. simpl. discriminate.
Defined.

(** X4: without master weights, [zero_grad] followed by an update call
    launches no kernel: the call completes, every parameter keeps its
    data and every existing state entry its moments. *)
Theorem zero_grad_then_step_is_idle B gs w :
  truthy (master_weights w) = false →
  ∃ w1 w2, zero_grad w = Ok tt w1 ∧ step B None gs w1 = Ok None w2 ∧
    trace w2 = trace w ∧
    (∀ q, data (heap w2 q) = data (heap w q)) ∧
    (∀ q s, state w !! q = Some s → state w2 !! q = Some s).
Proof.
  intros Hf. destruct (zero_grad_eq w) as (w1 & Hz & Hw & Hin & Hout).
  assert (encounter_order w1 = encounter_order w) as Heo
    by (unfold encounter_order; by rewrite Hw).
  assert (truthy (master_weights w1) = false) as Hf1 by (by rewrite Hw).
  assert (∀ q, q ∈ encounter_order w1 → resolved_grad_absent w1 q) as Habs.
  { intros q Hq. rewrite Heo in Hq. split; [by rewrite (Hin q Hq)|]. congruence. }
  pose proof (step_idle B gs w1 Habs) as H.
  destruct (step B None gs w1) as [l w2|e w2] eqn:Hs; [|destruct H; congruence].
  assert (l = None) as ->.
  { rewrite step_eq in Hs. destruct (for_each _ _ _ _); congruence. }
  destruct H as (Hh & _ & Ht & _ & _ & Hst).
  exists w1, w2. split; [done|]. split; [done|]. split; [by rewrite Ht, Hw|]. split.
  - intros q. rewrite Hh. destruct (decide (q ∈ encounter_order w)) as [Hq|Hq].
    + by rewrite (Hin q Hq).
    + by rewrite (Hout q Hq).
  - intros q s Hq. destruct (Hst q) as [->|[Hn _]]; [by rewrite Hw|].
    rewrite Hw in Hn. simpl in Hn. congruence.
Qed.

Lemma zero_grad_then_step_is_idle_witness :
  ∃ w1 w2, zero_grad trained_optimizer = Ok tt w1 ∧
    step exact_backend None None w1 = Ok None w2 ∧
    trace w2 = trace trained_optimizer ∧
    (∀ q, data (heap w2 q) = data (heap trained_optimizer q)) ∧
    (∀ q s, state trained_optimizer !! q = Some s → state w2 !! q = Some s).
Proof.
  apply (zero_grad_then_step_is_idle exact_backend None trained_optimizer).
  reflexivity.
Defined.

(** X5: whatever its outcome, an update call without closure changes
    neither the mode flags, nor the number of groups or the membership
    and hyperparameters of a group, nor the gradient, type, shape,
    device, class or metadata status of a parameter, nor the shape or
    gradient of a master weight; it removes no master weight and no state entry,
    reassigns no master parameter, and only appends to the record of
    launches. *)
Theorem step_changes_only_tensors_and_counters B gs w :
  capturable (res_world (step B None gs w)) = capturable w ∧
  adam_w_mode (res_world (step B None gs w)) = adam_w_mode w ∧
  length (param_groups (res_world (step B None gs w))) = length (param_groups w) ∧
  (∀ i g, param_groups w !! i = Some g →
     ∃ g', param_groups (res_world (step B None gs w)) !! i = Some g' ∧
       group.params g' = group.params g ∧ group.lr g' = group.lr g ∧
       group.bias_correction g' = group.bias_correction g ∧
       group.betas g' = group.betas g ∧ group.eps g' = group.eps g ∧
       group.weight_decay g' = group.weight_decay g) ∧
  (∀ q, grad (heap (res_world (step B None gs w)) q) = grad (heap w q) ∧
        dtype (heap (res_world (step B None gs w)) q) = dtype (heap w q) ∧
        shape (heap (res_world (step B None gs w)) q) = shape (heap w q) ∧
        device (heap (res_world (step B None gs w)) q) = device (heap w q) ∧
        is_Float8Tensor (heap (res_world (step B None gs w)) q)
          = is_Float8Tensor (heap w q) ∧
        _fp8_dtype (heap (res_world (step B None gs w)) q) = _fp8_dtype (heap w q) ∧
        fp8_meta_status (heap (res_world (step B None gs w)) q)
          = fp8_meta_status (heap w q)) ∧
  (∀ i m, master_at w i = Some m →
     ∃ m', master_at (res_world (step B None gs w)) i = Some m' ∧
           mw_shape m' = mw_shape m ∧ mw_grad m' = mw_grad m) ∧
  (∀ q s, state w !! q = Some s →
     ∃ s', state (res_world (step B None gs w)) !! q = Some s' ∧
           master_param s' = master_param s) ∧
  ∃ new, trace (res_world (step B None gs w)) = trace w ++ new.
Proof.
  pose proof (step_grows B gs w) as Hg.
  split; [apply (gr_cap _ _ Hg)|]. split; [apply (gr_mode _ _ Hg)|].
  split; [symmetry; apply (Forall2_length _ _ _ (gr_groups _ _ Hg))|].
  split.
  { intros i g Hi.
    destruct (Forall2_lookup_l _ _ _ _ _ (gr_groups _ _ Hg) Hi) as (g' & Hi' & Hsame).
    exists g'. split; [done|]. exact Hsame. }
  split.
  { intros q. destruct (gr_heap _ _ Hg q) as [H1 H2 H3 H4 H5 H6 H7]. done. }
  split.
  { intros i m Hm. destruct (grows_master_at _ _ _ _ Hg Hm) as (m' & Hm' & Hs & Hgr).
    by exists m'. }
  split; [apply (gr_state _ _ Hg)|apply (gr_trace _ _ Hg)].
Qed.

Lemma step_group_buf_plain B gs i k w :
  capturable w = false →
  _dummy_overflow_buf (res_world (step_group B gs i k w)) = _dummy_overflow_buf w.
Proof.
  intros Hc. destruct (param_groups w !! i) as [g|] eqn:Hi.
  - destruct (group.params g) as [|p0 rest] eqn:Hp.
    + rewrite step_group_skip; [done|]. by rewrite Hi.
    + pose proof (step_group_counters B gs i k w g p0 rest Hi Hp) as H. simpl in H.
      destruct (step_group B gs i k w); simpl; destruct H as [_ ->]; [|done].
      by rewrite Hc.
  - rewrite step_group_skip; [done|]. by rewrite Hi.
Qed.



Lemma seq_split_index n pre x post :
  seq 0 n = pre ++ x :: post → x = length pre ∧ ∀ i, i ∈ pre → (i < x)%nat.
Proof.
  intros H.
  assert (seq 0 n !! length pre = Some x) as Hx by (rewrite H; apply list_lookup_middle; done).
  apply lookup_seq in Hx as [Hx _]. simpl in Hx. split; [done|].
  intros i Hi. apply list_elem_of_lookup in Hi as [j Hj].
  assert (seq 0 n !! j = Some i) as Hj'.
  { rewrite H. by apply lookup_app_l_Some. }
  apply lookup_seq in Hj' as [-> _]. simpl.
  apply lookup_lt_Some in Hj. lia.
Qed.

Lemma grows_group_back w w' i g' :
  grows w w' → param_groups w' !! i = Some g' →
  ∃ g, param_groups w !! i = Some g ∧ same_group g g'.
Proof. intros Hg Hi. apply (Forall2_lookup_r _ _ _ _ _ (gr_groups _ _ Hg) Hi). Qed.



Lemma classify_loop_members l : ∀ s w s' w',
  for_each classify l s w = Ok s' w' →
  ∀ q, q ∈ l → is_Some (state w' !! q).
Proof.
  intros s w s' w' Hrun.
  pose proof (for_each_prefix classify
    (λ pre _ w0, ∀ q, q ∈ pre → is_Some (state w0 !! q)) (λ _ _, True) l) as H.
  lapply H.
  - intros H'. specialize (H' s w). rewrite Hrun in H'. apply H'.
    intros q Hq. by apply elem_of_nil in Hq.
  - intros pre x post s0 w0 _ Hpre.
    pose proof (classify_world x s0 w0) as Hw.
    pose proof (init_state_is_Some x (fst s0) w0) as Hx.
    pose proof (init_state_grows x (fst s0) w0) as Hg.
    destruct (classify x s0 w0) as [s1 w1|]; [|done]. simpl in Hw. rewrite <- Hw in Hx, Hg.
    intros q [Hq|Hq]%elem_of_app.
    + destruct (Hpre q Hq) as [s2 Hs2].
      destruct (gr_state _ _ Hg q s2 Hs2) as (s3 & -> & _). by eexists.
    + by apply list_elem_of_singleton in Hq as ->.
Qed.

Lemma grows_is_Some w w' q : grows w w' → is_Some (state w !! q) → is_Some (state w' !! q).
Proof. intros Hg [s Hs]. destruct (gr_state _ _ Hg q s Hs) as (s' & -> & _). by eexists. Qed.

Lemma step_group_members B gs i k w k' w' g :
  step_group B gs i k w = Ok k' w' → param_groups w !! i = Some g →
  ∀ q, q ∈ group.params g → is_Some (state w' !! q).
Proof.
  intros Hrun Hi q Hq. rewrite step_group_eq, Hi in Hrun.
  destruct (group.params g) as [|p0 rest] eqn:Hp; [by apply elem_of_nil in Hq|].
  cbv zeta in Hrun.
  destruct (for_each classify _ _ _) as [s w2|] eqn:Hloop; [|done].
  pose proof (classify_loop_members _ _ _ _ _ Hloop q Hq) as Hs.
  destruct (dispatch_Ok B gs i
              (group.set_step (next_step (capturable w) (_dummy_overflow_buf w)
                                 (group.step g)) g)
              (fst (group.betas g)) (snd (group.betas g))
              (if group.bias_correction g then 1 else 0) (device (heap w p0))
              (snd s) w2) as (w3 & Hd & Hg3).
  rewrite Hd in Hrun. injection Hrun as _ <-. by eapply grows_is_Some.
Qed.

(** X8: after a completed call every parameter of every group has a state
    entry, whether or not it has a gradient. *)
Theorem completed_step_leaves_state_for_members B gs w loss w' i g q :
  step B None gs w = Ok loss w' →
  param_groups w !! i = Some g → q ∈ group.params g →
  is_Some (state w' !! q).
Proof.
  intros Hs Hi Hq. rewrite step_eq in Hs.
  pose proof (for_each_prefix (step_group B gs)
    (λ pre _ w0, grows w w0 ∧ (i ∈ pre → is_Some (state w0 !! q)))
    (λ _ _, True) (seq 0 (length (param_groups w)))) as H.
  lapply H.
  - intros H'. specialize (H' 0%nat w).
    destruct (for_each _ _ _ _) as [k1 w1|]; [|done]. injection Hs as _ <-.
    apply H'.
    + split; [apply grows_refl|]. intros Hn. by apply elem_of_nil in Hn.
    + apply elem_of_seq. apply lookup_lt_Some in Hi. lia.
  - intros pre x post k0 w0 Hl [Hg Hdone].
    pose proof (step_group_grows B gs x k0 w0) as Hg1.
    destruct (step_group B gs x k0 w0) as [k1 w1|e w1] eqn:Hrun; [|done]. simpl in Hg1.
    split; [eauto using grows_trans|].
    intros [Hin|Hin]%elem_of_app; [by eapply grows_is_Some; eauto|].
    apply list_elem_of_singleton in Hin as <-.
    destruct (grows_group _ _ _ _ Hg Hi) as (g0 & Hi0 & Hp0).
    eapply step_group_members; [exact Hrun|exact Hi0|]. by rewrite Hp0.
Qed.

Lemma completed_step_leaves_state_for_members_witness :
  is_Some (state (res_world (step exact_backend None None half_idle_optimizer)) !! 1%nat).
Proof.
  apply (completed_step_leaves_state_for_members exact_backend None half_idle_optimizer
           None _ 0%nat (mk_group [0%nat; 1%nat] None) 1%nat);
    [vm_compute; reflexivity|reflexivity|].
  apply elem_of_cons. right. apply elem_of_cons. by left.
Defined.

Lemma classify_loop_state_other l q : ∀ s w,
  q ∉ l → state (res_world (for_each classify l s w)) !! q = state w !! q.
Proof.
  intros s w Hq.
  pose proof (for_each_inv classify (λ _ w0, state w0 !! q = state w !! q)
                (λ _ w0, state w0 !! q = state w !! q) l) as H.
  lapply H.
  - intros H'. specialize (H' s w eq_refl). by destruct (for_each _ _ _ _).
  - intros x s0 w0 Hx H0.
    assert (state (res_world (classify x s0 w0)) !! q = state w !! q) as Hr.
    { rewrite classify_world.
      destruct (init_state_world x (fst s0) w0) as (σ & -> & _ & Hoth & _). simpl.
      rewrite Hoth; [done|]. intros ->. done. }
    by destruct (classify x s0 w0).
Qed.

Lemma step_group_other B gs i k w q :
  (∀ g, param_groups w !! i = Some g → q ∉ group.params g) →
  heap (res_world (step_group B gs i k w)) q = heap w q ∧
  state (res_world (step_group B gs i k w)) !! q = state w !! q.
Proof.
  intros Hq. rewrite step_group_eq.
  destruct (param_groups w !! i) as [g|] eqn:Hi; [|done].
  specialize (Hq g eq_refl).
  destruct (group.params g) as [|p0 rest] eqn:Hp; [done|]. cbv zeta.
  set (w1 := set_param_groups _ w).
  pose proof (classify_loop_state_grows (p0 :: rest) (k, empty_buckets) w1) as Hsg.
  pose proof (classify_loop_state_other (p0 :: rest) q (k, empty_buckets) w1 Hq) as Hso.
  destruct (for_each classify (p0 :: rest) (k, empty_buckets) w1) as [s w2|e w2] eqn:Hrun;
    simpl in Hsg, Hso; [|simpl; by rewrite (state_grows_heap _ _ Hsg), Hso].
  assert (∀ r, r ∈ refs (snd s) → ref_owner r ≠ Some q) as Hrefs.
  { apply (classify_loop_prefix
             (λ pre b, ∀ r, r ∈ refs b → ref_owner r ≠ Some q)
             (p0 :: rest) (k, empty_buckets) w1) with (w' := w2);
      [|by intros r Hr; apply elem_of_nil in Hr|done].
    intros pre x post b b' w1' Hl _ _ Happ _ Hb r Hr.
    destruct (appended_refs _ _ _ _ _ Happ Hr) as [?|[_ [->| ->]]]; [auto|done|].
    intros [= ->]. apply Hq. rewrite Hl. apply elem_of_app. right. by left. }
  edestruct (dispatch_inv (λ w', heap w' q = heap w q ∧ state w' !! q = state w !! q)
               B gs i) as (w3 & -> & H3); [| |exact H3].
  - pose proof (state_grows_heap _ _ Hsg) as Hh2.
    destruct (capturable w2); simpl; rewrite Hh2, Hso; done.
  - intros w3 c [Hh Hs] Hl _.
    assert (∀ r, r ∈ concat (k_lists c) → ref_owner r ≠ Some q) as Hc3.
    { intros r Hr. apply Hrefs. by eapply launches_refs. }
    split.
    + rewrite run_kernel_heap_other; [done|]. intros r Hr Hp'.
      by eapply Hc3, ref_owner_param.
    + rewrite run_kernel_state_other; [done|]. intros r Hr Hp'.
      by eapply Hc3, ref_owner_state.
Qed.

(** X9: an update call, whatever its outcome, leaves a parameter that is in
    no group as it was, and its state entry, if there is one, too. *)
Theorem step_leaves_other_parameters B gs w q :
  q ∉ encounter_order w →
  heap (res_world (step B None gs w)) q = heap w q ∧
  state (res_world (step B None gs w)) !! q = state w !! q.
Proof.
  intros Hq.
  pose proof (for_each_inv (step_group B gs)
    (λ _ w0, grows w w0 ∧ heap w0 q = heap w q ∧ state w0 !! q = state w !! q)
    (λ _ w0, heap w0 q = heap w q ∧ state w0 !! q = state w !! q)
    (seq 0 (length (param_groups w)))) as H.
  lapply H.
  - intros H'. specialize (H' 0%nat w). rewrite step_eq.
    destruct (for_each _ _ _ _); simpl; apply H'; by (split; [apply grows_refl|]).
  - intros i k w0 _ (Hg & Hh & Hs).
    pose proof (step_group_grows B gs i k w0) as Hg1.
    destruct (step_group_other B gs i k w0 q) as [Hh1 Hs1].
    { intros g0 Hi0 Hin.
      destruct (grows_group_back _ _ _ _ Hg Hi0) as (g & Hi & Hsame & _).
      apply Hq. eapply member_encounter_order; [exact Hi|]. by rewrite <- Hsame. }
    destruct (step_group B gs i k w0); simpl in *.
    + split; [eauto using grows_trans|]. split; congruence.
    + split; congruence.
Qed.

Lemma step_leaves_other_parameters_witness :
  heap (res_world (step exact_backend None None half_idle_optimizer)) 7%nat
    = heap half_idle_optimizer 7%nat ∧
  state (res_world (step exact_backend None None half_idle_optimizer)) !! 7%nat
    = state half_idle_optimizer !! 7%nat.
Proof.
  apply step_leaves_other_parameters. vm_compute.
  intros H. apply elem_of_cons in H as [H|H]; [discriminate|].
  apply elem_of_cons in H as [H|H]; [discriminate|]. by apply elem_of_nil in H.
Defined.

Lemma own_error_grows w w' q :
  grows w w' → truthy (master_weights w) = false → own_error w' q = own_error w q.
Proof.
  intros Hg Hm. unfold own_error. rewrite (plain_p_grad_of_grows _ _ _ Hg Hm).
  by destruct (gr_heap _ _ Hg q) as [-> -> _ _ _ _ ->].
Qed.

Lemma judge_own_error w q b e :
  truthy (master_weights w) = false → own_error w q = Some e → judge w q b = inl e.
Proof.
  intros Hm. unfold own_error, judge, main_ref. rewrite Hm.
  destruct (p_grad_of w q) as [[gref g]|]; [|done].
  destruct (is_sparse g); [by intros [= <-]|].
  destruct (is_Float8Tensor (heap w q)).
  - by intros ->.
  - destruct (dtype_eqb (dtype (heap w q)) float16 || dtype_eqb (dtype (heap w q)) bfloat16);
      [done|]. simpl.
    destruct (dtype_eqb (dtype (heap w q)) float32); [done|]. by intros [= <-].
Qed.

Lemma judge_passes w q b e :
  truthy (master_weights w) = false → own_error w q = None →
  (capturable w = true → nonempty (p_fp8_model b) = false) →
  has_fp16 b && has_bf16 b = false →
  judge w q b = inl e →
  (e = RuntimeError msg_fp8_capturable ∧ capturable w = true ∧ pending_fp8 w q = true) ∨
  (e = RuntimeError msg_mix ∧
   (has_fp16 b = true ∨ pending_f16 w q = true) ∧
   (has_bf16 b = true ∨ pending_bf16 w q = true)).
Proof.
  intros Hm Hown Hcap Hmix Hj.
  destruct (p_grad_of w q) as [[gref g]|] eqn:Hg.
  2:{ unfold judge in Hj. by rewrite Hg in Hj. }
  apply (judge_clean w q b e Hm); [|done..].
  unfold own_error, clean_param in *. rewrite Hg in *.
  destruct (is_sparse g); [done|]. simpl.
  destruct (is_Float8Tensor (heap w q)); [by destruct (fp8_meta_status _)|].
  by destruct (dtype_eqb (dtype (heap w q)) float16 || dtype_eqb (dtype (heap w q)) bfloat16
               || dtype_eqb (dtype (heap w q)) float32).
Qed.

(** Without master weights a classification loop fails on a member's
    own guard, on an 8-bit member in capturable mode, or on a mix of
    the two 16-bit types. *)
Lemma classify_loop_raise_cause l k w e w' :
  truthy (master_weights w) = false →
  for_each classify l (k, empty_buckets) w = Raise e w' →
  (∃ q, q ∈ l ∧ own_error w q = Some e) ∨
  (e = RuntimeError msg_fp8_capturable ∧ capturable w = true ∧
   existsb (pending_fp8 w) l = true) ∨
  (e = RuntimeError msg_mix ∧
   existsb (pending_f16 w) l && existsb (pending_bf16 w) l = true).
Proof.
  intros Hm Hr.
  destruct (for_each_raise _ _ _ _ _ _ Hr) as (pre & q & post & [k1 b1] & w1 & -> & Hpre & Hq).
  pose proof (classify_loop_state_grows pre (k, empty_buckets) w) as Hsg.
  rewrite Hpre in Hsg. simpl in Hsg.
  assert ((has_fp16 b1 = true → existsb (pending_f16 w) pre = true) ∧
          (has_bf16 b1 = true → existsb (pending_bf16 w) pre = true) ∧
          has_fp16 b1 && has_bf16 b1 = false ∧
          (capturable w = true → nonempty (p_fp8_model b1) = false)) as (I1 & I2 & I3 & I4).
  { apply (classify_loop_prefix
             (λ pre b, (has_fp16 b = true → existsb (pending_f16 w) pre = true) ∧
                       (has_bf16 b = true → existsb (pending_bf16 w) pre = true) ∧
                       has_fp16 b && has_bf16 b = false ∧
                       (capturable w = true → nonempty (p_fp8_model b) = false))
             pre (k, empty_buckets) w) with (s' := (k1, b1)) (w' := w1); [|done|done].
    intros pre0 x post0 b b' w0 _ Hg0 _ Happ Hchk (J1 & J2 & J3 & J4).
    destruct (appended_flags_inv _ _ _ _ Happ) as (F1 & F2 & F3).
    apply state_grows_grows in Hg0.
    destruct (pending_plain_grows _ _ x Hg0 Hm) as (P1 & P2 & _).
    rewrite P1, P2 in *. rewrite (gr_cap _ _ Hg0) in *.
    split; [|split; [|split]].
    - intros H. rewrite existsb_app. simpl. destruct (F1 H) as [?| ->].
      + by rewrite J1.
      + by rewrite !orb_true_r.
    - intros H. rewrite existsb_app. simpl. destruct (F2 H) as [?| ->].
      + by rewrite J2.
      + by rewrite !orb_true_r.
    - destruct Happ as [Hn| | |]; [done|apply Hchk; congruence..].
    - intros Hc. destruct (nonempty (p_fp8_model b')) eqn:E; [|done].
      destruct (F3 eq_refl) as [H|H]; [|congruence]. rewrite J4 in H; done. }
  rewrite classify_eq in Hq. simpl in Hq.
  pose proof (init_state_state_grows q k1 w1) as Hsg2.
  assert (grows w w1) as Hg1 by (by apply state_grows_grows).
  destruct (init_state q k1 w1) as [k2 w2|e2 w2] eqn:Hi; simpl in Hsg2.
  2:{ exfalso. destruct (init_state_cases q k1 w1) as [(s & _ & Heq)|(_ & mp & r & Heq & Hc)];
        [congruence|].
      assert (wants_master w1 q = false) as Hw.
      { unfold wants_master. by rewrite (grows_truthy _ _ Hg1), Hm. }
      decompose [and or ex] Hc; subst; congruence. }
  assert (grows w w2) as Hg2 by eauto using grows_trans, state_grows_grows.
  assert (truthy (master_weights w2) = false) as Hm2 by (by rewrite (grows_truthy _ _ Hg2)).
  destruct (judge w2 q b1) as [e3|b3] eqn:Hj; [|done]. injection Hq as -> ->.
  destruct (own_error w q) as [e0|] eqn:Hown.
  - left. exists q. split; [apply elem_of_app; right; by left|].
    pose proof Hown as Hown2. rewrite <- (own_error_grows _ _ q Hg2 Hm) in Hown2.
    rewrite (judge_own_error _ _ _ _ Hm2 Hown2) in Hj. congruence.
  - right. destruct (pending_plain_grows _ _ q Hg2 Hm) as (P1 & P2 & P3).
    apply judge_passes in Hj.
    + rewrite P1, P2, P3, (gr_cap _ _ Hg2) in Hj.
      destruct Hj as [(-> & Hc & Hp)|(-> & H16 & Hb16)]; [left|right].
      * split; [done|]. split; [done|]. apply existsb_prefix. by right.
      * split; [done|]. apply andb_true_iff. split; apply existsb_prefix.
        -- destruct H16; [left; auto|by right].
        -- destruct Hb16; [left; auto|by right].
    + done.
    + by rewrite (own_error_grows _ _ q Hg2 Hm).
    + by rewrite (gr_cap _ _ Hg2).
    + done.
Qed.

Lemma step_raise_cause B gs w e w' :
  truthy (master_weights w) = false →
  step B None gs w = Raise e w' →
  ∃ i g, param_groups w !! i = Some g ∧
    ((∃ q, q ∈ group.params g ∧ own_error w q = Some e) ∨
     (e = RuntimeError msg_fp8_capturable ∧ capturable w = true ∧
      has_pending_fp8 w g = true) ∨
     (e = RuntimeError msg_mix ∧ mixes w g = true)).
Proof.
  intros Hm. rewrite step_eq.
  destruct (for_each (step_group B gs) _ _ w) as [k' w''|e' w''] eqn:Hr; [done|].
  intros [= -> ->].
  destruct (for_each_raise _ _ _ _ _ _ Hr) as (pre & j & post & k0 & w0 & _ & Hpre & Hj).
  pose proof (step_groups_grows B gs pre 0%nat w) as Hg0. rewrite Hpre in Hg0. simpl in Hg0.
  rewrite step_group_eq in Hj.
  destruct (param_groups w0 !! j) as [g'|] eqn:Hi; [|done].
  destruct (Forall2_lookup_r _ _ _ _ _ (gr_groups _ _ Hg0) Hi) as (g & Hig & Hpar & _).
  destruct (group.params g') as [|p0 rest] eqn:Hp; [done|]. cbv zeta in Hj.
  set (w1 := set_param_groups _ w0) in Hj.
  assert (grows w w1) as Hg1.
  { eapply grows_trans; [exact Hg0|]. by apply grows_set_step. }
  destruct (for_each classify (p0 :: rest) (k0, empty_buckets) w1) as [s w2|e2 w2] eqn:Hloop.
  { match type of Hj with
    | context [dispatch ?a1 ?a2 ?a3 ?a4 ?a5 ?a6 ?a7 ?a8 ?a9 ?a10] =>
        destruct (dispatch_Ok a1 a2 a3 a4 a5 a6 a7 a8 a9 a10) as (w3 & Hd & _);
        rewrite Hd in Hj
    end. done. }
  injection Hj as -> ->.
  exists j, g. split; [done|].
  apply classify_loop_raise_cause in Hloop; [|by rewrite (grows_truthy _ _ Hg1)].
  assert (∀ x, pending_fp8 w1 x = pending_fp8 w x) as P3
    by (intros x; by destruct (pending_plain_grows _ _ x Hg1 Hm) as (_ & _ & ?)).
  assert (∀ x, pending_f16 w1 x = pending_f16 w x) as P1
    by (intros x; by destruct (pending_plain_grows _ _ x Hg1 Hm) as (? & _ & _)).
  assert (∀ x, pending_bf16 w1 x = pending_bf16 w x) as P2
    by (intros x; by destruct (pending_plain_grows _ _ x Hg1 Hm) as (_ & ? & _)).
  rewrite (existsb_ext_in _ _ _ P1), (existsb_ext_in _ _ _ P2),
    (existsb_ext_in _ _ _ P3), (gr_cap _ _ Hg1), Hpar in Hloop.
  destruct Hloop as [(q & Hq & Hown)|[H|H]]; [left|right; by left|right; by right].
  exists q. split; [done|]. by rewrite <- (own_error_grows _ _ q Hg1 Hm).
Qed.

(** X10: without master weights every exception of an update call has
    its cause in a group: a member with a sparse gradient; a
    [Float8Tensor] member with a gradient whose metadata is missing, for
    the runtime error of [get_fp8_meta], or too short, for an index
    error; a member with a gradient that is no [Float8Tensor] and has
    none of the three supported types; a [Float8Tensor] member with a
    gradient in capturable mode; or a mix of [float16] and [bfloat16]
    members with gradients. *)
Theorem step_error_has_cause B gs w e w' :
  truthy (master_weights w) = false →
  step B None gs w = Raise e w' →
  ∃ i g, param_groups w !! i = Some g ∧
    ((e = RuntimeError msg_sparse ∧
      ∃ q gr, q ∈ group.params g ∧ grad (heap w q) = Some gr ∧ is_sparse gr = true) ∨
     ((e = RuntimeError msg_fp8_meta ∨ e = IndexError) ∧
      ∃ q, q ∈ group.params g ∧ pending_fp8 w q = true ∧
           fp8_meta_status (heap w q) = Some e) ∨
     (e = RuntimeError msg_dtype ∧
      ∃ q, q ∈ group.params g ∧ is_pending w q = true ∧
           is_Float8Tensor (heap w q) = false ∧
           dtype (heap w q) ≠ float16 ∧ dtype (heap w q) ≠ bfloat16 ∧
           dtype (heap w q) ≠ float32) ∨
     (e = RuntimeError msg_fp8_capturable ∧ capturable w = true ∧
      has_pending_fp8 w g = true) ∨
     (e = RuntimeError msg_mix ∧ mixes w g = true)).
Proof.
  intros Hm Hs. destruct (step_raise_cause _ _ _ _ _ Hm Hs) as (i & g & Hi & Hc).
  exists i, g. split; [done|].
  destruct Hc as [(q & Hq & Hown)|[H|H]]; [|auto|auto 6].
  unfold own_error in Hown. rewrite (plain_p_grad_of _ _ Hm) in Hown.
  destruct (grad (heap w q)) as [gr|] eqn:Hgr; simpl in Hown; [|done].
  destruct (is_sparse gr) eqn:Hsp.
  { injection Hown as <-. left. split; [done|]. by exists q, gr. }
  destruct (is_Float8Tensor (heap w q)) eqn:H8.
  - right. left.
    assert (pending_fp8 w q = true) as Hp.
    { unfold pending_fp8, is_pending. rewrite (plain_p_grad_of _ _ Hm), Hgr, H8. done. }
    split; [|by exists q].
    unfold fp8_meta_status in Hown.
    destruct (_fp8_meta (heap w q)); [|injection Hown as <-; by left].
    right. repeat case_match; congruence.
  - destruct (dtype_eqb (dtype (heap w q)) float16) eqn:E1; [done|].
    destruct (dtype_eqb (dtype (heap w q)) bfloat16) eqn:E2; [done|].
    destruct (dtype_eqb (dtype (heap w q)) float32) eqn:E3; [done|]. simpl in Hown.
    injection Hown as <-. right. right. left. split; [done|]. exists q.
    split; [done|]. split.
    { unfold is_pending. by rewrite (plain_p_grad_of _ _ Hm), Hgr. }
    split; [done|]. by rewrite <- !dtype_eqb_false.
Qed.

Lemma step_error_has_cause_witness :
  ∃ i g, param_groups unsupported_optimizer !! i = Some g ∧
    ((RuntimeError msg_dtype = RuntimeError msg_sparse ∧
      ∃ q gr, q ∈ group.params g ∧ grad (heap unsupported_optimizer q) = Some gr ∧
              is_sparse gr = true) ∨
     ((RuntimeError msg_dtype = RuntimeError msg_fp8_meta ∨
       RuntimeError msg_dtype = IndexError) ∧
      ∃ q, q ∈ group.params g ∧ pending_fp8 unsupported_optimizer q = true ∧
           fp8_meta_status (heap unsupported_optimizer q)
             = Some (RuntimeError msg_dtype)) ∨
     (RuntimeError msg_dtype = RuntimeError msg_dtype ∧
      ∃ q, q ∈ group.params g ∧ is_pending unsupported_optimizer q = true ∧
           is_Float8Tensor (heap unsupported_optimizer q) = false ∧
           dtype (heap unsupported_optimizer q) ≠ float16 ∧
           dtype (heap unsupported_optimizer q) ≠ bfloat16 ∧
           dtype (heap unsupported_optimizer q) ≠ float32) ∨
     (RuntimeError msg_dtype = RuntimeError msg_fp8_capturable ∧
      capturable unsupported_optimizer = true ∧
      has_pending_fp8 unsupported_optimizer g = true) ∨
     (RuntimeError msg_dtype = RuntimeError msg_mix ∧
      mixes unsupported_optimizer g = true)).
Proof.
  eapply (step_error_has_cause exact_backend None unsupported_optimizer); [reflexivity|].
  vm_compute. reflexivity.
Defined.

Lemma classify_loop_own_error_raises l k w q e0 :
  truthy (master_weights w) = false → q ∈ l → own_error w q = Some e0 →
  ∃ e w', for_each classify l (k, empty_buckets) w = Raise e w' ∧ trace w' = trace w.
Proof.
  intros Hm Hq Hown.
  pose proof (classify_loop_state_grows l (k, empty_buckets) w) as Hsg.
  destruct (for_each classify l (k, empty_buckets) w) as [s w2|e w2] eqn:Hrun; simpl in Hsg.
  2:{ exists e, w2. split; [done|]. by apply state_grows_trace. }
  exfalso.
  assert (q ∉ l) as Hno; [|done].
  apply (classify_loop_prefix (λ pre _, q ∉ pre) l (k, empty_buckets) w)
    with (s' := s) (w' := w2); [| |done].
  2:{ apply not_elem_of_nil. }
  intros pre x post b b' w1 _ Hg1 _ Happ _ Hpre Hx.
  apply elem_of_app in Hx as [Hx|Hx]; [done|].
  apply list_elem_of_singleton in Hx as <-.
  apply state_grows_grows in Hg1.
  rewrite <- (own_error_grows _ _ q Hg1 Hm) in Hown.
  unfold own_error in Hown.
  destruct Happ as [Hn|gref g pm Hgr Hsp H8 Hst _ _|gref g pm Hgr Hsp H8 Hd _|gref g Hgr Hsp H8 Hd].
  - by rewrite Hn in Hown.
  - by rewrite Hgr, Hsp, H8, Hst in Hown.
  - rewrite Hgr, Hsp, H8 in Hown. by destruct Hd as [Hd|Hd]; rewrite Hd in Hown.
  - by rewrite Hgr, Hsp, H8, Hd in Hown.
Qed.

Lemma forallb_ext_all {A} (f g : A → bool) l :
  (∀ x, f x = g x) → forallb f l = forallb g l.
Proof. intros H. induction l; simpl; [done|]. by rewrite H, IHl. Qed.

Lemma accepted_group_grows w w' g g' :
  grows w w' → truthy (master_weights w) = false →
  group.params g' = group.params g → accepted_group w' g' = accepted_group w g.
Proof.
  intros Hg Hm Hp. unfold accepted_group, mixes, has_pending_fp8, passes. rewrite Hp.
  assert (∀ x, pending_fp8 w' x = pending_fp8 w x) as P3
    by (intros x; by destruct (pending_plain_grows _ _ x Hg Hm) as (_ & _ & ?)).
  assert (∀ x, pending_f16 w' x = pending_f16 w x) as P1
    by (intros x; by destruct (pending_plain_grows _ _ x Hg Hm) as (? & _ & _)).
  assert (∀ x, pending_bf16 w' x = pending_bf16 w x) as P2
    by (intros x; by destruct (pending_plain_grows _ _ x Hg Hm) as (_ & ? & _)).
  rewrite (existsb_ext_in _ _ _ P1), (existsb_ext_in _ _ _ P2),
    (existsb_ext_in _ _ _ P3), (gr_cap _ _ Hg).
  f_equal. f_equal. apply forallb_ext_all. intros x. by rewrite (own_error_grows _ _ x Hg Hm).
Qed.

Lemma rejected_group_raises B gs i k w g :
  truthy (master_weights w) = false →
  param_groups w !! i = Some g → accepted_group w g = false →
  ∃ e w', step_group B gs i k w = Raise e w' ∧ trace w' = trace w.
Proof.
  intros Hm Hi Hacc. eapply step_group_loop_raises; [done|].
  intros w1 Hg1 _.
  rewrite <- (accepted_group_grows w w1 g g Hg1 Hm eq_refl) in Hacc.
  assert (truthy (master_weights w1) = false) as Hm1 by (by rewrite (grows_truthy _ _ Hg1)).
  unfold accepted_group in Hacc.
  apply andb_false_iff in Hacc as [Hacc|Hacc]; [apply andb_false_iff in Hacc as [Hacc|Hacc]|].
  - assert (∃ q, q ∈ group.params g ∧ passes w1 q = false) as (q & Hq & Hp).
    { clear -Hacc. induction (group.params g) as [|x l IH]; simpl in *; [done|].
      apply andb_false_iff in Hacc as [H|H].
      - exists x. split; [by left|done].
      - destruct (IH H) as (q & ? & ?). exists q. split; [by right|done]. }
    unfold passes in Hp. destruct (own_error w1 q) as [e0|] eqn:Hown; [|done].
    by eapply classify_loop_own_error_raises.
  - apply negb_false_iff in Hacc. by apply classify_loop_mix_raises.
  - apply negb_false_iff, andb_true_iff in Hacc as [Hc Hp].
    by apply classify_loop_fp8_raises.
Qed.

(** X11: without master weights an update call completes exactly when every
    group is accepted: every member with a gradient has a dense
    gradient and is a [Float8Tensor] with usable metadata or has one of
    the three supported types, no group has both a [float16] and a
    [bfloat16] member with gradients, and in capturable mode no
    [Float8Tensor] has a gradient. The type of a member without
    gradient is not looked at. *)
Theorem step_completes_iff_accepted B gs w :
  truthy (master_weights w) = false →
  (∃ w', step B None gs w = Ok None w') ↔ accepted w = true.
Proof.
  intros Hm. split.
  - intros [w' Hs]. destruct (accepted w) eqn:Hacc; [done|]. exfalso.
    assert (∃ i g, param_groups w !! i = Some g ∧ accepted_group w g = false)
      as (i & g & Hi & Hg).
    { unfold accepted in Hacc. clear -Hacc.
      induction (param_groups w) as [|x l IH]; simpl in *; [done|].
      apply andb_false_iff in Hacc as [H|H].
      - by exists 0%nat, x.
      - destruct (IH H) as (i & g & ? & ?). by exists (S i), g. }
    destruct (step_doomed B gs
      (λ w0, truthy (master_weights w0) = false ∧
             ∃ g0, param_groups w0 !! i = Some g0 ∧ accepted_group w0 g0 = false) i w)
      as (e & w'' & Hr & _).
    + intros w0 w1 (Hm0 & g0 & Hi0 & Ha0) Hgr.
      split; [by rewrite (grows_truthy _ _ Hgr)|].
      destruct (grows_group _ _ _ _ Hgr Hi0) as (g1 & Hi1 & Hp1).
      exists g1. split; [done|]. by rewrite (accepted_group_grows w0 w1 g0 g1 Hgr Hm0 Hp1).
    + intros w0 k (Hm0 & g0 & Hi0 & Ha0). by eapply rejected_group_raises.
    + by eapply lookup_lt_Some.
    + eauto.
    + congruence.
  - intros Hacc. destruct (step B None gs w) as [l w'|e w'] eqn:Hs.
    + exists w'. rewrite step_eq in Hs. by destruct (for_each _ _ _ _); simplify_eq.
    + exfalso. destruct (step_raise_cause _ _ _ _ _ Hm Hs) as (i & g & Hi & Hc).
      assert (accepted_group w g = true) as Hg.
      { unfold accepted in Hacc. rewrite forallb_elem in Hacc. apply Hacc.
        by eapply list_elem_of_lookup_2. }
      unfold accepted_group in Hg.
      apply andb_true_iff in Hg as [Hg H8]. apply andb_true_iff in Hg as [Hp Hx].
      destruct Hc as [(q & Hq & Hown)|[(_ & Hc & Hf)|(_ & Hmix)]].
      * rewrite forallb_elem in Hp. specialize (Hp q Hq). unfold passes in Hp.
        by rewrite Hown in Hp.
      * by rewrite Hc, Hf in H8.
      * by rewrite Hmix in Hx.
Qed.

Lemma step_completes_iff_accepted_witness :
  (∃ w', step exact_backend None None tolerated_optimizer = Ok None w')
  ↔ accepted tolerated_optimizer = true.
Proof. by apply step_completes_iff_accepted. Defined.

Lemma apply_multi_tensor_adam_call B i g beta1 beta2 bc f lists inv od w :
  apply_multi_tensor_adam B i g beta1 beta2 bc f lists inv od w =
    Ok tt (run_kernel B (mk_call i g beta1 beta2 bc w f lists (opt_arg inv ++ opt_arg od))
             (set_trace (trace w ++ [mk_call i g beta1 beta2 bc w f lists
                                       (opt_arg inv ++ opt_arg od)]) w)).
Proof. reflexivity. Qed.

Local Opaque apply_multi_tensor_adam.

(** The rule of [dispatch_inv] with the full record of each launch. *)
Lemma dispatch_full (P : FusedAdam → Prop) B gs i g beta1 beta2 bc dev b w :
  (if capturable w then P (set_overflow_buf (found_inf_of gs dev) w) else P w) →
  (∀ w0 f lists extra, P w0 →
     selected gs b (capturable w) (truthy (master_weights w)) f lists extra →
     P (run_kernel B (mk_call i g beta1 beta2 bc w0 f lists extra)
          (set_trace (trace w0 ++ [mk_call i g beta1 beta2 bc w0 f lists extra]) w0))) →
  ∃ w', dispatch B gs i g beta1 beta2 bc dev b w = Ok tt w' ∧ P w'.
Proof.
  intros HP Hk.
  assert (∀ cond f lists inv od w0, P w0 →
            (cond = true →
             selected gs b (capturable w) (truthy (master_weights w)) f lists
               (opt_arg inv ++ opt_arg od)) →
            ∃ w', when cond (apply_multi_tensor_adam B i g beta1 beta2 bc f lists inv od) w0
                    = Ok tt w' ∧ P w') as Hwhen.
  { intros [] f lists inv od w0 H0 Hl; simpl; [|by exists w0].
    rewrite apply_multi_tensor_adam_call. eexists. split; [done|]. by apply Hk, Hl. }
  unfold dispatch, bind at 1, get at 1.
  destruct (capturable w) eqn:Ec.
  - unfold bind at 1, modify at 1. fold (found_inf_of gs dev). fold (unscale gs).
    simpl. destruct (truthy (master_weights w)) eqn:Em.
    + unfold bind at 1.
      edestruct (Hwhen (nonempty (p_f16_model b))) as (w1 & -> & H1);
        [exact HP|apply sel_cap_master_f16|].
      by eapply Hwhen; [|apply sel_cap_f32].
    + unfold bind at 1.
      edestruct (Hwhen (nonempty (p_f16_model b))) as (w1 & -> & H1);
        [exact HP|apply sel_cap_f16|].
      by eapply Hwhen; [|apply sel_cap_f32].
  - destruct (truthy (master_weights w)) eqn:Em.
    + unfold bind at 1.
      edestruct (Hwhen (nonempty (p_f16_model b))) as (w1 & -> & H1);
        [exact HP|apply sel_master_f16|].
      unfold bind at 1.
      edestruct (Hwhen (nonempty (p_fp8_model b))) as (w2 & -> & H2);
        [exact H1|apply sel_master_fp8|].
      by eapply Hwhen; [|apply sel_f32].
    + unfold bind at 1.
      edestruct (Hwhen (nonempty (p_f16_model b))) as (w1 & -> & H1);
        [exact HP|apply sel_f16|].
      by eapply Hwhen; [|apply sel_f32].
Qed.

Local Transparent apply_multi_tensor_adam.

Lemma p_grad_of_ref w q gref g : p_grad_of w q = Some (gref, g) → grad_ref w q gref.
Proof.
  unfold p_grad_of, p_master_of, grad_ref. intros H.
  assert (option_map (λ g0, (ParamGrad q, g0)) (grad (heap w q)) = Some (gref, g) →
          gref = ParamGrad q) as Hown.
  { destruct (grad (heap w q)); simpl; [|done]. by intros [= <- _]. }
  destruct (truthy (master_weights w)); [|left; auto].
  destruct (state w !! q) as [s|] eqn:Hs; [|left; auto].
  destruct (master_param s) as [i|] eqn:Hi; [|left; auto].
  destruct (master_at w i) as [m|]; simpl in H; [|left; auto].
  destruct (mw_grad m); [|left; auto].
  injection H as <- _. right. eauto.
Qed.

Lemma main_ref_master w q pm :
  main_ref w q = inr pm →
  if truthy (master_weights w) then ∃ r, pm = [r] ∧ master_ref w q r else pm = [].
Proof.
  unfold main_ref, p_master_of, master_ref.
  destruct (truthy (master_weights w)); [|by intros [= <-]].
  destruct (state w !! q) as [s|] eqn:Hs; [|done].
  destruct (master_param s) as [i|] eqn:Hi; [|done].
  destruct (master_at w i) as [m|]; simpl; [|done].
  intros [= <-]. eauto 10.
Qed.

Lemma grad_ref_mono w w' q r :
  (∀ q s, state w !! q = Some s →
     ∃ s', state w' !! q = Some s' ∧ master_param s' = master_param s) →
  grad_ref w q r → grad_ref w' q r.
Proof.
  intros H [->|(idx & s & -> & Hs & Hm)]; [by left|]. right.
  destruct (H q s Hs) as (s' & Hs' & Hm'). exists idx, s'. by rewrite Hm'.
Qed.

Lemma master_ref_mono w w' q r :
  (∀ q s, state w !! q = Some s →
     ∃ s', state w' !! q = Some s' ∧ master_param s' = master_param s) →
  master_ref w q r → master_ref w' q r.
Proof.
  intros H (idx & s & -> & Hs & Hm).
  destruct (H q s Hs) as (s' & Hs' & Hm'). exists idx, s'. by rewrite Hm'.
Qed.

Lemma aligned_bucket_mono w w' mw ids g p m v pm :
  (∀ q s, state w !! q = Some s →
     ∃ s', state w' !! q = Some s' ∧ master_param s' = master_param s) →
  aligned_bucket w mw ids g p m v pm → aligned_bucket w' mw ids g p m v pm.
Proof.
  intros H [Hp Hm Hv Hg Hpm]. constructor; [done..| |].
  - eapply Forall2_impl; [exact Hg|]. intros q r. by apply grad_ref_mono.
  - destruct mw; [|done]. eapply Forall2_impl; [exact Hpm|]. intros q r.
    by apply master_ref_mono.
Qed.

Lemma aligned_mono w w' mw b i8 i16 i32 :
  (∀ q s, state w !! q = Some s →
     ∃ s', state w' !! q = Some s' ∧ master_param s' = master_param s) →
  (∀ q, _fp8_dtype (heap w' q) = _fp8_dtype (heap w q)) →
  aligned w mw b i8 i16 i32 → aligned w' mw b i8 i16 i32.
Proof.
  intros H Hd []. constructor; eauto using aligned_bucket_mono.
  destruct (last i8); simpl in *; by rewrite ?Hd.
Qed.

Lemma aligned_bucket_snoc w mw ids g p m v pm q gr pm' :
  aligned_bucket w mw ids g p m v pm → grad_ref w q gr →
  (if mw then ∃ r, pm' = [r] ∧ master_ref w q r else pm' = []) →
  aligned_bucket w mw (ids ++ [q]) (g ++ [gr]) (p ++ [ParamData q]) (m ++ [ExpAvg q])
    (v ++ [ExpAvgSq q]) (pm ++ pm').
Proof.
  intros [-> -> -> Hg Hpm] Hgr Hpm'. constructor; rewrite ?fmap_app; try done.
  - apply Forall2_app; [done|]. constructor; [exact Hgr|constructor].
  - destruct mw.
    + destruct Hpm' as (r & -> & Hr). apply Forall2_app; [done|].
      constructor; [exact Hr|constructor].
    + by rewrite Hpm, Hpm'.
Qed.

Lemma aligned_empty w mw : aligned w mw empty_buckets [] [] [].
Proof. repeat constructor; simpl; by destruct mw. Qed.

Lemma state_grows_keeps w w' :
  state_grows w w' →
  ∀ q s, state w !! q = Some s →
    ∃ s', state w' !! q = Some s' ∧ master_param s' = master_param s.
Proof.
  intros [_ H] q s Hs. destruct (H q) as [E|[E _]]; [|congruence].
  exists s. by rewrite E.
Qed.

(** The rule for the classification loop, for an invariant that also
    depends on the object store. *)
Lemma classify_loop_prefix_w (Inv : list nat → Buckets → FusedAdam → Prop) l s w :
  (∀ pre q post b b' w0 w1,
     l = pre ++ q :: post → state_grows w w0 → state_grows w0 w1 →
     appended w1 q b b' → Inv pre b w0 → Inv (pre ++ [q]) b' w1) →
  Inv [] (snd s) w →
  ∀ s' w', for_each classify l s w = Ok s' w' → Inv l (snd s') w'.
Proof.
  intros Hstep H0 s' w' Hrun.
  pose proof (for_each_prefix classify
    (λ pre s0 w0, Inv pre (snd s0) w0 ∧ state_grows w w0) (λ _ _, True) l) as H.
  assert (∀ pre q post s0 w0, l = pre ++ q :: post →
            Inv pre (snd s0) w0 ∧ state_grows w w0 →
            match classify q s0 w0 with
            | Ok s1 w1 => Inv (pre ++ [q]) (snd s1) w1 ∧ state_grows w w1
            | Raise _ _ => True
            end) as Hbody.
  { intros pre q post s0 w0 Hl [HI Hg].
    pose proof (init_state_state_grows q (fst s0) w0) as Hg1.
    rewrite classify_eq.
    destruct (init_state q (fst s0) w0) as [k w1|e w1]; simpl in *; [|done].
    destruct (judge w1 q (snd s0)) as [e|b'] eqn:Hj; [done|].
    destruct (judge_inr _ _ _ _ Hj) as [Happ _].
    assert (state_grows w w1) by eauto using state_grows_trans.
    split; [|done]. simpl. by apply (Hstep pre q post (snd s0) b' w0 w1). }
  specialize (H Hbody s w (conj H0 (state_grows_refl w))).
  rewrite Hrun in H. apply H.
Qed.

Lemma sorted_into_snoc w pre q i8 i16 i32 j8 j16 j32 :
  sorted_into w pre i8 i16 i32 →
  (∀ x, x ∈ j8 ++ j16 ++ j32 → x ∈ i8 ++ i16 ++ i32 ∨ x = q) →
  (∀ x, x ∈ j8 → x ∈ i8 ∨ (x = q ∧ is_Float8Tensor (heap w q) = true)) →
  (∀ x, x ∈ j16 → x ∈ i16 ∨
     (x = q ∧ is_Float8Tensor (heap w q) = false ∧
      (dtype (heap w q) = float16 ∨ dtype (heap w q) = bfloat16))) →
  (∀ x, x ∈ j32 → x ∈ i32 ∨
     (x = q ∧ is_Float8Tensor (heap w q) = false ∧ dtype (heap w q) = float32)) →
  sorted_into w (pre ++ [q]) j8 j16 j32.
Proof.
  intros [Hm H8 H16 H32] Jm J8 J16 J32. constructor.
  - intros x Hx. apply elem_of_app. destruct (Jm x Hx) as [?| ->]; [left; auto|].
    right. by left.
  - intros x Hx. destruct (J8 x Hx) as [?|[-> ?]]; auto.
  - intros x Hx. destruct (J16 x Hx) as [?|[-> ?]]; auto.
  - intros x Hx. destruct (J32 x Hx) as [?|[-> ?]]; auto.
Qed.

Lemma classify_loop_aligned l k w s w' :
  for_each classify l (k, empty_buckets) w = Ok s w' →
  ∃ i8 i16 i32,
    aligned w' (truthy (master_weights w)) (snd s) i8 i16 i32 ∧
    sorted_into w l i8 i16 i32.
Proof.
  apply (classify_loop_prefix_w
           (λ pre b w1, ∃ i8 i16 i32,
              aligned w1 (truthy (master_weights w)) b i8 i16 i32 ∧
              sorted_into w pre i8 i16 i32) l (k, empty_buckets) w).
  2:{ exists [], [], []. split; [apply aligned_empty|].
      constructor; intros q Hq; by apply elem_of_nil in Hq. }
  intros pre q post b b' w0 w1 _ Hg0 Hg1 Happ (i8 & i16 & i32 & Hal & Hso).
  pose proof (state_grows_trans _ _ _ Hg0 Hg1) as Hg.
  pose proof (state_grows_heap _ _ Hg) as Hh.
  pose proof (state_grows_masters _ _ Hg) as Hmw.
  apply (aligned_mono _ w1 _ _ _ _ _ (state_grows_keeps _ _ Hg1)) in Hal.
  2:{ intros x. by rewrite (state_grows_heap _ _ Hg1). }
  destruct Hal as [A8 As Aa Ai A16 A32 Aod].
  destruct Happ as [Hn|gref g pm Hgr _ H8 _ Hpm _|gref g pm Hgr _ H8 Hd Hpm|gref g Hgr _ H8 Hd].
  - exists i8, i16, i32. split; [by constructor|].
    eapply sorted_into_snoc; [exact Hso|auto..].
  - apply p_grad_of_ref in Hgr. apply main_ref_master in Hpm. rewrite Hmw in Hpm.
    exists (i8 ++ [q]), i16, i32. split.
    + constructor; simpl; rewrite ?fmap_app, ?As, ?Aa, ?Ai, ?last_snoc; try done.
      by apply aligned_bucket_snoc.
    + rewrite Hh in H8. eapply sorted_into_snoc; [exact Hso| |auto..].
      * intros x. rewrite !elem_of_app, list_elem_of_singleton. tauto.
      * intros x. rewrite elem_of_app, list_elem_of_singleton. tauto.
  - apply p_grad_of_ref in Hgr. apply main_ref_master in Hpm. rewrite Hmw in Hpm.
    exists i8, (i16 ++ [q]), i32. split.
    + constructor; simpl; try done. by apply aligned_bucket_snoc.
    + rewrite Hh in H8, Hd. eapply sorted_into_snoc; [exact Hso| |auto| |auto].
      * intros x. rewrite !elem_of_app, list_elem_of_singleton. tauto.
      * intros x. rewrite elem_of_app, list_elem_of_singleton. tauto.
  - apply p_grad_of_ref in Hgr.
    exists i8, i16, (i32 ++ [q]). split.
    + constructor; simpl; try done.
      by apply (aligned_bucket_snoc w1 false i32 _ _ _ _ [] q gref []).
    + rewrite Hh in H8, Hd. eapply sorted_into_snoc; [exact Hso| |auto|auto|].
      * intros x. rewrite !elem_of_app, list_elem_of_singleton. tauto.
      * intros x. rewrite elem_of_app, list_elem_of_singleton. tauto.
Qed.

Lemma classify_loop_uniform l k w s w' :
  for_each classify l (k, empty_buckets) w = Ok s w' →
  ∀ q q', ParamData q ∈ p_f16_model (snd s) → ParamData q' ∈ p_f16_model (snd s) →
    dtype (heap w q) = dtype (heap w q').
Proof.
  intros Hrun.
  assert (has_fp16 (snd s) && has_bf16 (snd s) = false ∧
          ∀ q, ParamData q ∈ p_f16_model (snd s) →
            (dtype (heap w q) = float16 ∧ has_fp16 (snd s) = true) ∨
            (dtype (heap w q) = bfloat16 ∧ has_bf16 (snd s) = true)) as [Hmix Hall].
  { apply (classify_loop_prefix
             (λ _ b, has_fp16 b && has_bf16 b = false ∧
                ∀ q, ParamData q ∈ p_f16_model b →
                  (dtype (heap w q) = float16 ∧ has_fp16 b = true) ∨
                  (dtype (heap w q) = bfloat16 ∧ has_bf16 b = true))
             l (k, empty_buckets) w) with (w' := w'); [| |done].
    2:{ split; [done|]. intros q Hq. by apply elem_of_nil in Hq. }
    intros pre x post b b' w1 _ Hg1 _ Happ Hchk [Hm Hq].
    pose proof (state_grows_heap _ _ Hg1) as Hh.
    split.
    { destruct Happ as [Hn| | |]; [done|apply Hchk; congruence..]. }
    destruct Happ as [Hn|gref g pm Hgr _ H8 _ Hpm _|gref g pm Hgr _ H8 Hd Hpm|gref g Hgr _ H8 Hd];
      simpl; [done|done| |done].
    intros q [Hin|Hin]%elem_of_app.
    - destruct (Hq q Hin) as [[? ->]|[? ->]]; [by left|right]. by rewrite orb_true_l.
    - apply list_elem_of_singleton in Hin. injection Hin as ->. rewrite Hh in Hd.
      destruct Hd as [Hd|Hd]; rewrite Hh, Hd; simpl; [left|right];
        by rewrite orb_true_r. }
  intros q q' Hq Hq'.
  destruct (Hall q Hq) as [[-> E1]|[-> E1]], (Hall q' Hq') as [[-> E2]|[-> E2]];
    try done; by rewrite E1, E2 in Hmix.
Qed.

Lemma step_group_launches B gs i k w :
  ∃ new, trace (res_world (step_group B gs i k w)) = trace w ++ new ∧
    Forall (λ c, k_group c = i ∧ launch_of gs w (res_world (step_group B gs i k w)) c) new.
Proof.
  rewrite step_group_eq.
  assert (∃ new : list KernelCall, trace w = trace w ++ new ∧
            Forall (λ c, k_group c = i ∧ launch_of gs w w c) new) as Hnil
    by (exists []; by rewrite app_nil_r).
  destruct (param_groups w !! i) as [g|] eqn:Hi; [|done].
  destruct (group.params g) as [|p0 rest] eqn:Hp; [done|]. cbv zeta.
  set (g' := group.set_step _ g).
  assert (bump (capturable w) (_dummy_overflow_buf w) g = g') as Hbump
    by (unfold bump; by rewrite Hp).
  set (w1 := set_param_groups _ w).
  pose proof (classify_loop_state_grows (p0 :: rest) (k, empty_buckets) w1) as Hsg.
  destruct (for_each classify (p0 :: rest) (k, empty_buckets) w1) as [s w2|e w2] eqn:Hrun;
    simpl in Hsg.
  2:{ simpl. exists []. rewrite app_nil_r. split; [|done]. by apply state_grows_trace in Hsg. }
  destruct (classify_loop_aligned _ _ _ _ _ Hrun) as (i8 & i16 & i32 & Hal & Hso).
  pose proof Hsg as [Hw2 _].
  assert (capturable w2 = capturable w) as Hc2 by (by rewrite Hw2).
  assert (master_weights w2 = master_weights w) as Hm2 by (by rewrite Hw2).
  assert (param_groups w2 = <[i := g']> (param_groups w)) as Hg2 by (by rewrite Hw2).
  assert (adam_w_mode w2 = adam_w_mode w) as Ha2 by (by rewrite Hw2).
  assert (_dummy_overflow_buf w2 = _dummy_overflow_buf w) as Hb2 by (by rewrite Hw2).
  assert (trace w2 = trace w) as Ht2 by (by rewrite Hw2).
  set (v := if capturable w then found_inf_of gs (device (heap w p0))
            else _dummy_overflow_buf w).
  edestruct (dispatch_full
    (λ w', adam_w_mode w' = adam_w_mode w ∧ _dummy_overflow_buf w' = v ∧
           param_groups w' = param_groups w2 ∧
           (∀ q, _fp8_dtype (heap w' q) = _fp8_dtype (heap w2 q)) ∧
           (∀ q s0, state w2 !! q = Some s0 →
              ∃ s', state w' !! q = Some s' ∧ master_param s' = master_param s0) ∧
           ∃ new, trace w' = trace w ++ new ∧
             Forall (λ c, k_group c = i ∧
                          c = mk_call i g' (fst (group.betas g)) (snd (group.betas g))
                                (if group.bias_correction g then 1 else 0)
                                (set_overflow_buf v w)
                                (k_func c) (k_lists c) (k_extra c) ∧
                          selected gs (snd s) (capturable w) (truthy (master_weights w))
                            (k_func c) (k_lists c) (k_extra c)) new)
    B gs i g' (fst (group.betas g)) (snd (group.betas g))
    (if group.bias_correction g then 1 else 0) (device (heap w p0)) (snd s) w2)
    as (w3 & -> & H3).
  - assert (∃ new : list KernelCall, trace w2 = trace w ++ new ∧
              Forall (λ c, k_group c = i ∧
                          c = mk_call i g' (fst (group.betas g)) (snd (group.betas g))
                                (if group.bias_correction g then 1 else 0)
                                (set_overflow_buf v w)
                                (k_func c) (k_lists c) (k_extra c) ∧
                          selected gs (snd s) (capturable w) (truthy (master_weights w))
                            (k_func c) (k_lists c) (k_extra c)) new) as Hnew0
      by (exists []; by rewrite app_nil_r).
    rewrite Hc2. unfold v. destruct (capturable w); simpl; eauto 10.
  - intros w0 f lists extra (Ha & Hb & Hg & Hfd & Hst & new & Ht & Hnew) Hsel.
    rewrite Hc2, Hm2 in Hsel.
    pose proof (run_kernel_tensors_only B
                  (mk_call i g' (fst (group.betas g)) (snd (group.betas g))
                     (if group.bias_correction g then 1 else 0) w0 f lists extra)
                  (set_trace (trace w0 ++
                     [mk_call i g' (fst (group.betas g)) (snd (group.betas g))
                        (if group.bias_correction g then 1 else 0) w0 f lists extra]) w0))
      as Hto.
    split; [by rewrite (to_mode _ _ Hto)|]. split; [by rewrite (to_buf _ _ Hto)|].
    split; [by rewrite (to_groups _ _ Hto)|].
    split; [intros q; rewrite (ss_fp8_dtype _ _ (to_heap _ _ Hto q)); apply Hfd|]. split.
    + intros q s0 Hs0. destruct (Hst q s0 Hs0) as (s1 & Hs1 & Hm1).
      pose proof (to_state _ _ Hto q) as Hq. simpl in Hq. rewrite Hs1 in Hq.
      inversion Hq as [? s2 Hmp|]; subst. exists s2. split; [done|congruence].
    + exists (new ++ [mk_call i g' (fst (group.betas g)) (snd (group.betas g))
                        (if group.bias_correction g then 1 else 0) w0 f lists extra]).
      split; [rewrite (to_trace _ _ Hto); simpl; by rewrite Ht, app_assoc|].
      apply Forall_app. split; [done|]. constructor; [|done].
      split; [done|]. split; [|done]. unfold mk_call. simpl. by rewrite Ha, Hb.
  - simpl. destruct H3 as (Ha & Hb & Hg & Hfd & Hst & new & Ht & Hnew).
    exists new. split; [done|]. eapply Forall_impl; [exact Hnew|]. simpl.
    intros c (Hk & Hc & Hsel). split; [done|].
    exists g, p0, rest, (snd s), i8, i16, i32. rewrite Hk, Hbump.
    split; [done|]. split; [done|]. split.
    { rewrite Hg, Hg2. apply list_lookup_insert_eq. by eapply lookup_lt_Some. }
    split; [done|]. split; [done|]. split; [by eapply aligned_mono|].
    rewrite Hp. split; [destruct Hso as [S1 S2 S3 S4]; by constructor|].
    intros q q' Hq Hq'.
    apply (classify_loop_uniform _ _ _ _ _ Hrun q q');
      rewrite (ab_p _ _ _ _ _ _ _ _ (al_16 _ _ _ _ _ _ Hal));
      by apply list_elem_of_fmap_2.
Qed.

Lemma step_group_groups B gs i k w g :
  param_groups w !! i = Some g →
  param_groups (res_world (step_group B gs i k w))
    = <[i := bump (capturable w) (_dummy_overflow_buf w) g]> (param_groups w).
Proof.
  intros Hi. destruct (group.params g) as [|p0 rest] eqn:Hp.
  - rewrite step_group_skip by (by rewrite Hi). simpl.
    unfold bump. rewrite Hp. by rewrite list_insert_id.
  - pose proof (step_group_counters B gs i k w g p0 rest Hi Hp) as H. cbv zeta in H.
    by destruct (step_group B gs i k w); simpl; destruct H as [-> _].
Qed.

Lemma step_groups_launches B gs G2 : ∀ G1 k w0,
  param_groups w0 = G1 ++ G2 →
  take (length G1)
    (param_groups (res_world (for_each (step_group B gs)
                                (seq (length G1) (length G2)) k w0))) = G1 ∧
  ∃ new,
    trace (res_world (for_each (step_group B gs) (seq (length G1) (length G2)) k w0))
      = trace w0 ++ new ∧
    Forall (λ c, (length G1 ≤ k_group c)%nat ∧
                 launched_in gs w0
                   (res_world (for_each (step_group B gs)
                                 (seq (length G1) (length G2)) k w0)) c) new.
Proof.
  induction G2 as [|g G2 IH]; intros G1 k w0 HG; simpl.
  { rewrite HG, app_nil_r. split; [by rewrite take_ge|]. exists []. by rewrite app_nil_r. }
  unfold bind.
  assert (param_groups w0 !! length G1 = Some g) as Hi.
  { rewrite HG. by apply list_lookup_middle. }
  destruct (step_group_launches B gs (length G1) k w0) as (new1 & Ht1 & Hn1).
  pose proof (step_group_grows B gs (length G1) k w0) as Hgr1.
  pose proof (step_group_groups B gs (length G1) k w0 g Hi) as Hgs1.
  rewrite HG, insert_app_middle in Hgs1.
  pose proof (step_group_buf_plain B gs (length G1) k w0) as Hbuf1.
  set (g1 := bump (capturable w0) (_dummy_overflow_buf w0) g) in *.
  destruct (step_group B gs (length G1) k w0) as [k1 w1|e w1]; simpl in *.
  - specialize (IH (G1 ++ [g1]) k1 w1). rewrite length_app, Nat.add_1_r in IH.
    destruct (IH Hgs1) as (Htake & new2 & Ht2 & Hn2). clear IH.
    pose proof (step_groups_grows B gs (seq (S (length G1)) (length G2)) k1 w1) as Hgr2.
    set (w' := res_world (for_each (step_group B gs)
                            (seq (S (length G1)) (length G2)) k1 w1)) in *.
    assert (param_groups w' !! length G1 = Some g1) as Hg1'.
    { rewrite <- (lookup_take_lt _ (S (length G1))) by lia. rewrite Htake.
      by apply list_lookup_middle. }
    split.
    + assert (take (length G1) (param_groups w')
              = take (length G1) (take (S (length G1)) (param_groups w'))) as ->
        by (rewrite take_take; f_equal; lia).
      rewrite Htake. by rewrite take_app_length.
    + exists (new1 ++ new2). split; [by rewrite Ht2, Ht1, app_assoc|].
      apply Forall_app. split.
      * eapply Forall_impl; [exact Hn1|]. simpl. intros c [Hk Hl]. split; [lia|].
        exists w0, w1. split; [apply grows_refl|]. split; [done|]. split; [done|].
        split; [done|]. split; [|done]. rewrite Hk, Hg1', Hgs1, <- app_assoc.
        symmetry. by apply list_lookup_middle.
      * eapply Forall_impl; [exact Hn2|]. simpl.
        intros c [Hk (wa & wb & Ha & Hb & Hl & Hga & Hgb & Hbuf)]. split; [lia|].
        exists wa, wb. split; [eauto using grows_trans|]. split; [done|].
        split; [done|]. split; [|split; [done|]].
        -- rewrite Hga, Hgs1, HG. rewrite <- app_assoc. simpl.
           rewrite !lookup_app_r by lia.
           by destruct (k_group c - length G1)%nat as [|n] eqn:E; [lia|].
        -- intros Hc. rewrite Hbuf; [by apply Hbuf1|].
           by rewrite (gr_cap _ _ Hgr1).
  - split.
    + rewrite Hgs1, <- app_assoc. by rewrite take_app_length.
    + exists new1. split; [done|]. eapply Forall_impl; [exact Hn1|]. simpl.
      intros c [Hk Hl]. split; [lia|].
      exists w0, w1. split; [apply grows_refl|]. split; [apply grows_refl|]. done.
Qed.

Lemma step_launches B gs w :
  ∃ new, trace (res_world (step B None gs w)) = trace w ++ new ∧
    Forall (launched_in gs w (res_world (step B None gs w))) new.
Proof.
  destruct (step_groups_launches B gs (param_groups w) [] 0%nat w eq_refl)
    as (_ & new & Ht & Hn). simpl in Ht, Hn.
  assert (res_world (step B None gs w)
          = res_world (for_each (step_group B gs) (seq 0 (length (param_groups w))) 0%nat w))
    as -> by (rewrite step_eq; by destruct (for_each _ _ _ _)).
  exists new. split; [done|]. eapply Forall_impl; [exact Hn|]. by intros c [_ ?].
Qed.



Lemma selected_shape gs b cap mw f lists extra :
  selected gs b cap mw f lists extra →
  match f with
  | multi_tensor_adam =>
      cap = false ∧ extra = [] ∧
      (length lists = 4%nat ∨ (mw = true ∧ length lists = 5%nat))
  | multi_tensor_adam_fp8 =>
      cap = false ∧ mw = true ∧ extra = [ArgDType (out_dtype b)] ∧
      lists !! 1%nat = Some (p_fp8_model b) ∧ nonempty (p_fp8_model b) = true ∧
      length lists = 8%nat
  | multi_tensor_adam_capturable =>
      cap = true ∧ extra = [ArgScalar (unscale gs)] ∧ length lists = 4%nat
  | multi_tensor_adam_capturable_master =>
      cap = true ∧ mw = true ∧ extra = [ArgScalar (unscale gs)] ∧ length lists = 5%nat
  end.
Proof. destruct 1; simpl; auto 10. Qed.

(** X13: the dispatch follows the selection table of lines 299 to 390: the
    plain entry point is used outside capturable mode, with four lists,
    or five with master weights, and no trailing argument; the 8-bit
    entry point only outside capturable mode and with master weights,
    with eight lists and the storage type of the last [Float8Tensor]
    of the batch; the capturable entry points only in capturable mode,
    with the inverse of the scaler's scale, the one with five lists
    only with master weights. *)
Theorem launch_follows_selection_table B gs w :
  ∃ new, trace (res_world (step B None gs w)) = trace w ++ new ∧
    Forall (λ c,
      match k_func c with
      | multi_tensor_adam =>
          capturable w = false ∧ k_extra c = [] ∧
          (length (k_lists c) = 4%nat ∨
           (truthy (master_weights w) = true ∧ length (k_lists c) = 5%nat))
      | multi_tensor_adam_fp8 =>
          capturable w = false ∧ truthy (master_weights w) = true ∧
          length (k_lists c) = 8%nat ∧
          ∃ ids q, k_lists c !! 1%nat = Some (ParamData <$> ids) ∧ last ids = Some q ∧
                   k_extra c = [ArgDType (_fp8_dtype (heap w q))]
      | multi_tensor_adam_capturable =>
          capturable w = true ∧ k_extra c = [ArgScalar (unscale gs)] ∧
          length (k_lists c) = 4%nat
      | multi_tensor_adam_capturable_master =>
          capturable w = true ∧ truthy (master_weights w) = true ∧
          k_extra c = [ArgScalar (unscale gs)] ∧ length (k_lists c) = 5%nat
      end) new.
Proof.
  destruct (step_launches B gs w) as (new & Ht & Hn). exists new. split; [done|].
  eapply Forall_impl; [exact Hn|]. simpl.
  intros c (wa & wb & Ha & Hb & (g & p0 & rest & b & i8 & i16 & i32 & Hg & Hp & Hg3 & Hc
                                 & Hsel & Hal & _) & _).
  pose proof (selected_shape _ _ _ _ _ _ _ Hsel) as Hsh.
  rewrite (gr_cap _ _ Ha), (grows_truthy _ _ Ha) in Hsh.
  destruct (k_func c) eqn:Ef; try done.
  destruct Hsh as (Hcap & Hmw & He & Hl & Hne & Hlen).
  split; [done|]. split; [done|]. split; [done|].
  pose proof (ab_p _ _ _ _ _ _ _ _ (al_8 _ _ _ _ _ _ Hal)) as Hp8.
  exists i8. rewrite Hp8 in Hne.
  destruct (last i8) as [q|] eqn:Hlast.
  2:{ apply last_None in Hlast. by rewrite Hlast in Hne. }
  exists q. split; [by rewrite Hl, Hp8|]. split; [done|].
  rewrite He, (al_out_dtype _ _ _ _ _ _ Hal), Hlast. simpl.
  rewrite <- (ss_fp8_dtype _ _ (gr_heap _ _ Hb q)).
  by rewrite (ss_fp8_dtype _ _ (gr_heap _ _ (step_grows B gs w) q)).
Qed.

Lemma aligned_bucket_lists w mw ids g p m v pm :
  aligned_bucket w mw ids g p m v pm → nonempty p = true →
  ids ≠ [] ∧ length g = length ids ∧ length p = length ids ∧
  length m = length ids ∧ length v = length ids ∧
  (mw = true → length pm = length ids).
Proof.
  intros [-> -> -> Hg Hpm] Hne.
  split; [by intros ->|]. rewrite !length_fmap.
  split; [symmetry; by eapply Forall2_length|]. repeat (split; [done|]).
  intros ->. symmetry. by eapply Forall2_length.
Qed.

Lemma selected_batch gs w b cap mw f lists extra i8 i16 i32 :
  selected gs b cap mw f lists extra → aligned w mw b i8 i16 i32 →
  ∃ ids, ids ≠ [] ∧
    ((f = multi_tensor_adam_fp8 ∧ ids = i8) ∨
     (f ≠ multi_tensor_adam_fp8 ∧ (ids = i16 ∨ ids = i32))) ∧
    lists !! 1%nat = Some (ParamData <$> ids) ∧
    lists !! 2%nat = Some (ExpAvg <$> ids) ∧
    lists !! 3%nat = Some (ExpAvgSq <$> ids) ∧
    (∃ gl, lists !! 0%nat = Some gl ∧ Forall2 (grad_ref w) ids gl) ∧
    (∀ pm, lists !! 4%nat = Some pm → Forall2 (master_ref w) ids pm) ∧
    (f = multi_tensor_adam_fp8 →
       lists !! 5%nat = Some (Fp8Scale <$> ids) ∧
       lists !! 6%nat = Some (Fp8Amax <$> ids) ∧
       lists !! 7%nat = Some (Fp8ScaleInv <$> ids)) ∧
    Forall (λ l, length l = length ids) lists.
Proof.
  intros Hsel [A8 As Aa Ai A16 A32 _].
  destruct Hsel as [Hne|Hne|mw' Hne|Hne|Hne|Hne|mw' Hne].
  - destruct (aligned_bucket_lists _ _ _ _ _ _ _ _ A16 Hne) as (? & ? & ? & ? & ? & Hpm).
    destruct A16 as [-> -> -> Hg Hm]. exists i16.
    split; [done|]. split; [right; split; [done|by left]|]. repeat (split; [done|]).
    split; [by eexists|]. split; [by intros pm [= <-]|]. split; [done|].
    repeat (constructor; [rewrite ?length_fmap; by auto|]). constructor.
  - destruct (aligned_bucket_lists _ _ _ _ _ _ _ _ A16 Hne) as (? & ? & ? & ? & ? & Hpm).
    destruct A16 as [-> -> -> Hg Hm]. exists i16.
    split; [done|]. split; [right; split; [done|by left]|]. repeat (split; [done|]).
    split; [by eexists|]. split; [done|]. split; [done|].
    repeat (constructor; [rewrite ?length_fmap; by auto|]). constructor.
  - destruct (aligned_bucket_lists _ _ _ _ _ _ _ _ A32 Hne) as (? & ? & ? & ? & ? & Hpm).
    destruct A32 as [-> -> -> Hg Hm]. exists i32.
    split; [done|]. split; [right; split; [done|by right]|]. repeat (split; [done|]).
    split; [by eexists|]. split; [done|]. split; [done|].
    repeat (constructor; [rewrite ?length_fmap; by auto|]). constructor.
  - destruct (aligned_bucket_lists _ _ _ _ _ _ _ _ A16 Hne) as (? & ? & ? & ? & ? & Hpm).
    destruct A16 as [-> -> -> Hg Hm]. exists i16.
    split; [done|]. split; [right; split; [done|by left]|]. repeat (split; [done|]).
    split; [by eexists|]. split; [by intros pm [= <-]|]. split; [done|].
    repeat (constructor; [rewrite ?length_fmap; by auto|]). constructor.
  - destruct (aligned_bucket_lists _ _ _ _ _ _ _ _ A8 Hne) as (? & ? & ? & ? & ? & Hpm).
    destruct A8 as [-> -> -> Hg Hm]. exists i8.
    split; [done|]. split; [by left|]. repeat (split; [done|]).
    split; [by eexists|]. split; [by intros pm [= <-]|].
    split; [intros _; by rewrite As, Aa, Ai|].
    rewrite As, Aa, Ai. repeat (constructor; [rewrite ?length_fmap; by auto|]). constructor.
  - destruct (aligned_bucket_lists _ _ _ _ _ _ _ _ A16 Hne) as (? & ? & ? & ? & ? & Hpm).
    destruct A16 as [-> -> -> Hg Hm]. exists i16.
    split; [done|]. split; [right; split; [done|by left]|]. repeat (split; [done|]).
    split; [by eexists|]. split; [done|]. split; [done|].
    repeat (constructor; [rewrite ?length_fmap; by auto|]). constructor.
  - destruct (aligned_bucket_lists _ _ _ _ _ _ _ _ A32 Hne) as (? & ? & ? & ? & ? & Hpm).
    destruct A32 as [-> -> -> Hg Hm]. exists i32.
    split; [done|]. split; [right; split; [done|by right]|]. repeat (split; [done|]).
    split; [by eexists|]. split; [done|]. split; [done|].
    repeat (constructor; [rewrite ?length_fmap; by auto|]). constructor.
Qed.

Lemma launched_in_aligned gs w w' c :
  launched_in gs w w' c →
  ∃ g b mw i8 i16 i32,
    param_groups w !! k_group c = Some g ∧
    selected gs b (capturable w) mw (k_func c) (k_lists c) (k_extra c) ∧
    aligned w' mw b i8 i16 i32 ∧
    sorted_into w (group.params g) i8 i16 i32 ∧
    (∀ q q', q ∈ i16 → q' ∈ i16 → dtype (heap w q) = dtype (heap w q')).
Proof.
  intros (wa & wb & Ha & Hb & (g & p0 & rest & b & i8 & i16 & i32 & Hg & Hp & Hg3 & Hc
                               & Hsel & Hal & Hso & Hun) & Hga & _).
  exists g, b, (truthy (master_weights wa)), i8, i16, i32.
  split; [by rewrite <- Hga|]. split; [by rewrite <- (gr_cap _ _ Ha)|]. split.
  { eapply aligned_mono; [apply (gr_state _ _ Hb)| |exact Hal].
    intros q. apply (ss_fp8_dtype _ _ (gr_heap _ _ Hb q)). }
  assert (∀ q, is_Float8Tensor (heap wa q) = is_Float8Tensor (heap w q)) as H8
    by (intros q; apply (ss_fp8 _ _ (gr_heap _ _ Ha q))).
  assert (∀ q, dtype (heap wa q) = dtype (heap w q)) as Hd
    by (intros q; apply (ss_dtype _ _ (gr_heap _ _ Ha q))).
  split.
  - destruct Hso as [S1 S2 S3 S4]. constructor; [done|..]; intros q Hq;
      rewrite <- ?H8, <- ?Hd; auto.
  - intros q q' Hq Hq'. rewrite <- !Hd. by apply Hun.
Qed.

(** X14: the lists of every launch are aligned: there are parameters [ids],
    at least one, such that the second, third and fourth list hold
    their data and their two moments in this order, the first list
    holds for each its own gradient or the gradient of its master
    parameter, a fifth list holds the data of their master parameters,
    the last three lists of the 8-bit entry point hold their scale,
    amax and inverse scale, and all lists have the same length. *)
Theorem launch_lists_are_aligned B gs w :
  ∃ new, trace (res_world (step B None gs w)) = trace w ++ new ∧
    Forall (λ c, ∃ ids, ids ≠ [] ∧
      k_lists c !! 1%nat = Some (ParamData <$> ids) ∧
      k_lists c !! 2%nat = Some (ExpAvg <$> ids) ∧
      k_lists c !! 3%nat = Some (ExpAvgSq <$> ids) ∧
      (∃ gl, k_lists c !! 0%nat = Some gl ∧
             Forall2 (grad_ref (res_world (step B None gs w))) ids gl) ∧
      (∀ pm, k_lists c !! 4%nat = Some pm →
             Forall2 (master_ref (res_world (step B None gs w))) ids pm) ∧
      (k_func c = multi_tensor_adam_fp8 →
         k_lists c !! 5%nat = Some (Fp8Scale <$> ids) ∧
         k_lists c !! 6%nat = Some (Fp8Amax <$> ids) ∧
         k_lists c !! 7%nat = Some (Fp8ScaleInv <$> ids)) ∧
      Forall (λ l, length l = length ids) (k_lists c)) new.
Proof.
  destruct (step_launches B gs w) as (new & Ht & Hn). exists new. split; [done|].
  eapply Forall_impl; [exact Hn|]. simpl. intros c Hc.
  destruct (launched_in_aligned _ _ _ _ Hc) as (g & b & mw & i8 & i16 & i32 & _ & Hsel & Hal & _).
  destruct (selected_batch _ _ _ _ _ _ _ _ _ _ _ Hsel Hal) as (ids & H). exists ids. tauto.
Qed.

(** X15: every launch handles parameters of its own group and of one class:
    the 8-bit entry point handles [Float8Tensor] parameters, and any
    other launch handles parameters that are no [Float8Tensor] and all
    have the same type, one of [float16], [bfloat16] and [float32]. *)
Theorem launch_handles_one_class B gs w :
  ∃ new, trace (res_world (step B None gs w)) = trace w ++ new ∧
    Forall (λ c, ∃ g ids,
      param_groups w !! k_group c = Some g ∧
      k_lists c !! 1%nat = Some (ParamData <$> ids) ∧
      (∀ q, q ∈ ids → q ∈ group.params g) ∧
      (∀ q, q ∈ ids →
         is_Float8Tensor (heap w q) = true ↔ k_func c = multi_tensor_adam_fp8) ∧
      (k_func c ≠ multi_tensor_adam_fp8 →
         ∃ dt, (dt = float16 ∨ dt = bfloat16 ∨ dt = float32) ∧
               ∀ q, q ∈ ids → dtype (heap w q) = dt)) new.
Proof.
  destruct (step_launches B gs w) as (new & Ht & Hn). exists new. split; [done|].
  eapply Forall_impl; [exact Hn|]. simpl. intros c Hc.
  destruct (launched_in_aligned _ _ _ _ Hc)
    as (g & b & mw & i8 & i16 & i32 & Hg & Hsel & Hal & [S1 S2 S3 S4] & Hun).
  destruct (selected_batch _ _ _ _ _ _ _ _ _ _ _ Hsel Hal)
    as (ids & Hne & Hcls & Hp & _).
  exists g, ids. split; [done|]. split; [done|].
  destruct Hcls as [[Hf ->]|[Hf [-> | ->]]].
  - split; [intros q Hq; apply S1; rewrite !elem_of_app; auto|].
    split; [intros q Hq; split; auto|]. done.
  - split; [intros q Hq; apply S1; rewrite !elem_of_app; auto|].
    split.
    { intros q Hq. destruct (S3 q Hq) as [E _]. rewrite E. split; [done|congruence]. }
    intros _. destruct i16 as [|q0 l]; [done|]. exists (dtype (heap w q0)). split.
    + destruct (S3 q0) as [_ [->| ->]]; [by left|auto..].
    + intros q Hq. apply Hun; [done|by left].
  - split; [intros q Hq; apply S1; rewrite !elem_of_app; auto|].
    split.
    { intros q Hq. destruct (S4 q Hq) as [E _]. rewrite E. split; [done|congruence]. }
    intros _. exists float32. split; [auto|]. intros q Hq. by destruct (S4 q Hq).
Qed.

Lemma rank_pos w : ∀ n r,
  rank w n = S r →
  ∃ j q, (j < n)%nat ∧ encounter_order w !! j = Some q ∧ non_f32 w q = true ∧ rank w j = r.
Proof.
  induction n as [|n IH]; intros r Hr; [done|].
  destruct (encounter_order w !! n) as [q|] eqn:Hq.
  - rewrite (rank_S _ _ _ Hq) in Hr. destruct (non_f32 w q) eqn:Hnf.
    + exists n, q. split; [lia|]. split; [done|]. split; [done|]. lia.
    + rewrite Nat.add_0_r in Hr. destruct (IH r Hr) as (j & q' & ? & ?).
      exists j, q'. split; [lia|done].
  - assert (rank w (S n) = rank w n) as E.
    { unfold rank. apply lookup_ge_None in Hq. by rewrite !take_ge by lia. }
    rewrite E in Hr. destruct (IH r Hr) as (j & q' & ? & ?).
    exists j, q'. split; [lia|done].
Qed.

(** X16: a first call with master weights, on an optimizer no parameter of
    which is listed twice, completes only if the list of master weights
    has at least as many entries as there are parameters that are not
    [float32]. *)
Theorem completed_step_has_enough_master_weights B gs w loss w' l :
  master_weights w = Some l →
  truthy (master_weights w) = true →
  NoDup (encounter_order w) →
  (∀ q, q ∈ encounter_order w → state w !! q = None) →
  step B None gs w = Ok loss w' →
  (length (List.filter (non_f32 w) (encounter_order w)) ≤ length l)%nat.
Proof.
  intros Hl Hm Hnd Hfresh Hs.
  pose proof (step_groups_slots B gs w Hm Hnd (param_groups w) 0%nat 0%nat 0%nat w
                eq_refl eq_refl (slots_start w Hfresh)) as H.
  rewrite step_eq in Hs.
  destruct (for_each _ _ _ _) as [k' w''|e w'']; [|done].
  assert (rank w (length (encounter_order w))
          = length (List.filter (non_f32 w) (encounter_order w))) as <-
    by (unfold rank; by rewrite take_ge).
  destruct (rank w (length (encounter_order w))) as [|r] eqn:Hr; [lia|].
  destruct (rank_pos _ _ _ Hr) as (j & q & Hj & Hq & Hnf & Hrj).
  destruct (sl_done _ _ _ _ H j q Hj Hq) as (s & _ & _ & Hsh).
  destruct (Hsh Hnf) as (m & Hat & _). rewrite Hrj in Hat.
  unfold master_at in Hat. rewrite Hl in Hat. apply lookup_lt_Some in Hat. lia.
Qed.

Lemma completed_step_has_enough_master_weights_witness :
  (length (List.filter (non_f32 master_optimizer) (encounter_order master_optimizer))
   ≤ length [unit_master [1%nat]; unit_master [1%nat]])%nat.
Proof.
  eapply (completed_step_has_enough_master_weights exact_backend None master_optimizer);
    [reflexivity|reflexivity|vm_compute; compute_done| |vm_compute; reflexivity].
  intros q _. reflexivity.
Defined.

Lemma step_doomed_by B gs (D : FusedAdam → Prop) i w :
  (∀ w0 j k, D w0 → D (res_world (step_group B gs j k w0))) →
  (∀ w0 k, D w0 → ∃ e w', step_group B gs i k w0 = Raise e w' ∧ trace w' = trace w0) →
  (i < length (param_groups w))%nat → D w →
  ∃ e w', step B None gs w = Raise e w' ∧
    ∃ new, trace w' = trace w ++ new ∧ Forall (λ c, (k_group c < i)%nat) new.
Proof.
  intros Hstable Hdoom Hi HD.
  assert (∀ n a k w0, (a ≤ i < a + n)%nat → D w0 →
            ∃ e w', for_each (step_group B gs) (seq a n) k w0 = Raise e w' ∧
              ∃ new, trace w' = trace w0 ++ new ∧
                     Forall (λ c, (k_group c < i)%nat) new) as H.
  { induction n as [|n IH]; intros a k w0 Ha HD0; [lia|]. simpl. unfold bind.
    destruct (decide (a = i)) as [->|Hne].
    - destruct (Hdoom w0 k HD0) as (e & w' & -> & Ht).
      exists e, w'. split; [done|]. exists []. by rewrite app_nil_r.
    - destruct (step_group_trace B gs a k w0) as (new & Ht & Hnew).
      pose proof (Hstable w0 a k HD0) as HD1.
      assert (Forall (λ c, (k_group c < i)%nat) new) as Hnew'.
      { eapply Forall_impl; [exact Hnew|]. simpl. intros c ->. lia. }
      destruct (step_group B gs a k w0) as [k' w1|e w1]; simpl in *.
      + destruct (IH (S a) k' w1) as (e & w' & -> & new' & Ht' & Hn'); [lia|eauto|].
        exists e, w'. split; [done|]. exists (new ++ new'). split.
        * by rewrite Ht', Ht, app_assoc.
        * by apply Forall_app.
      + exists e, w1. split; [done|]. by exists new. }
  destruct (H (length (param_groups w)) 0%nat 0%nat w) as (e & w' & Hr & Ht); [lia|done|].
  exists e, w'. split; [|done]. by rewrite step_eq, Hr.
Qed.

Lemma step_group_master_none B gs j k w q :
  wants_master w q = false →
  (∀ s, state w !! q = Some s → master_param s = None) →
  ∀ s, state (res_world (step_group B gs j k w)) !! q = Some s → master_param s = None.
Proof.
  intros Hw Hnone. rewrite step_group_eq.
  destruct (param_groups w !! j) as [g|] eqn:Hi; [|done].
  destruct (group.params g) as [|p0 rest] eqn:Hp; [done|]. cbv zeta.
  set (w1 := set_param_groups _ w).
  pose proof (classify_loop_state_grows (p0 :: rest) (k, empty_buckets) w1) as Hsg.
  assert (∀ w2, state_grows w1 w2 →
            ∀ s, state w2 !! q = Some s → master_param s = None) as Hloop.
  { intros w2 [_ Hq] s Hs. destruct (Hq q) as [E|(_ & mp & E & Hmp)].
    - rewrite E in Hs. exact (Hnone s Hs).
    - rewrite E in Hs. injection Hs as <-. simpl. by apply Hmp. }
  destruct (for_each classify (p0 :: rest) (k, empty_buckets) w1) as [s w2|e w2];
    simpl in Hsg; [|by apply Hloop].
  edestruct (dispatch_inv
               (λ w', ∀ s0, state w' !! q = Some s0 → master_param s0 = None) B gs j)
    as (w3 & -> & H3); [| |exact H3].
  - destruct (capturable w2); simpl; by apply Hloop.
  - intros w3 c H3 _ _ s0 Hs0.
    pose proof (to_state _ _ (run_kernel_tensors_only B c
                  (set_trace (trace w3 ++ [c]) w3)) q) as Hq.
    rewrite Hs0 in Hq. simpl in Hq. inversion Hq as [s1 ? Hmp E1 E2|]; subst.
    rewrite Hmp. apply H3. done.
Qed.

Lemma classify_loop_attribute_raises l k w q gr :
  truthy (master_weights w) = true → q ∈ l →
  is_Float8Tensor (heap w q) = true → dtype (heap w q) = float32 →
  grad (heap w q) = Some gr →
  (∀ s, state w !! q = Some s → master_param s = None) →
  ∃ e w', for_each classify l (k, empty_buckets) w = Raise e w' ∧ trace w' = trace w.
Proof.
  intros Hm Hq H8 Hd Hgr Hnone.
  pose proof (classify_loop_state_grows l (k, empty_buckets) w) as Hsg.
  destruct (for_each classify l (k, empty_buckets) w) as [s w2|e w2] eqn:Hrun; simpl in Hsg.
  2:{ exists e, w2. split; [done|]. by apply state_grows_trace. }
  exfalso.
  assert (q ∉ l) as Hno; [|done].
  apply (classify_loop_prefix (λ pre _, q ∉ pre) l (k, empty_buckets) w)
    with (s' := s) (w' := w2); [| |done].
  2:{ apply not_elem_of_nil. }
  intros pre x post b b' w1 _ Hg1 [s1 Hs1] Happ _ Hpre Hx.
  apply elem_of_app in Hx as [Hx|Hx]; [done|].
  apply list_elem_of_singleton in Hx as <-.
  pose proof (state_grows_heap _ _ Hg1) as Hh.
  pose proof (state_grows_masters _ _ Hg1) as Hmw.
  assert (master_param s1 = None) as Hmp.
  { destruct Hg1 as [_ Hst]. destruct (Hst q) as [E|(_ & mp & E & Hwm)].
    - apply Hnone. by rewrite <- E.
    - rewrite E in Hs1. injection Hs1 as <-. simpl. apply Hwm.
      unfold wants_master. rewrite Hd. simpl. apply andb_false_r. }
  assert (p_master_of w1 q = None) as Hpm by (unfold p_master_of; by rewrite Hs1, Hmp).
  assert (p_grad_of w1 q = Some (ParamGrad q, gr)) as Hpg.
  { unfold p_grad_of. by rewrite Hpm, Hh, Hgr, Hmw, Hm. }
  destruct Happ as [Hn|gref g pm _ _ _ _ Hmain _|gref g pm _ _ H8' _ _|gref g _ _ H8' _].
  - congruence.
  - unfold main_ref in Hmain. by rewrite Hmw, Hm, Hpm in Hmain.
  - rewrite Hh in H8'. congruence.
  - rewrite Hh in H8'. congruence.
Qed.

(** X17: with master weights, a [Float8Tensor] whose nominal type is
    [float32] gets no master parameter, so that once it has a gradient
    its classification fails on [p_master.data] with an attribute
    error, and the call raises before any launch for its group. *)
Theorem fp8_float32_with_master_weights_raises B gs w i g q gr :
  truthy (master_weights w) = true →
  param_groups w !! i = Some g → q ∈ group.params g →
  is_Float8Tensor (heap w q) = true → dtype (heap w q) = float32 →
  grad (heap w q) = Some gr →
  (∀ s, state w !! q = Some s → master_param s = None) →
  (is_sparse gr = false → fp8_meta_status (heap w q) = None →
   ∀ k b, ∃ w1, classify q (k, b) w = Raise AttributeError w1) ∧
  ∃ e w', step B None gs w = Raise e w' ∧
    ∃ new, trace w' = trace w ++ new ∧ Forall (λ c, (k_group c < i)%nat) new.
Proof.
  intros Hm Hi Hq H8 Hd Hgr Hnone.
  assert (wants_master w q = false) as Hwm.
  { unfold wants_master. rewrite Hd. simpl. apply andb_false_r. }
  split.
  - intros Hsp Hmeta k b. rewrite classify_eq. simpl.
    pose proof (init_state_state_grows q k w) as Hsg.
    pose proof (init_state_is_Some q k w) as [s1 Hs1].
    assert (∃ w1, init_state q k w = Ok k w1) as (w1 & Hinit).
    { destruct (init_state_cases q k w) as [(s & _ & ->)|(_ & mp & r & -> & Hr)]; [by eexists|].
      decompose [and or ex] Hr; subst; try congruence. by eexists. }
    rewrite Hinit in *. simpl in Hsg, Hs1. exists w1.
    pose proof (state_grows_heap _ _ Hsg) as Hh.
    pose proof (state_grows_masters _ _ Hsg) as Hmw.
    assert (master_param s1 = None) as Hmp.
    { destruct Hsg as [_ Hst]. destruct (Hst q) as [E|(_ & mp & E & Hmp)].
      - apply Hnone. by rewrite <- E.
      - rewrite E in Hs1. injection Hs1 as <-. simpl. by apply Hmp. }
    unfold judge, p_grad_of, main_ref, p_master_of.
    rewrite Hs1, Hmp, Hh, Hgr, Hmw, Hm. simpl. by rewrite Hsp, H8, Hmeta.
  - apply (step_doomed_by B gs
      (λ w0, truthy (master_weights w0) = true ∧
             (∃ g0, param_groups w0 !! i = Some g0 ∧ q ∈ group.params g0) ∧
             is_Float8Tensor (heap w0 q) = true ∧ dtype (heap w0 q) = float32 ∧
             grad (heap w0 q) = Some gr ∧
             ∀ s, state w0 !! q = Some s → master_param s = None) i w).
    + intros w0 j k (Hm0 & (g0 & Hi0 & Hq0) & H80 & Hd0 & Hgr0 & Hn0).
      pose proof (step_group_grows B gs j k w0) as Hg.
      split; [by rewrite (grows_truthy _ _ Hg)|]. split.
      { destruct (grows_group _ _ _ _ Hg Hi0) as (g1 & ? & Hp1). exists g1.
        by rewrite Hp1. }
      destruct (gr_heap _ _ Hg q) as [-> -> _ -> _ _ _].
      split; [done|]. split; [done|]. split; [done|].
      apply step_group_master_none; [|done].
      unfold wants_master. rewrite Hd0. simpl. apply andb_false_r.
    + intros w0 k (Hm0 & (g0 & Hi0 & Hq0) & H80 & Hd0 & Hgr0 & Hn0).
      rewrite step_group_eq, Hi0.
      destruct (group.params g0) as [|p0 rest] eqn:Hp; [by apply elem_of_nil in Hq0|].
      cbv zeta.
      edestruct (classify_loop_attribute_raises (p0 :: rest) k
                   (set_param_groups
                      (<[i := group.set_step
                                (next_step (capturable w0) (_dummy_overflow_buf w0)
                                   (group.step g0)) g0]> (param_groups w0)) w0) q gr)
        as (e & w' & -> & Ht); try done.
      by exists e, w'.
    + by eapply lookup_lt_Some.
    + repeat (split; [done|]). split; [by exists g|]. done.
Qed.

Lemma fp8_float32_with_master_weights_raises_witness :
  (is_sparse {| g_data := [1%R]; is_sparse := false |} = false →
   fp8_meta_status (heap fp8_float32_optimizer 0%nat) = None →
   ∀ k b, ∃ w1, classify 0%nat (k, b) fp8_float32_optimizer = Raise AttributeError w1) ∧
  ∃ e w', step exact_backend None None fp8_float32_optimizer = Raise e w' ∧
    ∃ new, trace w' = trace fp8_float32_optimizer ++ new ∧
           Forall (λ c, (k_group c < 0)%nat) new.
Proof.
  apply (fp8_float32_with_master_weights_raises exact_backend None fp8_float32_optimizer
           0%nat (mk_group [0%nat] None) 0%nat {| g_data := [1%R]; is_sparse := false |});
    try reflexivity.
  - apply elem_of_cons. by left.
  - intros s Hs. by vm_compute in Hs.
Defined.

Lemma when_call B i g beta1 beta2 bc cond f lists inv od w0 wref :
  _dummy_overflow_buf w0 = _dummy_overflow_buf wref →
  adam_w_mode w0 = adam_w_mode wref →
  ∃ w', when cond (apply_multi_tensor_adam B i g beta1 beta2 bc f lists inv od) w0
          = Ok tt w' ∧
    trace w' = trace w0 ++ bucket_call i g beta1 beta2 bc wref cond f lists
                             (opt_arg inv ++ opt_arg od) ∧
    _dummy_overflow_buf w' = _dummy_overflow_buf wref ∧
    adam_w_mode w' = adam_w_mode wref.
Proof.
  intros Hb Ha. destruct cond; simpl.
  - rewrite apply_multi_tensor_adam_call. eexists. split; [done|].
    match goal with |- context [run_kernel B ?c ?w1] =>
      pose proof (run_kernel_tensors_only B c w1) as Hto end.
    rewrite (to_trace _ _ Hto), (to_buf _ _ Hto), (to_mode _ _ Hto). simpl.
    split; [|done]. unfold mk_call. by rewrite Hb, Ha.
  - exists w0. by rewrite app_nil_r.
Qed.

Local Opaque apply_multi_tensor_adam.

(** [dispatch] never raises and records exactly the launches of
    [dispatch_calls]. *)
Lemma dispatch_trace B gs i g beta1 beta2 bc dev b w :
  ∃ w', dispatch B gs i g beta1 beta2 bc dev b w = Ok tt w' ∧
    trace w' = trace w ++ dispatch_calls gs i g beta1 beta2 bc dev b w.
Proof.
  unfold dispatch, dispatch_calls, bind at 1, get at 1.
  destruct (capturable w) eqn:Ec.
  - unfold bind at 1, modify at 1. fold (found_inf_of gs dev). fold (unscale gs).
    set (w0 := set_overflow_buf (found_inf_of gs dev) w).
    simpl. destruct (truthy (master_weights w)) eqn:Em.
    + unfold bind at 1.
      edestruct (when_call B i g beta1 beta2 bc (nonempty (p_f16_model b)))
        as (w1 & -> & Ht1 & Hb1 & Ha1); [reflexivity|reflexivity|].
      edestruct (when_call B i g beta1 beta2 bc (nonempty (p_f32_model b)))
        as (w2 & -> & Ht2 & Hb2 & Ha2); [exact Hb1|exact Ha1|].
      eexists. split; [done|]. by rewrite Ht2, Ht1, <- app_assoc.
    + unfold bind at 1.
      edestruct (when_call B i g beta1 beta2 bc (nonempty (p_f16_model b)))
        as (w1 & -> & Ht1 & Hb1 & Ha1); [reflexivity|reflexivity|].
      edestruct (when_call B i g beta1 beta2 bc (nonempty (p_f32_model b)))
        as (w2 & -> & Ht2 & Hb2 & Ha2); [exact Hb1|exact Ha1|].
      eexists. split; [done|]. by rewrite Ht2, Ht1, <- app_assoc.
  - destruct (truthy (master_weights w)) eqn:Em.
    + unfold bind at 1.
      edestruct (when_call B i g beta1 beta2 bc (nonempty (p_f16_model b)))
        as (w1 & -> & Ht1 & Hb1 & Ha1); [reflexivity|reflexivity|].
      unfold bind at 1.
      edestruct (when_call B i g beta1 beta2 bc (nonempty (p_fp8_model b)))
        as (w2 & -> & Ht2 & Hb2 & Ha2); [exact Hb1|exact Ha1|].
      edestruct (when_call B i g beta1 beta2 bc (nonempty (p_f32_model b)))
        as (w3 & -> & Ht3 & Hb3 & Ha3); [exact Hb2|exact Ha2|].
      eexists. split; [done|]. by rewrite Ht3, Ht2, Ht1, <- !app_assoc.
    + unfold bind at 1.
      edestruct (when_call B i g beta1 beta2 bc (nonempty (p_f16_model b)))
        as (w1 & -> & Ht1 & Hb1 & Ha1); [reflexivity|reflexivity|].
      edestruct (when_call B i g beta1 beta2 bc (nonempty (p_f32_model b)))
        as (w2 & -> & Ht2 & Hb2 & Ha2); [exact Hb1|exact Ha1|].
      eexists. split; [done|]. by rewrite Ht2, Ht1, <- app_assoc.
Qed.

Local Transparent apply_multi_tensor_adam.

Lemma appended_mono w q b b' r :
  appended w q b b' →
  (r ∈ p_fp8_model b → r ∈ p_fp8_model b') ∧
  (r ∈ p_f16_model b → r ∈ p_f16_model b') ∧
  (r ∈ p_f32_model b → r ∈ p_f32_model b').
Proof. intros []; simpl; rewrite ?elem_of_app; auto. Qed.

Lemma appended_pending w q b b' :
  appended w q b b' → is_pending w q = true →
  (is_Float8Tensor (heap w q) = true ∧ ParamData q ∈ p_fp8_model b' ∧ capturable w = false) ∨
  (is_Float8Tensor (heap w q) = false ∧
   (ParamData q ∈ p_f16_model b' ∨ ParamData q ∈ p_f32_model b')).
Proof.
  unfold is_pending.
  intros [Hn|gref g pm Hgr _ H8 _ _ Hc|gref g pm Hgr _ H8 _ _|gref g Hgr _ H8 _] Hp; simpl.
  - by rewrite Hn in Hp.
  - left. rewrite elem_of_app, list_elem_of_singleton. auto.
  - right. rewrite elem_of_app, list_elem_of_singleton. auto.
  - right. rewrite elem_of_app, list_elem_of_singleton. auto.
Qed.

Lemma classify_loop_covers l k w s w' :
  for_each classify l (k, empty_buckets) w = Ok s w' →
  ∀ q, q ∈ l → is_pending w q = true →
    (is_Float8Tensor (heap w q) = true ∧ ParamData q ∈ p_fp8_model (snd s) ∧
     capturable w = false) ∨
    (is_Float8Tensor (heap w q) = false ∧
     (ParamData q ∈ p_f16_model (snd s) ∨ ParamData q ∈ p_f32_model (snd s))).
Proof.
  apply (classify_loop_prefix
           (λ pre b, ∀ q, q ∈ pre → is_pending w q = true →
              (is_Float8Tensor (heap w q) = true ∧ ParamData q ∈ p_fp8_model b ∧
               capturable w = false) ∨
              (is_Float8Tensor (heap w q) = false ∧
               (ParamData q ∈ p_f16_model b ∨ ParamData q ∈ p_f32_model b)))
           l (k, empty_buckets) w).
  2:{ intros q Hq. by apply elem_of_nil in Hq. }
  intros pre x post b b' w1 _ Hg1 _ Happ _ Hpre q Hq Hp.
  destruct (appended_mono _ _ _ _ (ParamData q) Happ) as (M8 & M16 & M32).
  apply elem_of_app in Hq as [Hq|Hq].
  - destruct (Hpre q Hq Hp) as [(? & ? & ?)|(? & [?|?])]; auto 10.
  - apply list_elem_of_singleton in Hq as ->.
    pose proof (state_grows_heap _ _ Hg1) as Hh.
    apply state_grows_grows in Hg1.
    pose proof (is_pending_grows _ _ _ Hg1 Hp) as Hp1.
    destruct (appended_pending _ _ _ _ Happ Hp1) as [(H8 & ? & Hc)|(H8 & ?)];
      rewrite Hh in H8; [left|right]; [|done].
    split; [done|]. split; [done|]. by rewrite <- (gr_cap _ _ Hg1).
Qed.

Lemma bucket_call_elem i g beta1 beta2 bc w f lists extra (r : TRef) l :
  lists !! 1%nat = Some l → r ∈ l →
  ∃ c, c ∈ bucket_call i g beta1 beta2 bc w (nonempty l) f lists extra ∧
       k_group c = i ∧ k_lists c !! 1%nat = Some l.
Proof.
  intros Hl Hr. exists (mk_call i g beta1 beta2 bc w f lists extra).
  split; [|done]. unfold bucket_call, nonempty.
  destruct l; [by apply elem_of_nil in Hr|]. simpl. by left.
Qed.

Lemma dispatch_calls_covers gs i g beta1 beta2 bc dev b w r :
  (r ∈ p_fp8_model b ∧ capturable w = false ∧ truthy (master_weights w) = true) ∨
  r ∈ p_f16_model b ∨ r ∈ p_f32_model b →
  ∃ c l, c ∈ dispatch_calls gs i g beta1 beta2 bc dev b w ∧
         k_group c = i ∧ k_lists c !! 1%nat = Some l ∧ r ∈ l.
Proof.
  unfold dispatch_calls. intros [(H8 & Hc & Hm)|[H16|H32]].
  - rewrite Hc, Hm.
    edestruct (bucket_call_elem i g beta1 beta2 bc w multi_tensor_adam_fp8
      [g_of_fp8_model b; p_fp8_model b; m_of_fp8_model b; v_of_fp8_model b;
       p_main_of_fp8_model b; scales b; amaxes b; scale_invs b]
      [ArgDType (out_dtype b)] r (p_fp8_model b)) as (c & Hin & Hk & Hl); [done|done|].
    exists c, (p_fp8_model b). rewrite !elem_of_app. auto.
  - destruct (capturable w), (truthy (master_weights w));
      match goal with |- context [bucket_call _ _ _ _ _ ?w0 (nonempty (p_f16_model b))
                                    ?f ?lists ?extra] =>
        destruct (bucket_call_elem i g beta1 beta2 bc w0 f lists extra r (p_f16_model b))
          as (c & Hin & Hk & Hl); [done|done|]
      end; exists c, (p_f16_model b); rewrite !elem_of_app; auto.
  - destruct (capturable w), (truthy (master_weights w));
      match goal with |- context [bucket_call _ _ _ _ _ ?w0 (nonempty (p_f32_model b))
                                    ?f ?lists ?extra] =>
        destruct (bucket_call_elem i g beta1 beta2 bc w0 f lists extra r (p_f32_model b))
          as (c & Hin & Hk & Hl); [done|done|]
      end; exists c, (p_f32_model b); rewrite !elem_of_app; auto 10.
Qed.

Lemma step_group_covers B gs i k w k' w' g q :
  step_group B gs i k w = Ok k' w' →
  param_groups w !! i = Some g → q ∈ group.params g → is_pending w q = true →
  is_Float8Tensor (heap w q) = false ∨ truthy (master_weights w) = true →
  ∃ new c l, trace w' = trace w ++ new ∧ c ∈ new ∧ k_group c = i ∧
             k_lists c !! 1%nat = Some l ∧ ParamData q ∈ l.
Proof.
  intros Hrun Hi Hq Hp Hcls. rewrite step_group_eq, Hi in Hrun.
  destruct (group.params g) as [|p0 rest] eqn:Hpar; [by apply elem_of_nil in Hq|].
  cbv zeta in Hrun.
  set (g' := group.set_step _ g) in Hrun. set (w1 := set_param_groups _ w) in Hrun.
  pose proof (classify_loop_state_grows (p0 :: rest) (k, empty_buckets) w1) as Hsg.
  destruct (for_each classify (p0 :: rest) (k, empty_buckets) w1) as [s w2|] eqn:Hloop;
    [|done]. simpl in Hsg.
  assert (is_pending w1 q = true) as Hp1.
  { apply (is_pending_grows w w1); [|done]. by apply grows_set_step. }
  pose proof (classify_loop_covers _ _ _ _ _ Hloop q Hq Hp1) as Hcov.
  destruct (dispatch_trace B gs i g' (fst (group.betas g)) (snd (group.betas g))
              (if group.bias_correction g then 1 else 0) (device (heap w p0)) (snd s) w2)
    as (w3 & Hd & Ht).
  rewrite Hd in Hrun. injection Hrun as _ <-.
  pose proof Hsg as [Hw2 _].
  assert (capturable w2 = capturable w) as Hc2 by (by rewrite Hw2).
  assert (master_weights w2 = master_weights w) as Hm2 by (by rewrite Hw2).
  assert (trace w2 = trace w) as Ht2 by (by rewrite Hw2).
  destruct (dispatch_calls_covers gs i g' (fst (group.betas g)) (snd (group.betas g))
              (if group.bias_correction g then 1 else 0) (device (heap w p0)) (snd s) w2
              (ParamData q)) as (c & l & Hin & Hk & Hl & Hr).
  { rewrite Hc2, Hm2. destruct Hcov as [(H8 & ? & ?)|(_ & [?|?])]; auto.
    left. split; [done|]. split; [done|]. destruct Hcls as [Hf|?]; [|done].
    simpl in H8. congruence. }
  eexists _, c, l. rewrite Ht, Ht2. done.
Qed.

(** X18: in a completed call every parameter for which the loop finds a
    gradient is handed to a kernel launch of its group, in the list of
    parameters of that launch, unless it is a [Float8Tensor] and there
    are no master weights. *)
Theorem pending_parameter_is_launched B gs w loss w' i g q :
  step B None gs w = Ok loss w' →
  param_groups w !! i = Some g → q ∈ group.params g → is_pending w q = true →
  is_Float8Tensor (heap w q) = false ∨ truthy (master_weights w) = true →
  ∃ new c l, trace w' = trace w ++ new ∧ c ∈ new ∧ k_group c = i ∧
             k_lists c !! 1%nat = Some l ∧ ParamData q ∈ l.
Proof.
  intros Hs Hi Hq Hp Hcls. rewrite step_eq in Hs.
  pose proof (for_each_prefix (step_group B gs)
    (λ pre _ w0, grows w w0 ∧
       ∃ new, trace w0 = trace w ++ new ∧
         ((i ∈ pre) → ∃ c l, c ∈ new ∧ k_group c = i ∧
                            k_lists c !! 1%nat = Some l ∧ ParamData q ∈ l))
    (λ _ _, True) (seq 0 (length (param_groups w)))) as H.
  lapply H.
  - intros H'. specialize (H' 0%nat w).
    destruct (for_each _ _ _ _) as [k1 w1|]; [|done]. injection Hs as _ <-.
    lapply H'.
    + intros (_ & new & Ht & Hc). destruct Hc as (c & l & ?).
      { apply elem_of_seq. apply lookup_lt_Some in Hi. lia. }
      by exists new, c, l.
    + split; [apply grows_refl|]. exists []. rewrite app_nil_r. split; [done|].
      intros Hn. by apply elem_of_nil in Hn.
  - intros pre x post k0 w0 Hl (Hg & new & Ht & Hdone).
    pose proof (step_group_grows B gs x k0 w0) as Hg1.
    destruct (step_group_trace B gs x k0 w0) as (new1 & Ht1 & _).
    destruct (step_group B gs x k0 w0) as [k1 w1|e w1] eqn:Hrun; [|done].
    simpl in Hg1, Ht1.
    split; [eauto using grows_trans|].
    destruct (decide (x = i)) as [->|Hne].
    + destruct (grows_group _ _ _ _ Hg Hi) as (g0 & Hi0 & Hp0).
      destruct (step_group_covers B gs i k0 w0 k1 w1 g0 q Hrun Hi0) as
        (new2 & c & l & Ht2 & Hc & Hk & Hll & Hr).
      * by rewrite Hp0.
      * by eapply is_pending_grows.
      * rewrite (ss_fp8 _ _ (gr_heap _ _ Hg q)), (grows_truthy _ _ Hg). done.
      * exists (new ++ new2). split; [by rewrite Ht2, Ht, app_assoc|].
        intros _. exists c, l. rewrite elem_of_app. auto.
    + exists (new ++ new1). split; [by rewrite Ht1, Ht, app_assoc|].
      intros [Hin|Hin]%elem_of_app.
      * destruct (Hdone Hin) as (c & l & ? & ?). exists c, l. rewrite elem_of_app. auto.
      * apply list_elem_of_singleton in Hin. done.
Qed.

Lemma pending_parameter_is_launched_witness :
  ∃ new c l,
    trace (res_world (step exact_backend None None master_optimizer))
      = trace master_optimizer ++ new ∧
    c ∈ new ∧ k_group c = 1%nat ∧ k_lists c !! 1%nat = Some l ∧ ParamData 2%nat ∈ l.
Proof.
  apply (pending_parameter_is_launched exact_backend None master_optimizer None _
           1%nat (mk_group [2%nat] None) 2%nat);
    [vm_compute; reflexivity|reflexivity| |reflexivity|by left].
  apply elem_of_cons. by left.
Defined.

Lemma bucket_call_length i g beta1 beta2 bc w cond f lists extra :
  (length (bucket_call i g beta1 beta2 bc w cond f lists extra) ≤ 1)%nat.
Proof. unfold bucket_call. destruct cond; simpl; lia. Qed.

Lemma dispatch_calls_length gs i g beta1 beta2 bc dev b w :
  (length (dispatch_calls gs i g beta1 beta2 bc dev b w) ≤ launch_bound w)%nat.
Proof.
  unfold dispatch_calls, launch_bound.
  destruct (capturable w), (truthy (master_weights w)); simpl; rewrite !length_app;
    repeat match goal with
    | |- context [bucket_call ?a1 ?a2 ?a3 ?a4 ?a5 ?a6 ?a7 ?a8 ?a9 ?a10] =>
        let H := fresh in
        pose proof (bucket_call_length a1 a2 a3 a4 a5 a6 a7 a8 a9 a10) as H;
        generalize dependent (bucket_call a1 a2 a3 a4 a5 a6 a7 a8 a9 a10); intros
    end; lia.
Qed.

Lemma launch_bound_grows w w' : grows w w' → launch_bound w' = launch_bound w.
Proof.
  intros Hg. unfold launch_bound. by rewrite (gr_cap _ _ Hg), (grows_truthy _ _ Hg).
Qed.

Lemma step_group_launch_count B gs i k w :
  ∃ new, trace (res_world (step_group B gs i k w)) = trace w ++ new ∧
         (length new ≤ launch_bound w)%nat.
Proof.
  rewrite step_group_eq.
  assert (∃ new : list KernelCall, trace w = trace w ++ new ∧
            (length new ≤ launch_bound w)%nat) as Hnil.
  { exists []. rewrite app_nil_r. split; [done|]. simpl. lia. }
  destruct (param_groups w !! i) as [g|] eqn:Hi; [|done].
  destruct (group.params g) as [|p0 rest] eqn:Hp; [done|]. cbv zeta.
  set (g' := group.set_step _ g). set (w1 := set_param_groups _ w).
  pose proof (classify_loop_state_grows (p0 :: rest) (k, empty_buckets) w1) as Hsg.
  destruct (for_each classify (p0 :: rest) (k, empty_buckets) w1) as [s w2|e w2];
    simpl in Hsg.
  2:{ simpl. rewrite (state_grows_trace _ _ Hsg). done. }
  destruct (dispatch_trace B gs i g' (fst (group.betas g)) (snd (group.betas g))
              (if group.bias_correction g then 1 else 0) (device (heap w p0)) (snd s) w2)
    as (w3 & -> & Ht).
  simpl. eexists. rewrite Ht, (state_grows_trace _ _ Hsg). split; [done|].
  etransitivity; [apply dispatch_calls_length|].
  pose proof Hsg as [Hw2 _]. unfold launch_bound. by rewrite Hw2.
Qed.

Lemma step_groups_launch_count B gs l : ∀ k w,
  ∃ new, trace (res_world (for_each (step_group B gs) l k w)) = trace w ++ new ∧
         (length new ≤ launch_bound w * length l)%nat.
Proof.
  induction l as [|x l IH]; intros k w; simpl.
  { exists []. rewrite app_nil_r. split; [done|]. simpl. lia. }
  unfold bind.
  destruct (step_group_launch_count B gs x k w) as (new1 & Ht1 & Hn1).
  pose proof (step_group_grows B gs x k w) as Hg.
  destruct (step_group B gs x k w) as [k1 w1|e w1]; simpl in *.
  - destruct (IH k1 w1) as (new2 & Ht2 & Hn2). rewrite (launch_bound_grows _ _ Hg) in Hn2.
    exists (new1 ++ new2). split; [by rewrite Ht2, Ht1, app_assoc|].
    rewrite length_app. lia.
  - exists new1. split; [done|]. lia.
Qed.

(** X19: whatever the number of parameters, a call makes at most three
    launches per group, and at most two in capturable mode or without
    master weights. *)
Theorem step_makes_few_launches B gs w :
  ∃ new, trace (res_world (step B None gs w)) = trace w ++ new ∧
    (length new ≤ launch_bound w * length (param_groups w))%nat.
Proof.
  destruct (step_groups_launch_count B gs (seq 0 (length (param_groups w))) 0%nat w)
    as (new & Ht & Hn). rewrite length_seq in Hn.
  exists new. split; [|done]. rewrite step_eq. by destruct (for_each _ _ _ _).
Qed.

Lemma still_state_grows p h o w w' : state_grows w w' → still p h o w → still p h o w'.
Proof.
  intros Hsg ([Hg Hm] & Hh & Hst).
  pose proof (state_grows_heap _ _ Hsg) as Hhe.
  pose proof (state_grows_masters _ _ Hsg) as Hmw.
  destruct Hsg as [_ Hq]. specialize (Hq p).
  split; [split|split].
  - by rewrite Hhe.
  - rewrite Hmw. intros Ht. specialize (Hm Ht). rewrite Hhe.
    assert (∀ i, master_at w' i = master_at w i) as Hat
      by (intros; unfold master_at; by rewrite Hmw).
    destruct Hq as [->|(Hn & mp & -> & Hmp)].
    + destruct (state w !! p); intros; eapply Hm; eauto; by rewrite <- Hat.
    + rewrite Hn in Hm. simpl. intros i m -> Hi. rewrite Hat in Hi.
      eapply Hm; [|done]. intros Hf. discriminate Hmp.
      unfold wants_master. rewrite Hf. simpl. by rewrite andb_false_r.
  - by rewrite Hhe.
  - destruct Hq as [->|(Hn & mp & Hs' & _)]; [done|].
    right. destruct Hst as [Hst|[_ (mp' & Hst)]]; [|congruence].
    split; [congruence|]. exists mp. rewrite Hs'. unfold fresh_state. by rewrite Hh.
Qed.

Lemma still_ext p h o w w' :
  heap w' = heap w → master_weights w' = master_weights w → state w' = state w →
  still p h o w → still p h o w'.
Proof.
  intros Hh Hm Hs. unfold still, resolved_grad_absent, master_at.
  by rewrite Hh, Hm, Hs.
Qed.

Lemma still_run_kernel B p h o c w :
  (∀ r, r ∈ concat (k_lists c) → ref_owner r ≠ Some p) →
  still p h o w → still p h o (run_kernel B c w).
Proof.
  intros Hr ([Hg Hm] & Hd & Hz).
  pose proof (run_kernel_tensors_only B c w) as Hto.
  pose proof (tensors_only_grows _ _ Hto) as Hgr.
  assert (heap (run_kernel B c w) p = heap w p) as Hh.
  { apply run_kernel_heap_other. intros r Hin Hp. by eapply Hr, ref_owner_param. }
  assert (state (run_kernel B c w) !! p = state w !! p) as Hs.
  { apply run_kernel_state_other. intros r Hin Hp. by eapply Hr, ref_owner_state. }
  split; [split|split].
  - by rewrite Hh.
  - rewrite (grows_truthy _ _ Hgr), Hs, Hh. intros Ht. specialize (Hm Ht).
    assert (∀ i m', master_at (run_kernel B c w) i = Some m' →
              ∃ m, master_at w i = Some m ∧ mw_grad m' = mw_grad m) as Hat.
    { intros i m' Hi. destruct (master_at w i) as [m|] eqn:Em.
      - destruct (grows_master_at _ _ _ _ Hgr Em) as (m'' & Hm'' & _ & Hgm).
        exists m. split; [done|]. congruence.
      - rewrite (grows_master_at_None _ _ _ Hgr Em) in Hi. done. }
    destruct (state w !! p).
    + intros i m' Hi Hm'. destruct (Hat _ _ Hm') as (m & ? & ->). eauto.
    + intros Hne i m' Hm'. destruct (Hat _ _ Hm') as (m & ? & ->). eauto.
  - by rewrite Hh.
  - by rewrite Hs.
Qed.

Lemma still_absent p h o w : still p h o w → resolved_grad_absent w p.
Proof. by intros [? _]. Qed.

Lemma step_group_still B gs i k p h o w :
  still p h o w → still p h o (res_world (step_group B gs i k w)).
Proof.
  intros HQ. rewrite step_group_eq.
  destruct (param_groups w !! i) as [g|] eqn:Hi; [|done].
  destruct (group.params g) as [|p0 rest] eqn:Hp; [done|]. cbv zeta.
  set (w1 := set_param_groups _ w).
  assert (still p h o w1) as HQ1 by (by apply (still_ext p h o w)).
  pose proof (classify_loop_state_grows (p0 :: rest) (k, empty_buckets) w1) as Hsg.
  destruct (for_each classify (p0 :: rest) (k, empty_buckets) w1) as [s w2|e w2] eqn:Hrun;
    simpl in Hsg; [|by eapply still_state_grows].
  assert (∀ r, r ∈ refs (snd s) → ref_owner r ≠ Some p) as Hrefs.
  { apply (classify_loop_prefix
             (λ _ b, ∀ r, r ∈ refs b → ref_owner r ≠ Some p)
             (p0 :: rest) (k, empty_buckets) w1) with (w' := w2);
      [|by intros r Hr; apply elem_of_nil in Hr|done].
    intros pre q post b b' w1' _ Hg1' Hsome Happ _ Hb r Hr.
    destruct (appended_refs _ _ _ _ _ Happ Hr) as [?|[Hq [->| ->]]]; [auto|done|].
    intros [= ->]. apply Hq. apply absent_p_grad_of; [|done].
    eapply still_absent, still_state_grows; eauto. }
  pose proof (still_state_grows p h o _ _ Hsg HQ1) as HQ2.
  edestruct (dispatch_inv (still p h o) B gs i) as (w3 & -> & H3); [| |exact H3].
  - destruct (capturable w2); [|done]. by apply (still_ext p h o w2).
  - intros w3 c H3 Hl _. apply still_run_kernel.
    + intros r Hr. apply Hrefs. by eapply launches_refs.
    + by apply (still_ext p h o w3).
Qed.

(** X20: an update call, whatever its outcome, leaves a parameter for which
    the loop finds no gradient as it was: the parameter object is
    unchanged, and its state entry, whatever moments it holds, is
    unchanged, or is created with zero moments if there was none. *)
Theorem step_leaves_parameter_without_gradient B gs w p :
  resolved_grad_absent w p →
  heap (res_world (step B None gs w)) p = heap w p ∧
  (state (res_world (step B None gs w)) !! p = state w !! p ∨
   (state w !! p = None ∧
    ∃ mp, state (res_world (step B None gs w)) !! p = Some (fresh_state w p mp))).
Proof.
  intros Habs.
  assert (still p (heap w p) (state w !! p) w) as H0.
  { split; [done|]. split; [done|]. by left. }
  assert (still p (heap w p) (state w !! p) (res_world
            (for_each (step_group B gs) (seq 0 (length (param_groups w))) 0%nat w))) as H.
  { refine (for_each_closure (step_group B gs)
              (λ a b, still p (heap w p) (state w !! p) a →
                      still p (heap w p) (state w !! p) b)
              _ _ _ _ 0%nat w H0); [done|auto|].
    intros x s0 w0. apply step_group_still. }
  assert (res_world (step B None gs w)
          = res_world (for_each (step_group B gs) (seq 0 (length (param_groups w))) 0%nat w))
    as -> by (rewrite step_eq; by destruct (for_each _ _ _ _)).
  destruct H as (_ & Hh & Hs). split; [done|].
  destruct Hs as [?|[? [mp ?]]]; [by left|right]. split; [done|]. by exists mp.
Qed.

Lemma step_leaves_parameter_without_gradient_witness :
  heap (res_world (step exact_backend None None warm_optimizer)) 1%nat
    = heap warm_optimizer 1%nat ∧
  (state (res_world (step exact_backend None None warm_optimizer)) !! 1%nat
     = state warm_optimizer !! 1%nat ∨
   (state warm_optimizer !! 1%nat = None ∧
    ∃ mp, state (res_world (step exact_backend None None warm_optimizer)) !! 1%nat
            = Some (fresh_state warm_optimizer 1 mp))).
Proof.
  apply step_leaves_parameter_without_gradient.
  split; [reflexivity|]. simpl. discriminate.
Defined.

Lemma groups_nodup (G : list group.t) :
  NoDup (concat (map group.params G)) →
  (∀ i g, G !! i = Some g → NoDup (group.params g)) ∧
  (∀ i j g g' q, G !! i = Some g → G !! j = Some g' →
     q ∈ group.params g → q ∈ group.params g' → i = j).
Proof.
  induction G as [|g0 G IH]; simpl; [done|].
  intros (H0 & Hdis & Hrest)%NoDup_app. destruct (IH Hrest) as [IH1 IH2].
  assert (∀ j g' q, G !! j = Some g' → q ∈ group.params g' →
            q ∈ concat (map group.params G)) as Hmem.
  { intros j g' q Hj Hq. rewrite list_elem_of_In, in_concat.
    exists (group.params g'). split; [apply in_map|]; apply list_elem_of_In; [|done].
    by eapply list_elem_of_lookup_2. }
  split.
  - intros [|i] g Hi; simpl in Hi; [by injection Hi as <-|eauto].
  - intros [|i] [|j] g g' q Hi Hj Hq Hq'; simpl in Hi, Hj; [done| | |f_equal; eauto].
    + injection Hi as <-. destruct (Hdis q Hq). eauto.
    + injection Hj as <-. destruct (Hdis q Hq'). eauto.
Qed.

Lemma bucket_call_params i g beta1 beta2 bc w f lists extra p :
  lists !! 1%nat = Some p →
  concat (map param_list (bucket_call i g beta1 beta2 bc w (nonempty p) f lists extra)) = p.
Proof.
  intros Hl. unfold bucket_call, nonempty. destruct p as [|r p]; [done|]. simpl.
  unfold param_list. simpl. rewrite Hl. simpl. by rewrite app_nil_r.
Qed.

Lemma dispatch_calls_params gs i g beta1 beta2 bc dev b w :
  concat (map param_list (dispatch_calls gs i g beta1 beta2 bc dev b w)) =
    p_f16_model b ++
    (if negb (capturable w) && truthy (master_weights w) then p_fp8_model b else []) ++
    p_f32_model b.
Proof.
  unfold dispatch_calls.
  destruct (capturable w), (truthy (master_weights w)); simpl;
    rewrite ?map_app, ?concat_app, !bucket_call_params; done.
Qed.

Lemma classify_loop_nodup l k w s w' :
  NoDup l →
  for_each classify l (k, empty_buckets) w = Ok s w' →
  NoDup (p_fp8_model (snd s) ++ p_f16_model (snd s) ++ p_f32_model (snd s)) ∧
  ∀ r, r ∈ p_fp8_model (snd s) ++ p_f16_model (snd s) ++ p_f32_model (snd s) →
    ∃ q, q ∈ l ∧ r = ParamData q.
Proof.
  intros Hnd.
  apply (classify_loop_prefix
           (λ pre b, NoDup (p_fp8_model b ++ p_f16_model b ++ p_f32_model b) ∧
              ∀ r, r ∈ p_fp8_model b ++ p_f16_model b ++ p_f32_model b →
                ∃ q, q ∈ pre ∧ r = ParamData q)
           l (k, empty_buckets) w).
  2:{ split; [constructor|]. intros r Hr. by apply elem_of_nil in Hr. }
  intros pre x post b b' w1 Hl _ _ Happ _ [Hno Hall].
  assert (x ∉ pre) as Hx.
  { rewrite Hl in Hnd. apply NoDup_app in Hnd as (_ & Hdis & _).
    intros Hin. apply (Hdis x Hin). by left. }
  assert (ParamData x ∉ p_fp8_model b ++ p_f16_model b ++ p_f32_model b) as Hfresh.
  { intros Hin. destruct (Hall _ Hin) as (q & Hq & [= ->]). done. }
  assert (∀ r, r ∈ p_fp8_model b ++ p_f16_model b ++ p_f32_model b ∨ r = ParamData x →
            ∃ q, q ∈ pre ++ [x] ∧ r = ParamData q) as Hall'.
  { intros r [Hr| ->].
    - destruct (Hall r Hr) as (q & ? & ?). exists q. rewrite elem_of_app. auto.
    - exists x. rewrite elem_of_app, list_elem_of_singleton. auto. }
  destruct Happ as [Hn|gref g pm _ _ _ _ _ _|gref g pm _ _ _ _ _|gref g _ _ _ _]; simpl.
  - split; [done|]. intros r Hr. apply Hall'. by left.
  - split.
    + assert ((p_fp8_model b ++ [ParamData x]) ++ p_f16_model b ++ p_f32_model b
              ≡ₚ ParamData x :: p_fp8_model b ++ p_f16_model b ++ p_f32_model b) as ->
        by (rewrite <- app_assoc; simpl; by rewrite <- Permutation_middle).
      by constructor.
    + intros r Hr. apply Hall'. rewrite !elem_of_app, list_elem_of_singleton in *. tauto.
  - split.
    + assert (p_fp8_model b ++ (p_f16_model b ++ [ParamData x]) ++ p_f32_model b
              ≡ₚ ParamData x :: p_fp8_model b ++ p_f16_model b ++ p_f32_model b) as ->.
      { rewrite <- app_assoc. simpl.
        rewrite <- (Permutation_middle (p_f16_model b)).
        by rewrite <- (Permutation_middle (p_fp8_model b)). }
      by constructor.
    + intros r Hr. apply Hall'. rewrite !elem_of_app, list_elem_of_singleton in *. tauto.
  - split.
    + assert (p_fp8_model b ++ p_f16_model b ++ p_f32_model b ++ [ParamData x]
              ≡ₚ ParamData x :: p_fp8_model b ++ p_f16_model b ++ p_f32_model b) as ->.
      { rewrite !app_assoc. by rewrite <- Permutation_cons_append. }
      by constructor.
    + intros r Hr. apply Hall'. rewrite !elem_of_app, list_elem_of_singleton in *. tauto.
Qed.

Lemma step_group_once B gs i k w :
  (∀ g, param_groups w !! i = Some g → NoDup (group.params g)) →
  ∃ new, trace (res_world (step_group B gs i k w)) = trace w ++ new ∧
    NoDup (concat (map param_list new)) ∧
    ∀ r, r ∈ concat (map param_list new) →
      ∃ g q, param_groups w !! i = Some g ∧ q ∈ group.params g ∧ r = ParamData q.
Proof.
  intros Hnd. rewrite step_group_eq.
  assert (∃ new : list KernelCall, trace w = trace w ++ new ∧
            NoDup (concat (map param_list new)) ∧
            ∀ r, r ∈ concat (map param_list new) →
              ∃ g q, param_groups w !! i = Some g ∧ q ∈ group.params g ∧ r = ParamData q)
    as Hnil.
  { exists []. rewrite app_nil_r. split; [done|]. split; [constructor|].
    intros r Hr. by apply elem_of_nil in Hr. }
  destruct (param_groups w !! i) as [g|] eqn:Hi; [|done].
  specialize (Hnd g eq_refl).
  destruct (group.params g) as [|p0 rest] eqn:Hp; [done|]. cbv zeta.
  set (g' := group.set_step _ g). set (w1 := set_param_groups _ w).
  pose proof (classify_loop_state_grows (p0 :: rest) (k, empty_buckets) w1) as Hsg.
  destruct (for_each classify (p0 :: rest) (k, empty_buckets) w1) as [s w2|e w2] eqn:Hrun;
    simpl in Hsg.
  2:{ simpl. rewrite (state_grows_trace _ _ Hsg). done. }
  destruct (classify_loop_nodup _ _ _ _ _ Hnd Hrun) as [Hno Hall].
  destruct (dispatch_trace B gs i g' (fst (group.betas g)) (snd (group.betas g))
              (if group.bias_correction g then 1 else 0) (device (heap w p0)) (snd s) w2)
    as (w3 & -> & Ht).
  simpl. eexists. rewrite Ht, (state_grows_trace _ _ Hsg). split; [done|].
  rewrite dispatch_calls_params.
  apply NoDup_app in Hno as (N8 & D8 & N1632).
  apply NoDup_app in N1632 as (N16 & D16 & N32).
  split.
  - destruct (negb (capturable w2) && truthy (master_weights w2)).
    + apply NoDup_app. split; [done|]. split.
      * intros r Hr [H8|H32]%elem_of_app; [|by apply (D16 r)].
        apply (D8 r H8). rewrite elem_of_app. auto.
      * apply NoDup_app. split; [done|]. split; [|done].
        intros r Hr H32. apply (D8 r Hr). rewrite elem_of_app. auto.
    + simpl. apply NoDup_app. done.
  - intros r Hr. destruct (Hall r) as (q & Hq & ->).
    + destruct (negb (capturable w2) && truthy (master_weights w2));
        rewrite !elem_of_app in Hr |- *; [tauto|].
      destruct Hr as [?|[Hn|?]]; [auto|by apply elem_of_nil in Hn|auto].
    + exists g, q. by rewrite Hp.
Qed.

(** X21: when no parameter is listed twice in the groups, no parameter
    tensor is handed to the kernels twice in a call: the parameter
    lists of all launches of the call, put end to end, have no
    duplicate. *)
Theorem no_parameter_is_launched_twice B gs w :
  NoDup (encounter_order w) →
  ∃ new, trace (res_world (step B None gs w)) = trace w ++ new ∧
         NoDup (concat (map param_list new)).
Proof.
  intros Hnd. destruct (groups_nodup _ Hnd) as [Hnd1 Hdis].
  pose proof (for_each_prefix (step_group B gs)
    (λ pre _ w0, grows w w0 ∧
       ∃ new, trace w0 = trace w ++ new ∧ NoDup (concat (map param_list new)) ∧
         ∀ r, r ∈ concat (map param_list new) →
           ∃ j g q, j ∈ pre ∧ param_groups w !! j = Some g ∧ q ∈ group.params g ∧
                    r = ParamData q)
    (λ _ w0, ∃ new, trace w0 = trace w ++ new ∧ NoDup (concat (map param_list new)))
    (seq 0 (length (param_groups w)))) as H.
  lapply H.
  - intros H'. specialize (H' 0%nat w). rewrite step_eq.
    lapply H'.
    + destruct (for_each _ _ _ _) as [k1 w1|e w1]; simpl; [|done].
      intros (_ & new & ? & ? & _). by exists new.
    + split; [apply grows_refl|]. exists []. rewrite app_nil_r. split; [done|].
      split; [constructor|]. intros r Hr. by apply elem_of_nil in Hr.
  - intros pre x post k0 w0 Hl (Hg & new & Ht & Hno & Hall).
    destruct (seq_split_index _ _ _ _ Hl) as [Hx Hlt].
    destruct (step_group_once B gs x k0 w0) as (new1 & Ht1 & Hno1 & Hall1).
    { intros g0 Hi0. destruct (grows_group_back _ _ _ _ Hg Hi0) as (g & Hi & Hsame & _).
      rewrite Hsame. by eapply Hnd1. }
    pose proof (step_group_grows B gs x k0 w0) as Hg1.
    assert (NoDup (concat (map param_list (new ++ new1)))) as Hno2.
    { rewrite map_app, concat_app. apply NoDup_app. split; [done|]. split; [|done].
      intros r Hr Hr1. destruct (Hall r Hr) as (j & g & q & Hj & Hgj & Hq & ->).
      destruct (Hall1 _ Hr1) as (g0 & q' & Hi0 & Hq' & [= <-]).
      destruct (grows_group_back _ _ _ _ Hg Hi0) as (gx & Hix & Hsame & _).
      rewrite Hsame in Hq'.
      assert (j = x) as -> by (by eapply Hdis).
      specialize (Hlt _ Hj). lia. }
    destruct (step_group B gs x k0 w0) as [k1 w1|e w1]; simpl in *.
    + split; [eauto using grows_trans|]. exists (new ++ new1).
      split; [by rewrite Ht1, Ht, app_assoc|]. split; [done|].
      intros r. rewrite map_app, concat_app. intros [Hr|Hr]%elem_of_app.
      * destruct (Hall r Hr) as (j & g & q & ? & ? & ? & ?). exists j, g, q.
        rewrite elem_of_app. auto.
      * destruct (Hall1 r Hr) as (g0 & q & Hi0 & Hq & ->).
        destruct (grows_group_back _ _ _ _ Hg Hi0) as (gx & Hix & Hsame & _).
        exists x, gx, q. rewrite elem_of_app, list_elem_of_singleton, <- Hsame. auto.
    + exists (new ++ new1). by rewrite Ht1, Ht, app_assoc.
Qed.

Lemma no_parameter_is_launched_twice_witness :
  ∃ new, trace (res_world (step exact_backend None None master_optimizer))
           = trace master_optimizer ++ new ∧
         NoDup (concat (map param_list new)).
Proof.
  apply no_parameter_is_launched_twice. vm_compute. compute_done.
Defined.

(** X22: [get_fp8_meta] never changes the object store. It raises the
    runtime error exactly when the tensor has no metadata, an index
    error exactly when it has metadata but its index is outside the
    scale or outside the first row of the amax history of the table its
    direction selects, and otherwise returns references to that scale
    entry, that amax entry and the inverse scale of the tensor. *)
Theorem get_fp8_meta_outcome w p :
  match get_fp8_meta p w with
  | Ok (sr, ar, ir) w' =>
      w' = w ∧
      ∃ x a, scale_entry (heap w p) = Some x ∧ amax_entry (heap w p) = Some a ∧
             read w sr = [x] ∧ read w ar = [a] ∧ read w ir = [_scale_inv (heap w p)]
  | Raise e w' =>
      w' = w ∧
      ((e = RuntimeError msg_fp8_meta ∧ _fp8_meta (heap w p) = None) ∨
       (e = IndexError ∧ is_Some (_fp8_meta (heap w p)) ∧
        (scale_entry (heap w p) = None ∨ amax_entry (heap w p) = None)))
  end.
Proof.
  unfold get_fp8_meta, bind, get, scale_entry, amax_entry, selected_table. simpl.
  destruct (_fp8_meta (heap w p)) as [meta|] eqn:Hm; simpl; [|split; [done|by left]].
  destruct (scale (meta_table (_fp8_meta_forward (heap w p)) meta)
              !! _fp8_meta_index (heap w p)) as [x|] eqn:Hx; simpl.
  2:{ split; [done|]. right. split; [done|]. split; [by eexists|by left]. }
  destruct (amax_history (meta_table (_fp8_meta_forward (heap w p)) meta))
    as [|row rest] eqn:Hh; simpl.
  { split; [done|]. right. split; [done|]. split; [by eexists|by right]. }
  destruct (row !! _fp8_meta_index (heap w p)) as [a|] eqn:Ha; simpl.
  2:{ split; [done|]. right. split; [done|]. split; [by eexists|by right]. }
  split; [done|]. exists x, a. rewrite Hm. simpl. rewrite Hx, Hh. simpl. by rewrite Ha.
Qed.

Lemma step_group_raise_trace B gs i k w e w' :
  step_group B gs i k w = Raise e w' →
  trace w' = trace w ∧ ∃ g, param_groups w !! i = Some g ∧ group.params g ≠ [].
Proof.
  rewrite step_group_eq. destruct (param_groups w !! i) as [g|] eqn:Hi; [|done].
  destruct (group.params g) as [|p0 rest] eqn:Hp; [done|]. cbv zeta.
  pose proof (classify_loop_state_grows (p0 :: rest) (k, empty_buckets)
                (set_param_groups
                   (<[i := group.set_step
                             (next_step (capturable w) (_dummy_overflow_buf w) (group.step g))
                             g]> (param_groups w)) w)) as Hsg.
  destruct (for_each classify (p0 :: rest) _ _) as [s w2|e2 w2]; simpl in Hsg.
  - match goal with
    | |- context [dispatch ?a1 ?a2 ?a3 ?a4 ?a5 ?a6 ?a7 ?a8 ?a9 ?a10] =>
        destruct (dispatch_Ok a1 a2 a3 a4 a5 a6 a7 a8 a9 a10) as (w3 & -> & _)
    end. done.
  - intros [= -> ->]. split; [by rewrite (state_grows_trace _ _ Hsg)|].
    exists g. by rewrite Hp.
Qed.

Lemma bump_plain v g : bump false v g = bump false 0 g.
Proof. unfold bump, next_step. by destruct (group.params g), (group.step g) as [[]|]. Qed.

Lemma bumped_prefix_step (G : list group.t) x g :
  G !! x = Some g →
  <[x := bump false 0 g]> ((bump false 0 <$> take x G) ++ drop x G)
    = (bump false 0 <$> take (S x) G) ++ drop (S x) G.
Proof.
  intros Hx. pose proof (lookup_lt_Some _ _ _ Hx) as Hlt.
  rewrite (drop_S _ _ _ Hx), (take_S_r _ _ _ Hx), fmap_app. simpl.
  assert (x = length (bump false 0 <$> take x G)) as Hlen
    by (rewrite length_fmap, length_take; lia).
  rewrite Hlen at 1. by rewrite insert_app_middle.
Qed.

(** X23: outside capturable mode a call that raises is not rolled back:
    there is a non-empty group at which it stopped, the step counters
    of this group and of every non-empty group before it have been
    advanced by one, the groups after it are as they were, and the
    launches made are those of the groups before it. *)
Theorem failed_step_is_not_rolled_back B gs w e w' :
  capturable w = false →
  step B None gs w = Raise e w' →
  ∃ i g, param_groups w !! i = Some g ∧ group.params g ≠ [] ∧
    (∀ j, (j ≤ i)%nat → param_groups w' !! j = bump false 0 <$> param_groups w !! j) ∧
    (∀ j, (i < j)%nat → param_groups w' !! j = param_groups w !! j) ∧
    ∃ new, trace w' = trace w ++ new ∧ Forall (λ c, (k_group c < i)%nat) new.
Proof.
  intros Hc Hs. rewrite step_eq in Hs.
  set (G := param_groups w) in *.
  pose proof (for_each_prefix (step_group B gs)
    (λ pre _ w0, capturable w0 = false ∧
       param_groups w0 = (bump false 0 <$> take (length pre) G) ++ drop (length pre) G ∧
       ∃ new, trace w0 = trace w ++ new ∧
              Forall (λ c, (k_group c < length pre)%nat) new)
    (λ e0 w0, ∃ i g, G !! i = Some g ∧ group.params g ≠ [] ∧
       param_groups w0 = (bump false 0 <$> take (S i) G) ++ drop (S i) G ∧
       ∃ new, trace w0 = trace w ++ new ∧ Forall (λ c, (k_group c < i)%nat) new)
    (seq 0 (length G))) as H.
  lapply H.
  - intros H'. specialize (H' 0%nat w).
    destruct (for_each _ _ _ _) as [k1 w1|e1 w1]; [done|]. injection Hs as -> ->.
    lapply H'.
    + intros (i & g & Hi & Hne & Hgs & Hnew). exists i, g.
      split; [done|]. split; [done|]. split; [|split; [|done]].
      * intros j Hj. rewrite Hgs. pose proof (lookup_lt_Some _ _ _ Hi) as Hlt.
        rewrite lookup_app_l by (rewrite length_fmap, length_take; lia).
        rewrite list_lookup_fmap. by rewrite lookup_take_lt by lia.
      * intros j Hj. rewrite Hgs. pose proof (lookup_lt_Some _ _ _ Hi) as Hlt.
        rewrite lookup_app_r by (rewrite length_fmap, length_take; lia).
        rewrite length_fmap, length_take, lookup_drop. f_equal. lia.
    + split; [done|]. split; [done|]. exists []. by rewrite app_nil_r.
  - intros pre x post k0 w0 Hl (Hc0 & Hgs & new & Ht & Hnew).
    destruct (seq_split_index _ _ _ _ Hl) as [Hx _]. rewrite <- Hx in *.
    assert (x < length G)%nat as Hlt.
    { assert (x ∈ seq 0 (length G)) as Hin
        by (rewrite Hl; apply elem_of_app; right; by left).
      apply elem_of_seq in Hin. lia. }
    destruct (lookup_lt_is_Some_2 G x Hlt) as [g Hg].
    assert (param_groups w0 !! x = Some g) as Hg0.
    { rewrite Hgs, lookup_app_r by (rewrite length_fmap, length_take; lia).
      rewrite length_fmap, length_take, lookup_drop. rewrite <- Hg. f_equal. lia. }
    pose proof (step_group_groups B gs x k0 w0 g Hg0) as Hgs1.
    rewrite Hc0, bump_plain, Hgs, (bumped_prefix_step _ _ _ Hg) in Hgs1.
    destruct (step_group_trace B gs x k0 w0) as (new1 & Ht1 & Hnew1).
    pose proof (step_group_grows B gs x k0 w0) as Hg1.
    assert (Forall (λ c, (k_group c < x)%nat) new → Forall (λ c, (k_group c < S x)%nat) new)
      as Hweak by (intros HF; eapply Forall_impl; [exact HF|]; intros c ?; simpl in *; lia).
    destruct (step_group B gs x k0 w0) as [k1 w1|e1 w1] eqn:Hrun; simpl in *.
    + split; [by rewrite (gr_cap _ _ Hg1)|]. rewrite length_app. simpl.
      rewrite Nat.add_1_r, <- Hx. split; [done|].
      exists (new ++ new1). split; [by rewrite Ht1, Ht, app_assoc|].
      apply Forall_app. split; [auto|].
      eapply Forall_impl; [exact Hnew1|]. simpl. intros c ->. lia.
    + destruct (step_group_raise_trace _ _ _ _ _ _ _ Hrun) as [Htr (g0 & Hi0 & Hne)].
      assert (g0 = g) as -> by congruence.
      exists x, g. split; [done|]. split; [done|]. split; [done|].
      exists new. split; [by rewrite Htr|done].
Qed.

Lemma failed_step_is_not_rolled_back_witness :
  ∃ i g, param_groups sparse_second_optimizer !! i = Some g ∧ group.params g ≠ [] ∧
    (∀ j, (j ≤ i)%nat →
       param_groups (res_world (step exact_backend None None sparse_second_optimizer)) !! j
         = bump false 0 <$> param_groups sparse_second_optimizer !! j) ∧
    (∀ j, (i < j)%nat →
       param_groups (res_world (step exact_backend None None sparse_second_optimizer)) !! j
         = param_groups sparse_second_optimizer !! j) ∧
    ∃ new, trace (res_world (step exact_backend None None sparse_second_optimizer))
             = trace sparse_second_optimizer ++ new ∧
           Forall (λ c, (k_group c < i)%nat) new.
Proof.
  eapply (failed_step_is_not_rolled_back exact_backend None sparse_second_optimizer);
    [reflexivity|]. vm_compute. reflexivity.
Defined.
